(** * Legato signal events ([framework/c/src/signals.c])

    A shallow embedding of the signal-event module of the Legato
    application framework: the per-thread handler registry built on
    signalfd(2), the fd-monitor callback that drains the descriptor, the
    installer of the crash handler and the crash handler itself.

    The module keeps its state in three places, and the model keeps them
    apart because the properties below depend on how they alias:
    - the thread-specific value of [SigMonKey], a pointer (possibly stale)
      to the calling thread's [MonitorObj_t];
    - two process-wide memory pools, from which monitor and handler
      objects are allocated and to which they are released;
    - the kernel: the per-thread blocked-signal mask, the descriptor table
      and the signal dispositions of the process.

    Every function takes the calling thread and the process state and
    returns how the call ended together with the state it left behind. *)

From Stdlib Require Import ZArith Lia Ascii.
From stdpp Require Import gmap strings list.

Local Open Scope Z_scope.

(** ** Platform constants

    Values of <signal.h>, <errno.h> and <poll.h> on Linux (the numbering
    shared by x86 and ARM). *)

Module Sig.
Definition SIGILL  : Z := 4.
Definition SIGTRAP : Z := 5.
Definition SIGABRT : Z := 6.
Definition SIGIOT  : Z := 6.
Definition SIGBUS  : Z := 7.
Definition SIGFPE  : Z := 8.
Definition SIGKILL : Z := 9.
Definition SIGUSR1 : Z := 10.
Definition SIGSEGV : Z := 11.
Definition SIGTERM : Z := 15.
Definition SIGSTOP : Z := 19.
Definition SIGSYS  : Z := 31.
(** The first two real-time signals, which the C library keeps for
    itself (thread cancellation and setxid). *)
Definition SIGCANCEL : Z := 32.
Definition SIGSETXID : Z := 33.
(** Signal numbers run from 1 to [_NSIG - 1]. *)
Definition _NSIG   : Z := 65.
End Sig.
Import Sig.

Definition EINTR  : Z := 4.
Definition EBADF  : Z := 9.
Definition EAGAIN : Z := 11.
Definition POLLIN : Z := 1.

(** ** Diagnostics

    Log lines and fatal messages are kept as the format string of the
    source (in C notation, escapes included) with its arguments; rendering
    them is the C library's business. *)

Inductive Arg : Type :=
| AInt (n : Z)               (* %d, %u, %x and friends *)
| APtr (p : Z)               (* %p *)
| AStr (s : string)          (* %s *)
| AStrsignal (sig : Z).      (* %s fed with strsignal(sig) *)

Inductive Diag : Type :=
| Msg (format : string) (args : list Arg)
| AssertFailed (condition : string).

Inductive LogEntry : Type :=
| Warn (d : Diag)
| Crit (d : Diag).

(** How a call ends. [Fatal] is LE_FATAL or a failed LE_ASSERT: the
    process is terminated on the spot.  [Undefined] is the use of a pool
    block after its release. *)
Inductive Outcome : Type :=
| Returned
| Fatal (d : Diag)
| Exited (status : Z)
| Undefined.

(** ** Data model *)

(** [MonitorObj_t]; a NULL [monitorRef] is [None], [fd] keeps the -1 of
    the source for "no descriptor yet".  The intrusive list is the list of
    the handler objects' addresses, head first. *)
Record MonitorObj_t : Type := mkMonitorObj {
  monitorRef     : option positive;
  fd             : Z;
  handlerObjList : list positive
}.

(** A value of type [le_sig_EventHandlerFunc_t] other than NULL: the
    module's own [TermSignalHandler] or a function of the application,
    known by its address. *)
Inductive FuncPtr : Type :=
| TermSignalHandlerPtr
| UserFunc (addr : positive).

(** [HandlerObj_t]; the link lives in [handlerObjList]. *)
Record HandlerObj_t : Type := mkHandlerObj {
  sigNum  : Z;
  handler : option FuncPtr
}.

(** What a descriptor of the process refers to. *)
Inductive FdObj : Type :=
| SignalFd (mask : gset Z)
| OtherFd.

(** A registration with the event loop, as made by le_fdMonitor_Create.
    The callback is always [OurSigHandler]. *)
Record FdMonitor : Type := mkFdMonitor {
  fm_name   : string;
  fm_fd     : Z;
  fm_events : Z
}.

Record Proc : Type := mkProc {
  pid            : Z;                          (* getpid(): the tid of the main thread *)
  threadName     : Z -> string;                (* le_thread_GetMyName() per thread *)
  SigMonKey      : gmap Z positive;            (* thread id -> pthread_getspecific(SigMonKey) *)
  MonitorObjPool : gmap positive MonitorObj_t;
  HandlerObjPool : gmap positive HandlerObj_t;
  sigmask        : gmap Z (gset Z);            (* thread id -> blocked signals *)
  fdtable        : gmap Z FdObj;
  nofile         : nat;                        (* RLIMIT_NOFILE *)
  fdMonitors     : gmap positive FdMonitor;
  logged         : list LogEntry
}.

Definition set_SigMonKey (f : gmap Z positive -> gmap Z positive) (st : Proc) : Proc :=
  mkProc (pid st) (threadName st) (f (SigMonKey st)) (MonitorObjPool st) (HandlerObjPool st)
         (sigmask st) (fdtable st) (nofile st) (fdMonitors st) (logged st).

Definition set_MonitorObjPool (f : gmap positive MonitorObj_t -> gmap positive MonitorObj_t)
    (st : Proc) : Proc :=
  mkProc (pid st) (threadName st) (SigMonKey st) (f (MonitorObjPool st)) (HandlerObjPool st)
         (sigmask st) (fdtable st) (nofile st) (fdMonitors st) (logged st).

Definition set_HandlerObjPool (f : gmap positive HandlerObj_t -> gmap positive HandlerObj_t)
    (st : Proc) : Proc :=
  mkProc (pid st) (threadName st) (SigMonKey st) (MonitorObjPool st) (f (HandlerObjPool st))
         (sigmask st) (fdtable st) (nofile st) (fdMonitors st) (logged st).

Definition set_sigmask (f : gmap Z (gset Z) -> gmap Z (gset Z)) (st : Proc) : Proc :=
  mkProc (pid st) (threadName st) (SigMonKey st) (MonitorObjPool st) (HandlerObjPool st)
         (f (sigmask st)) (fdtable st) (nofile st) (fdMonitors st) (logged st).

Definition set_fdtable (f : gmap Z FdObj -> gmap Z FdObj) (st : Proc) : Proc :=
  mkProc (pid st) (threadName st) (SigMonKey st) (MonitorObjPool st) (HandlerObjPool st)
         (sigmask st) (f (fdtable st)) (nofile st) (fdMonitors st) (logged st).

Definition set_fdMonitors (f : gmap positive FdMonitor -> gmap positive FdMonitor)
    (st : Proc) : Proc :=
  mkProc (pid st) (threadName st) (SigMonKey st) (MonitorObjPool st) (HandlerObjPool st)
         (sigmask st) (fdtable st) (nofile st) (f (fdMonitors st)) (logged st).

Definition add_log (e : LogEntry) (st : Proc) : Proc :=
  mkProc (pid st) (threadName st) (SigMonKey st) (MonitorObjPool st) (HandlerObjPool st)
         (sigmask st) (fdtable st) (nofile st) (fdMonitors st) (logged st ++ [e]).

(** The signals blocked in a thread. *)
Definition blocked (st : Proc) (tid : Z) : gset Z := default ∅ (sigmask st !! tid).

(** ** The C library and the kernel *)

(** sigaddset(3): fails (-1 with EINVAL, here [None]) on a number that
    is no signal and on the two signals the C library keeps for itself. *)
Definition sigaddset (set : gset Z) (sig : Z) : option (gset Z) :=
  if (0 <? sig) && (sig <? _NSIG) && negb (sig =? SIGCANCEL) && negb (sig =? SIGSETXID)
  then Some ({[sig]} ∪ set) else None.

(** SIGKILL and SIGSTOP cannot be blocked or accepted by a descriptor;
    the kernel drops them from any mask it is given. *)
Definition kernel_mask (set : gset Z) : gset Z := set ∖ {[SIGKILL; SIGSTOP]}.

(** pthread_sigmask(SIG_BLOCK, set, NULL). *)
Definition pthread_sigmask_block (tid : Z) (set : gset Z) (st : Proc) : Proc :=
  set_sigmask <[tid := blocked st tid ∪ kernel_mask set]> st.

(** The lowest number from [n] on that is not in [X], looked for among
    [fuel] numbers; a set of [fuel] numbers leaves one of the first
    [fuel + 1] free. *)
Fixpoint lowest_from (X : gset Z) (n : Z) (fuel : nat) : Z :=
  match fuel with
  | O => n
  | S fuel' => if decide (n ∈ X) then lowest_from X (n + 1) fuel' else n
  end.

(** The descriptor number the kernel hands out: the lowest one that is
    not in use. *)
Definition lowest_free (X : gset Z) : Z := lowest_from X 0 (size X).

(** signalfd(fd, mask, SFD_NONBLOCK).  With fd = -1 a new descriptor is
    created under the lowest free number, unless no number below
    RLIMIT_NOFILE is free (EMFILE); otherwise fd must be a signalfd
    descriptor, whose mask is replaced.  -1 is the error return.  The
    kernel is taken to have memory and room in its system-wide file
    table: ENOMEM, ENFILE and ENODEV do not occur. *)
Definition signalfd (fd : Z) (mask : gset Z) (st : Proc) : Z * Proc :=
  if fd =? -1 then
    let new := lowest_free (dom (fdtable st)) in
    if new <? Z.of_nat (nofile st) then
      (new, set_fdtable <[new := SignalFd (kernel_mask mask)]> st)
    else (-1, st)
  else
    match fdtable st !! fd with
    | Some (SignalFd _) => (fd, set_fdtable <[fd := SignalFd (kernel_mask mask)]> st)
    | _ => (-1, st)
    end.

(** le_mem_ForceAlloc: some block of the pool that is not in use.  A
    released block may be handed out again. *)
Definition le_mem_ForceAlloc {A} (pool : gmap positive A) : positive := fresh (dom pool).

(** Modelled from the spec: the event loop is a collaborator that is not
    part of this module ("register fd + callback + interest mask");
    le_fdMonitor_Create records the registration under a new reference and
    le_fdMonitor_Delete drops it. *)
Definition le_fdMonitor_Create (name : string) (fd events : Z) (st : Proc) : positive * Proc :=
  let ref := fresh (dom (fdMonitors st)) in
  (ref, set_fdMonitors <[ref := mkFdMonitor name fd events]> st).

Definition le_fdMonitor_Delete (ref : option positive) (st : Proc) : Proc :=
  match ref with
  | Some r => set_fdMonitors (delete r) st
  | None => st
  end.

(** close(2): the return value, errno when it is -1, and the state.
    [interrupted] says whether a signal cuts this attempt short while the
    file is being flushed (EINTR).  Linux releases the descriptor before
    it flushes, so that the descriptor is closed also when close returns
    EINTR; closing a signalfd descriptor flushes nothing and is never
    interrupted. *)
Definition close (fd : Z) (interrupted : bool) (st : Proc) : Z * Z * Proc :=
  match fdtable st !! fd with
  | None => (-1, EBADF, st)
  | Some (SignalFd _) => (0, 0, set_fdtable (delete fd) st)
  | Some OtherFd =>
      if interrupted then (-1, EINTR, set_fdtable (delete fd) st)
      else (0, 0, set_fdtable (delete fd) st)
  end.

(** ** The handler registry *)

(** Result of walking a handler list: the address of the object found,
    nothing, or a walk that ran into a released block. *)
Inductive Lookup : Type :=
| Found (q : positive)
| NotFound
| Stale.

(** [FindHandlerObj]: the first object of the list with a matching
    sigNum. *)
Fixpoint FindHandlerObj (sig : Z) (pool : gmap positive HandlerObj_t)
    (listPtr : list positive) : Lookup :=
  match listPtr with
  | [] => NotFound
  | q :: rest =>
      match pool !! q with
      | None => Stale
      | Some h => if sigNum h =? sig then Found q else FindHandlerObj sig pool rest
      end
  end.

(** The parameter check of [le_sig_SetEventHandler]. *)
Definition not_allowed (sig : Z) : bool :=
  (sig =? SIGKILL) || (sig =? SIGSTOP) || (sig =? SIGFPE) || (sig =? SIGILL) ||
  (sig =? SIGSEGV) || (sig =? SIGBUS) || (sig =? SIGABRT) || (sig =? SIGIOT) ||
  (sig =? SIGTRAP) || (sig =? SIGSYS).

(** "Recreate the signal mask": sigemptyset, then sigaddset for every
    object of the list, each under LE_ASSERT. *)
Inductive MaskResult : Type :=
| MaskOk (set : gset Z)
| MaskAssert
| MaskStale.

Fixpoint recreate_mask (pool : gmap positive HandlerObj_t) (listPtr : list positive)
    (sigSet : gset Z) : MaskResult :=
  match listPtr with
  | [] => MaskOk sigSet
  | q :: rest =>
      match pool !! q with
      | None => MaskStale
      | Some h =>
          match sigaddset sigSet (sigNum h) with
          | None => MaskAssert
          | Some sigSet' => recreate_mask pool rest sigSet'
          end
      end
  end.

Definition SIG_STR : string := "Sig".

(** The monitor's name buffer: SIG_STR, its terminating NUL, and the
    thread name copied behind it.  The buffer has room for any thread
    name, so the LE_ASSERT on the copy holds. *)
Definition monitorName (st : Proc) (self : Z) : string :=
  SIG_STR +:+ String Ascii.zero (threadName st self).

(** Second half of [le_sig_SetEventHandler], from "Recreate the signal
    mask" on; [p] is the calling thread's monitor object, [m] its
    contents after the list was changed. *)
Definition update_fd (self : Z) (p : positive) (m : MonitorObj_t) (st : Proc)
    : Outcome * Proc :=
  match recreate_mask (HandlerObjPool st) (handlerObjList m) ∅ with
  | MaskStale => (Undefined, st)
  | MaskAssert =>
      (Fatal (AssertFailed "sigaddset(&sigSet, handlerObjPtr->sigNum) == 0"), st)
  | MaskOk sigSet =>
      let '(newFd, st1) := signalfd (fd m) sigSet st in
      let m1 := mkMonitorObj (monitorRef m) newFd (handlerObjList m) in
      let st2 := set_MonitorObjPool <[p := m1]> st1 in
      if newFd =? -1 then
        (Fatal (Msg "Could not set signal event handler: %m" []), st2)
      else
        match monitorRef m1 with
        | Some _ => (Returned, st2)
        | None =>
            let '(ref, st3) := le_fdMonitor_Create (monitorName st2 self) newFd POLLIN st2 in
            (Returned,
             set_MonitorObjPool <[p := mkMonitorObj (Some ref) newFd (handlerObjList m)]> st3)
        end
  end.

(** Middle part of [le_sig_SetEventHandler]: find, create, update or
    remove the handler object in the monitor object at [p]. *)
Definition set_in_monitor (self sig : Z) (sigEventHandler : option FuncPtr)
    (p : positive) (st : Proc) : Outcome * Proc :=
  match MonitorObjPool st !! p with
  | None => (Undefined, st)
  | Some m =>
      match FindHandlerObj sig (HandlerObjPool st) (handlerObjList m) with
      | Stale => (Undefined, st)
      | NotFound =>
          match sigEventHandler with
          | None => (Returned, st)
          | Some f =>
              let q := le_mem_ForceAlloc (HandlerObjPool st) in
              let st1 := set_HandlerObjPool <[q := mkHandlerObj sig (Some f)]> st in
              (* le_dls_Queue: at the tail *)
              let m1 := mkMonitorObj (monitorRef m) (fd m) (handlerObjList m ++ [q]) in
              update_fd self p m1 (set_MonitorObjPool <[p := m1]> st1)
          end
      | Found q =>
          match sigEventHandler with
          | None =>
              (* le_dls_Remove: unlinked, not released *)
              let m1 := mkMonitorObj (monitorRef m) (fd m)
                                     (filter (λ x, x ≠ q) (handlerObjList m)) in
              update_fd self p m1 (set_MonitorObjPool <[p := m1]> st)
          | Some f =>
              let st1 := set_HandlerObjPool (alter (λ h, mkHandlerObj (sigNum h) (Some f)) q) st in
              update_fd self p m st1
          end
      end
  end.

(** [le_sig_SetEventHandler], called by thread [self]. *)
Definition le_sig_SetEventHandler (self sig : Z) (sigEventHandler : option FuncPtr)
    (st : Proc) : Outcome * Proc :=
  if not_allowed sig then
    (Fatal (Msg "Signal event handler for %s is not allowed." [AStrsignal sig]), st)
  else
    match SigMonKey st !! self with
    | Some p => set_in_monitor self sig sigEventHandler p st
    | None =>
        match sigEventHandler with
        | None => (Returned, st)
        | Some _ =>
            let p := le_mem_ForceAlloc (MonitorObjPool st) in
            let st1 := set_MonitorObjPool <[p := mkMonitorObj None (-1) []]> st in
            set_in_monitor self sig sigEventHandler p (set_SigMonKey <[self := p]> st1)
        end
    end.

(** [le_sig_Block], called by thread [self] (its tid). *)
Definition le_sig_Block (self sig : Z) (st : Proc) : Outcome * Proc :=
  if self =? -1 then
    (Fatal (Msg "Could not get tid of calling thread.  %m." []), st)
  else
    let st1 :=
      if self =? pid st then st
      else add_log (Warn (Msg "Blocking signal %d (%s).  Blocking signals not in the main thread may result in unexpected behaviour."
                              [AInt sig; AStrsignal sig])) st in
    match sigaddset ∅ sig with
    | None => (Fatal (AssertFailed "sigaddset(&sigSet, sigNum) == 0"), st1)
    | Some sigSet => (Returned, pthread_sigmask_block self sigSet st1)
    end.

(** The close loop of [le_sig_DeleteAll]: [intr] lists, attempt by
    attempt, whether close(2) is interrupted; past its end no attempt
    is, so that the last one gives 0 or EBADF. *)
Fixpoint close_loop (fd : Z) (intr : list bool) (st : Proc) : Outcome * Proc :=
  match intr with
  | [] =>
      let '(n, _, st1) := close fd false st in
      if n =? 0 then (Returned, st1)
      else (Fatal (Msg "Could not close file descriptor." []), st1)
  | i :: rest =>
      let '(n, err, st1) := close fd i st in
      if n =? 0 then (Returned, st1)
      else if negb (err =? EINTR) then (Fatal (Msg "Could not close file descriptor." []), st1)
      else close_loop fd rest st1
  end.

(** "Remove all handler objects from the list and free them." *)
Definition release_handlers (listPtr : list positive) (st : Proc) : Proc :=
  set_HandlerObjPool (λ pool, foldl (λ acc q, delete q acc) pool listPtr) st.

(** [le_sig_DeleteAll], called by thread [self]. *)
Definition le_sig_DeleteAll (self : Z) (intr : list bool) (st : Proc) : Outcome * Proc :=
  match SigMonKey st !! self with
  | None => (Returned, st)
  | Some p =>
      match MonitorObjPool st !! p with
      | None => (Undefined, st)
      | Some m =>
          let st1 := le_fdMonitor_Delete (monitorRef m) st in
          match close_loop (fd m) intr st1 with
          | (Returned, st2) =>
              let st3 := release_handlers (handlerObjList m) st2 in
              (Returned, set_MonitorObjPool (delete p) st3)
          | stop => stop
          end
      end
  end.

(** [TermSignalHandler]: logs and leaves with EXIT_SUCCESS. *)
Definition TermSignalHandler (sig : Z) (st : Proc) : Outcome * Proc :=
  (Exited 0, add_log (Crit (Msg "Terminated" [])) st).

(** [le_sig_InstallDefaultTermHandler]. *)
Definition le_sig_InstallDefaultTermHandler (self : Z) (st : Proc) : Outcome * Proc :=
  match le_sig_Block self SIGTERM st with
  | (Returned, st1) => le_sig_SetEventHandler self SIGTERM (Some TermSignalHandlerPtr) st1
  | stop => stop
  end.

(** ** The fd-monitor callback *)

(** What one read(2) of the signal fd gives back: the return value, errno
    when it is -1, and the ssi_signo of the record when it is positive. *)
Record ReadResult : Type := mkRead {
  numBytesRead : Z;
  errno        : Z;
  ssi_signo    : Z
}.

(** What one turn of the [while(1)] of [OurSigHandler] does. *)
Inductive Turn : Type :=
| Invoke (f : FuncPtr) (sig : Z)   (* call the handler, then read again *)
| Skip                             (* read again *)
| Break                            (* leave the loop *)
| Die (o : Outcome).               (* LE_FATAL, LE_ASSERT or a stale pointer *)

Definition OurSigHandler_turn (self : Z) (r : ReadResult) (st : Proc) : Turn :=
  if 0 <? numBytesRead r then
    match SigMonKey st !! self with
    | None => Die (Fatal (AssertFailed "monitorObjPtr != NULL"))
    | Some p =>
        match MonitorObjPool st !! p with
        | None => Die Undefined
        | Some m =>
            match FindHandlerObj (ssi_signo r) (HandlerObjPool st) (handlerObjList m) with
            | Stale => Die Undefined
            | NotFound => Skip
            | Found q =>
                match HandlerObjPool st !! q with
                | None => Die Undefined
                | Some h =>
                    match handler h with
                    | Some f => Invoke f (ssi_signo r)
                    | None => Skip
                    end
                end
            end
        end
    end
  else if (numBytesRead r =? 0) || ((numBytesRead r =? -1) && (errno r =? EAGAIN)) then
    Break
  else if (numBytesRead r =? -1) && negb (errno r =? EINTR) then
    Die (Fatal (Msg "Could not read from signal fd: %m" []))
  else
    Skip.

Section Dispatch.

(** What the application's handler functions do when called. *)
Variable user : positive -> Z -> Proc -> Outcome * Proc.

Definition call (f : FuncPtr) (sig : Z) (st : Proc) : Outcome * Proc :=
  match f with
  | TermSignalHandlerPtr => TermSignalHandler sig st
  | UserFunc a => user a sig st
  end.

(** The loop of [OurSigHandler].  [reads] is what the successive reads
    of the non-blocking descriptor return; past its end nothing is
    queued and read fails with EAGAIN. *)
Fixpoint drain (self : Z) (reads : list ReadResult) (st : Proc) : Outcome * Proc :=
  match reads with
  | [] => (Returned, st)
  | r :: rest =>
      match OurSigHandler_turn self r st with
      | Invoke f sig =>
          match call f sig st with
          | (Returned, st1) => drain self rest st1
          | stop => stop
          end
      | Skip => drain self rest st
      | Break => (Returned, st)
      | Die o => (o, st)
      end
  end.

(** [OurSigHandler], run by thread [self] for the event set [events]. *)
Definition OurSigHandler (self : Z) (events : Z) (reads : list ReadResult) (st : Proc)
    : Outcome * Proc :=
  if negb (Z.land events (Z.lnot POLLIN) =? 0) then
    let st1 := add_log (Crit (Msg "Unexpected event set (0x%hx) from signal fd."
                                  [AInt events])) st in
    if Z.land events POLLIN =? 0 then (Returned, st1) else drain self reads st1
  else drain self reads st.

End Dispatch.

(** ** Installing the crash handler *)

Definition SA_NOCLDSTOP : Z := 1.
Definition SA_SIGINFO   : Z := 4.
Definition SA_RESETHAND : Z := 0x80000000.

(** The functions this module hands to sigaction(2). *)
Inductive SigactionFn : Type :=
| ShowStackSignalHandlerFn.

Record sigaction_t : Type := mkSigaction {
  sa_sigaction : SigactionFn;
  sa_flags     : Z
}.

(** The process-wide part of the module's state: the dispositions set
    with sigaction(2), a signal without entry having its default action,
    and the static [GdbServerPort]. *)
Record CrashCfg : Type := mkCrashCfg {
  actions       : gmap Z sigaction_t;
  GdbServerPort : Z
}.

(** sigaction(sig, &sa, NULL): 0, or -1 for a number that is no signal
    and for SIGKILL and SIGSTOP. *)
Definition sigaction (sig : Z) (sa : sigaction_t) (acts : gmap Z sigaction_t)
    : Z * gmap Z sigaction_t :=
  if (0 <? sig) && (sig <? _NSIG) && negb (sig =? SIGKILL) && negb (sig =? SIGSTOP)
  then (0, <[sig := sa]> acts)
  else (-1, acts).

(** Delivery of a signal by the kernel: the function to run, if one is
    installed, and the dispositions on its entry.  With SA_RESETHAND the
    disposition is back to the default before the function runs. *)
Definition deliver (sig : Z) (acts : gmap Z sigaction_t)
    : option SigactionFn * gmap Z sigaction_t :=
  match acts !! sig with
  | None => (None, acts)
  | Some sa =>
      (Some (sa_sigaction sa),
       if Z.eqb (Z.land (sa_flags sa) SA_RESETHAND) 0 then acts else delete sig acts)
  end.

Definition tolower (c : ascii) : ascii :=
  let n := nat_of_ascii c in
  if ((65 <=? n) && (n <=? 90))%nat then ascii_of_nat (n + 32) else c.

(** [strcasecmp a b == 0]. *)
Fixpoint strcasecmp_is0 (a b : string) : bool :=
  match a, b with
  | EmptyString, EmptyString => true
  | String x a', String y b' =>
      if Ascii.eqb (tolower x) (tolower y) then strcasecmp_is0 a' b' else false
  | _, _ => false
  end.

(** One sigaction call of the installer with its LE_CRIT. *)
Definition install (name : string) (sig : Z) (sa : sigaction_t)
    (s : gmap Z sigaction_t * list LogEntry) : gmap Z sigaction_t * list LogEntry :=
  let '(ret, acts) := sigaction sig sa (fst s) in
  if ret =? 0 then (acts, snd s)
  else (acts,
        snd s ++ [Crit (Msg ("Unable to install signal handler for " +:+ name +:+ " : %m\n")
                            [])]).

(** [le_sig_InstallShowStackHandler].  [getenv] is the environment of
    the process and [scan_u s] what [sscanf(s, "%u", &port)] stores when
    it converts one item.  The result is the new configuration and the
    lines logged. *)
Definition le_sig_InstallShowStackHandler (getenv : string -> option string)
    (scan_u : string -> option Z) (cfg : CrashCfg) : CrashCfg * list LogEntry :=
  let disabled :=
    match getenv "SIGNAL_SHOW_INFO" with
    | Some v => strcasecmp_is0 v "disable" || strcasecmp_is0 v "no"
    | None => false
    end in
  if disabled then
    (cfg, [Warn (Msg "Handle of SEGV/ILL/BUS/FPE/ABRT and show information disabled" [])])
  else
    let sa := mkSigaction ShowStackSignalHandlerFn
                (Z.lor (Z.lor SA_NOCLDSTOP SA_SIGINFO) SA_RESETHAND) in
    let s0 := (actions cfg, []) in
    let s1 := install "SIGSEGV" SIGSEGV sa s0 in
    let s2 := install "SIGBUS" SIGBUS sa s1 in
    let s3 := install "SIGILL" SIGILL sa s2 in
    let s4 := install "SIGFPE" SIGFPE sa s3 in
    let s5 := install "SIGABRT" SIGABRT sa s4 in
    match getenv "GDBSERVER_PORT" with
    | None => (mkCrashCfg (fst s5) (GdbServerPort cfg), snd s5)
    | Some v =>
        match scan_u v with
        | Some port => (mkCrashCfg (fst s5) port, snd s5)
        | None =>
            (mkCrashCfg (fst s5) (GdbServerPort cfg),
             snd s5 ++ [Warn (Msg "Incorrect GDBSERVER_PORT=%s. Discarded..." [AStr v])])
        end
    end.

(** ** The crash handler *)

(** What is handed to write(2): a buffer filled by snprintf (format of
    the source and arguments), a string literal, or bytes that were read
    from a file. *)
Inductive Buf : Type :=
| Printf (format : string) (args : list Arg)
| Lit (s : string)
| Raw (bytes : string).

Inductive File : Type :=
| VersionFile      (* /legato/systems/current/version *)
| CmdlineFile      (* /proc/<pid>/cmdline *)
| MapsFile.        (* /proc/<pid>/maps *)

(** What the handler does to the outside, in order. *)
Inductive Event : Type :=
| EvWrite (b : Buf) (full : bool)   (* write(2, ...); [full]: it wrote all it was asked to *)
| EvClose (f : File)
| EvFork
| EvExecvpe (argv : list Buf)
| EvWait
| EvRaise (sig : Z).

(** The result of one read(2): the bytes it stored, or -1. *)
Inductive ReadRes : Type :=
| ReadBytes (s : string)
| ReadError.

Definition rc_of (r : ReadRes) : Z :=
  match r with
  | ReadBytes s => Z.of_nat (String.length s)
  | ReadError => -1
  end.

Definition bytes_of (r : ReadRes) : string :=
  match r with
  | ReadBytes s => s
  | ReadError => ""
  end.

(** The slice of struct sigcontext the ARM branch prints; all words
    unsigned. *)
Record ArmRegs : Type := mkArmRegs {
  arm_r0 : Z; arm_r1 : Z; arm_r2 : Z; arm_r3 : Z; arm_r4 : Z; arm_r5 : Z;
  arm_r6 : Z; arm_r7 : Z; arm_r8 : Z; arm_r9 : Z; arm_r10 : Z;
  arm_fp : Z; arm_ip : Z; arm_sp : Z; arm_lr : Z; arm_pc : Z; arm_cpsr : Z
}.

(** The build the handler was compiled for, with what that build looks
    at: on ARM the registers, the handler's own frame address and the
    memory (word at a byte address); elsewhere the program counter of the
    context and the addresses backtrace(3) finds. *)
Inductive Machine : Type :=
| Arm (regs : ArmRegs) (base : Z) (mem : Z -> Z)
| Other (pc : Z) (callers : list Z).

(** The circumstances of one run of the handler.  A file that cannot be
    opened is [None]; [cmdline_file] lists the results of the successive
    reads (end of file after the last), [maps_file] the bytes that the
    one-byte reads deliver before the first that returns nothing. *)
Record Crash : Type := mkCrash {
  c_pid         : Z;
  c_tid         : Z;
  si_addr       : Z;
  machine       : Machine;
  version_file  : option ReadRes;
  cmdline_file  : option (list ReadRes);
  maps_file     : option string;
  gdbServerPort : Z;       (* the static GdbServerPort *)
  fork_ret      : Z;
  exec_fails    : bool
}.

(** Progress of the handler: the number of writes issued and the events
    so far. *)
Record Trace : Type := mkTrace {
  nwrites : nat;
  events  : list Event
}.

(** Where control is after a piece of the handler: it goes on, the
    handler has returned, or a loop is still turning when the fuel of the
    model is spent. *)
Inductive Flow (A : Type) : Type :=
| Next (a : A)
| Return
| Spin.
Arguments Next {A} a.
Arguments Return {A}.
Arguments Spin {A}.

Definition Handler (A : Type) : Type := Trace -> Flow A * Trace.

Definition ret {A} (a : A) : Handler A := λ t, (Next a, t).

Definition bind {A B} (m : Handler A) (k : A -> Handler B) : Handler B :=
  λ t, match m t with
       | (Next a, t1) => k a t1
       | (Return, t1) => (Return, t1)
       | (Spin, t1) => (Spin, t1)
       end.

Declare Scope handler_scope.
Delimit Scope handler_scope with handler.
Notation "x <- m ;; k" := (bind m (λ x, k))
  (at level 100, m at next level, right associativity) : handler_scope.
Notation "m ;; k" := (bind m (λ _, k))
  (at level 100, right associativity) : handler_scope.

Definition leave {A} : Handler A := λ t, (Return, t).
Definition spin {A} : Handler A := λ t, (Spin, t).

Definition emit (e : Event) : Handler unit :=
  λ t, (Next tt, mkTrace (nwrites t) (events t ++ [e])).

(** "In /proc/<pid>/cmdline, replace '\0' by ' ' in the string" *)
Fixpoint nul_to_space (s : string) : string :=
  match s with
  | EmptyString => EmptyString
  | String ch rest =>
      String (if Ascii.eqb Ascii.zero ch then " "%char else ch) (nul_to_space rest)
  end.

Definition newline : ascii := ascii_of_nat 10.

Definition append_char (s : string) (c : ascii) : string := s +:+ String c "".

Section CrashHandler.

(** The signal being handled, the circumstances, and for every write
    of the run, in order, whether it writes all it is asked to. *)
Variable sigNum : Z.
Variable c : Crash.
Variable wr : nat -> bool.

Local Open Scope handler_scope.

(** write(2, buf, size) == size *)
Definition write (b : Buf) : Handler bool :=
  λ t, let full := wr (nwrites t) in
       (Next full, mkTrace (S (nwrites t)) (events t ++ [EvWrite b full])).

(** The macro CHECK_WRITE. *)
Definition CHECK_WRITE (b : Buf) : Handler unit :=
  full <- write b ;;
  if full then ret tt else (emit (EvRaise sigNum) ;; leave).

Definition pcPtr : Z :=
  match machine c with
  | Arm regs _ _ => arm_pc regs
  | Other pc _ => pc
  end.

(** "Explain signal" *)
Definition explain : Buf :=
  if sigNum =? SIGSEGV then Printf "ILLEGAL ADDRESS %p\n" [APtr (si_addr c)]
  else if sigNum =? SIGFPE then Printf "FLOATING POINT EXCEPTION AT %p\n" [APtr (si_addr c)]
  else if sigNum =? SIGTRAP then Printf "TRAP AT %p\n" [APtr (si_addr c)]
  else if sigNum =? SIGABRT then Printf "ABORT\n" []
  else if sigNum =? SIGILL then Printf "ILLEGAL INSTRUCTION AT %p\n" [APtr (si_addr c)]
  else if sigNum =? SIGBUS then Printf "BUS ERROR AT %p\n" [APtr (si_addr c)]
  else Printf "UNEXPECTED SIGNAL %d\n" [AInt sigNum].

Definition intro_section : Handler unit :=
  CHECK_WRITE (Printf "PROCESS: %d ,TID %d\n" [AInt (c_pid c); AInt (c_tid c)]) ;;
  CHECK_WRITE (Printf "SIGNAL: %d, ADDR %p, AT %p\n"
                 [AInt sigNum; APtr (if SIGABRT =? sigNum then 0 else si_addr c); APtr pcPtr]) ;;
  CHECK_WRITE explain.

(** "Dump the legato version" *)
Definition version_section : Handler unit :=
  CHECK_WRITE (Printf "LEGATO VERSION\n" []) ;;
  match version_file c with
  | None => ret tt
  | Some r =>
      emit (EvClose VersionFile) ;;
      if 0 <? rc_of r then
        CHECK_WRITE (Raw (bytes_of r)) ;;
        CHECK_WRITE (Lit "\n")
      else
        CHECK_WRITE (Printf "Cannot read legato version\n" [])
  end.

(** The do-while over /proc/<pid>/cmdline. *)
Fixpoint cmdline_loop (reads : list ReadRes) : Handler unit :=
  match reads with
  | [] => ret tt
  | r :: rest =>
      if 0 <? rc_of r then
        full <- write (Raw (nul_to_space (bytes_of r))) ;;
        if full then cmdline_loop rest
        else (emit (EvClose CmdlineFile) ;; emit (EvRaise sigNum) ;; leave)
      else ret tt
  end.

(** "Dump some process command line" *)
Definition cmdline_section : Handler unit :=
  CHECK_WRITE (Printf "PROCESS COMMAND LINE\n" []) ;;
  match cmdline_file c with
  | None => ret tt
  | Some reads =>
      cmdline_loop reads ;;
      emit (EvClose CmdlineFile) ;;
      CHECK_WRITE (Lit "\n")
  end.

(** The two loops over /proc/<pid>/maps, one byte per read: [line] is
    sigString[0..len-1]. *)
Fixpoint maps_loop (content : string) (line : string) (len : Z) : Handler unit :=
  match content with
  | EmptyString => ret tt
  | String ch rest =>
      if Ascii.eqb newline ch then
        full <- write (Raw (append_char line ch)) ;;
        if full then maps_loop rest "" 0
        else (emit (EvClose MapsFile) ;; emit (EvRaise sigNum) ;; leave)
      else if len + 1 <? 256 then maps_loop rest (append_char line ch) (len + 1)
      else maps_loop rest "" 0
  end.

(** "Dump the process map" *)
Definition maps_section : Handler unit :=
  CHECK_WRITE (Printf "PROCESS MAP\n" []) ;;
  match maps_file c with
  | None => ret tt
  | Some content =>
      maps_loop content "" 0 ;;
      emit (EvClose MapsFile)
  end.

(** The frame walk of the ARM build.  Pointers are byte addresses, so
    [frame - 1] of the source is [frame - 4] and [base + 1024*1024] is
    [base + 4 * (1024 * 1024)]. *)
Fixpoint arm_frames (fuel : nat) (regs : ArmRegs) (base : Z) (mem : Z -> Z)
    (addr frame : Z) : Handler unit :=
  match fuel with
  | O => spin
  | S fuel' =>
      CHECK_WRITE (Printf "%s at %08x\n"
                     [AStr (if addr =? arm_pc regs then "PC" else "LR"); AInt addr]) ;;
      if (base + 4 * (1024 * 1024) <? frame) || (frame <? base) then ret tt
      else if addr =? arm_pc regs then
        arm_frames fuel' regs base mem (arm_lr regs) (mem (frame - 4))
      else
        let new_frame := mem (frame - 4) in
        if frame <=? new_frame then ret tt
        else arm_frames fuel' regs base mem (mem new_frame) new_frame
  end.

(** The dump of 256 stack words, eight to a line. *)
Fixpoint arm_stack (lines : nat) (mem : Z -> Z) (frame : Z) : Handler unit :=
  match lines with
  | O => ret tt
  | S lines' =>
      CHECK_WRITE (Printf "%08x: %08x %08x %08x %08x %08x %08x %08x %08x\n"
                     [AInt frame;
                      AInt (mem frame); AInt (mem (frame + 4)); AInt (mem (frame + 8));
                      AInt (mem (frame + 12)); AInt (mem (frame + 16));
                      AInt (mem (frame + 20)); AInt (mem (frame + 24));
                      AInt (mem (frame + 28))]) ;;
      arm_stack lines' mem (frame + 32)
  end.

(** The loop over the addresses of backtrace(3), from index [n]. *)
Fixpoint backtrace_loop (n : Z) (addrs : list Z) : Handler unit :=
  match addrs with
  | [] => ret tt
  | a :: rest =>
      CHECK_WRITE (Printf "#%d : %p\n" [AInt (n - 2); APtr a]) ;;
      backtrace_loop (n + 1) rest
  end.

(** "Dump the back-trace, registers and stack" *)
Definition backtrace_section (fuel : nat) : Handler unit :=
  CHECK_WRITE (Printf "BACKTRACE\n" []) ;;
  match machine c with
  | Arm regs base mem =>
      arm_frames fuel regs base mem (arm_pc regs) base ;;
      CHECK_WRITE (Printf "r0  %08lx r1  %08lx r2  %08lx r3  %08lx r4  %08lx  r5  %08lx\n"
                     [AInt (arm_r0 regs); AInt (arm_r1 regs); AInt (arm_r2 regs);
                      AInt (arm_r3 regs); AInt (arm_r4 regs); AInt (arm_r5 regs)]) ;;
      CHECK_WRITE (Printf "r6  %08lx r7  %08lx r8  %08lx r9  %08lx r10 %08lx cpsr %08lx\n"
                     [AInt (arm_r6 regs); AInt (arm_r7 regs); AInt (arm_r8 regs);
                      AInt (arm_r9 regs); AInt (arm_r10 regs); AInt (arm_cpsr regs)]) ;;
      CHECK_WRITE (Printf "fp  %08lx ip  %08lx sp  %08lx lr  %08lx pc  %08lx\n"
                     [AInt (arm_fp regs); AInt (arm_ip regs); AInt (arm_sp regs);
                      AInt (arm_lr regs); AInt (arm_pc regs)]) ;;
      CHECK_WRITE (Printf "STACK %08lx, FRAME %08lx\n"
                     [AInt (arm_sp regs); AInt (arm_fp regs)]) ;;
      arm_stack 32 mem (arm_sp regs)
  | Other _ callers =>
      (* backtrace(&retSp[0], 12), then from n = 2 *)
      backtrace_loop 2 (drop 2 (take 12 callers))
  end.

(** The gdbserver(1) launch. *)
Definition gdb_section : Handler unit :=
  if gdbServerPort c =? 0 then ret tt
  else
    emit EvFork ;;
    (if fork_ret c =? 0 then
       emit (EvExecvpe [Lit "gdbserver"; Printf ":%u" [AInt (gdbServerPort c)];
                        Lit "--attach"; Printf "%d" [AInt (c_pid c)]]) ;;
       if exec_fails c then ret tt else leave
     else ret tt) ;;
    emit EvWait.

(** What follows the version section. *)
Definition after_version (fuel : nat) : Handler unit :=
  cmdline_section ;;
  maps_section ;;
  backtrace_section fuel ;;
  CHECK_WRITE (Printf "DONE\n" []) ;;
  gdb_section ;;
  emit (EvRaise sigNum).

(** [ShowStackSignalHandler]. *)
Definition ShowStackSignalHandler (fuel : nat) : Handler unit :=
  intro_section ;;
  version_section ;;
  after_version fuel.

(** The run of the handler from its entry. *)
Definition crash_run (fuel : nat) : Flow unit * Trace :=
  ShowStackSignalHandler fuel (mkTrace 0 []).

End CrashHandler.

(** * Specification-side definitions *)

(** ** Handler lists and the pool *)

(** [linked pool l hs]: the addresses [l] are in use in [pool] and hold
    the objects [hs], in this order. *)
Definition linked (pool : gmap positive HandlerObj_t) (l : list positive)
    (hs : list HandlerObj_t) : Prop :=
  Forall2 (λ q h, pool !! q = Some h) l hs.

Definition is_signal (sig : Z) : Prop :=
  0 < sig < _NSIG ∧ sig ≠ SIGCANCEL ∧ sig ≠ SIGSETXID.

(** ** The invariant of a thread's context *)

(** The list of the monitor object [m] holds the objects [hs], one per
    signal, each with a handler and a signal that passed the parameter
    check. *)
Record list_ok (st : Proc) (m : MonitorObj_t) (hs : list HandlerObj_t) : Prop := {
  lo_linked  : linked (HandlerObjPool st) (handlerObjList m) hs;
  lo_nodup   : NoDup (sigNum <$> hs);
  lo_entries : Forall (λ h, is_Some (handler h) ∧ not_allowed (sigNum h) = false) hs
}.

(** The descriptor of [m] is a signalfd with mask [mask], and [m] is
    registered with the event loop for it. *)
Record wired (st : Proc) (self : Z) (m : MonitorObj_t) (mask : gset Z) : Prop := {
  wi_fd   : fd m ≠ -1;
  wi_open : fdtable st !! fd m = Some (SignalFd mask);
  wi_ref  : ∃ r, monitorRef m = Some r ∧
                 fdMonitors st !! r = Some (mkFdMonitor (monitorName st self) (fd m) POLLIN)
}.

(** Thread [self] has the context [m] at address [p], holding [hs]. *)
Record ctx_ok (st : Proc) (self : Z) (p : positive) (m : MonitorObj_t)
    (hs : list HandlerObj_t) : Prop := {
  ok_key     : SigMonKey st !! self = Some p;
  ok_obj     : MonitorObjPool st !! p = Some m;
  ok_list    : list_ok st m hs;
  ok_signals : Forall (λ h, is_signal (sigNum h)) hs;
  ok_wired   : wired st self m (list_to_set (sigNum <$> hs))
}.

(** The invariant: no context, or a well-formed one. *)
Definition sig_inv (st : Proc) (self : Z) : Prop :=
  SigMonKey st !! self = None ∨ ∃ p m hs, ctx_ok st self p m hs.

(** The parts of the state [update_fd] leaves alone. *)
Definition same_registry (st st' : Proc) : Prop :=
  pid st' = pid st ∧ threadName st' = threadName st ∧ SigMonKey st' = SigMonKey st ∧
  HandlerObjPool st' = HandlerObjPool st ∧ sigmask st' = sigmask st ∧
  logged st' = logged st.

(** What a SetHandler call does to the handler entries of a thread, in
    the words of the specification: an entry is created at the end on
    the first registration of its signal, replaced where it stands on a
    later one, and removed when the callback is cleared. *)
Definition spec_SetHandler (sig : Z) (callback : option FuncPtr)
    (hs : list HandlerObj_t) : list HandlerObj_t :=
  match callback with
  | None => filter (λ e, sigNum e ≠ sig) hs
  | Some f =>
      if decide (sig ∈ sigNum <$> hs)
      then (λ e, if decide (sigNum e = sig) then mkHandlerObj sig (Some f) else e) <$> hs
      else hs ++ [mkHandlerObj sig (Some f)]
  end.

(** A sequence of [le_sig_SetEventHandler] calls made by one thread; it
    ends with the first call that does not return. *)
Fixpoint SetEventHandlers (self : Z) (calls : list (Z * option FuncPtr)) (st : Proc)
    : Outcome * Proc :=
  match calls with
  | [] => (Returned, st)
  | (sig, callback) :: rest =>
      match le_sig_SetEventHandler self sig callback st with
      | (Returned, st1) => SetEventHandlers self rest st1
      | stop => stop
      end
  end.

(** The context of a thread: the monitor object its key points to, if
    that object is in use. *)
Definition context (st : Proc) (self : Z) : option MonitorObj_t :=
  p ← SigMonKey st !! self; MonitorObjPool st !! p.

(** The handler entries of a thread, in list order. *)
Definition entries (st : Proc) (self : Z) : list HandlerObj_t :=
  match context st self with
  | Some m => omap (λ q, HandlerObjPool st !! q) (handlerObjList m)
  | None => []
  end.

(** The signals that have a non-empty handler entry in the thread. *)
Definition handled (st : Proc) (self : Z) : gset Z :=
  list_to_set (sigNum <$> filter (λ h, is_Some (handler h)) (entries st self)).

(** A process right after [sig_Init], with its three standard
    descriptors, both pools empty and the key NULL in every thread; its
    main thread has tid 100. *)
Definition boot : Proc :=
  mkProc 100 (λ _, "main") ∅ ∅ ∅ ∅
         (<[0 := OtherFd]> (<[1 := OtherFd]> (<[2 := OtherFd]> ∅))) 1024 ∅ [].

(** The reserved set of the specification's SetHandler: kill and stop,
    and the fatal signals. *)
Definition FatalSignalSet : list Z := [SIGSEGV; SIGILL; SIGBUS; SIGFPE; SIGABRT; SIGTRAP].
Definition reserved_set : list Z := [SIGKILL; SIGSTOP] ++ FatalSignalSet.

(** The callback registered for [sig] in the context of thread [self],
    if there is one. *)
Definition current_handler (st : Proc) (self sig : Z) : option FuncPtr :=
  h ← head (filter (λ e, sigNum e = sig) (entries st self)); handler h.

(** One turn of the drain loop in the words of the specification, given
    the callback found for the record's signal: a record is dispatched or
    dropped; size 0 and "would block" end the batch; an interrupted read
    is retried; any other error is fatal. *)
Definition spec_turn (found : option FuncPtr) (r : ReadResult) : Turn :=
  if 0 <? numBytesRead r then
    match found with
    | Some f => Invoke f (ssi_signo r)
    | None => Skip
    end
  else if numBytesRead r =? 0 then Break
  else if errno r =? EAGAIN then Break
  else if errno r =? EINTR then Skip
  else Die (Fatal (Msg "Could not read from signal fd: %m" [])).

(** A stretch of events without a failed write. *)
Definition clean (evs : list Event) : Prop :=
  Forall (λ e, ∀ b, e ≠ EvWrite b false) evs.

(** What may follow a failed write: the re-raise, possibly after the
    close of the file being dumped. *)
Definition reraise (sig : Z) (tail : list Event) : Prop :=
  tail = [EvRaise sig] ∨ ∃ f, tail = [EvClose f; EvRaise sig].

(** The condition a piece of the handler meets when run from trace [t]:
    it adds events without failed write, or, having returned, events
    without failed write, then one failed write and the re-raise. *)
Definition post_ok {A} (sig : Z) (t : Trace) (r : Flow A * Trace) : Prop :=
  (∃ more, events (snd r) = events t ++ more ∧ clean more) ∨
  (fst r = Return ∧
   ∃ more b tail, events (snd r) = events t ++ more ++ EvWrite b false :: tail ∧
                  clean more ∧ reraise sig tail).

Definition sound {A} (sig : Z) (m : Handler A) : Prop := ∀ t, post_ok sig t (m t).

(** A piece of the handler that never makes the handler return. *)
Definition goes_on {A} (m : Handler A) : Prop := ∀ t, fst (m t) ≠ Return.

(** A segmentation fault at address 0 in the main thread of process 4242,
    on a build that is not ARM, with none of the three files openable and
    no gdbserver port set. *)
Definition crash0 : Crash :=
  mkCrash 4242 4242 0 (Other 4096 []) None None None 0 0 false.

(** The state of a process that has not called the installer, and an
    environment without variables. *)
Definition cfg0 : CrashCfg := mkCrashCfg ∅ 0.
Definition no_env : string → option string := λ _, None.
Definition no_scan : string → option Z := λ _, None.

(** The same fault with a one-line memory map. *)
Definition crash1 : Crash :=
  mkCrash 4242 4242 0 (Other 4096 []) None None
          (Some (append_char "00400000-00401000 r-xp" newline)) 0 0 false.

(** * More of the module *)

(** [sig_Init]: the two pools are created, empty, and so is the key,
    whose value is NULL in every thread.  [key_created] says whether
    pthread_key_create succeeds. *)
Definition sig_Init (key_created : bool) (st : Proc) : Outcome * Proc :=
  let st1 := set_HandlerObjPool (λ _, ∅) (set_MonitorObjPool (λ _, ∅) st) in
  if key_created then (Returned, set_SigMonKey (λ _, ∅) st1)
  else (Fatal (AssertFailed "pthread_key_create(&SigMonKey, NULL) == 0"), st1).

(** A call of one of the three registration functions. *)
Inductive Call : Type :=
| CallBlock (sig : Z)
| CallSetEventHandler (sig : Z) (sigEventHandler : option FuncPtr)
| CallDeleteAll (intr : list bool).

Definition do_call (self : Z) (c : Call) (st : Proc) : Outcome * Proc :=
  match c with
  | CallBlock sig => le_sig_Block self sig st
  | CallSetEventHandler sig h => le_sig_SetEventHandler self sig h st
  | CallDeleteAll intr => le_sig_DeleteAll self intr st
  end.

(** A sequence of calls made by one thread; it ends with the first call
    that does not return. *)
Fixpoint do_calls (self : Z) (cs : list Call) (st : Proc) : Outcome * Proc :=
  match cs with
  | [] => (Returned, st)
  | c :: rest =>
      match do_call self c st with
      | (Returned, st1) => do_calls self rest st1
      | stop => stop
      end
  end.

(** The callbacks a batch of records leads to, looked up in state [st]:
    one per record whose signal has a handler, in the order of the
    records. *)
Definition invocations (st : Proc) (self : Z) (records : list ReadResult)
    : list (FuncPtr * Z) :=
  omap (λ r, (λ f, (f, ssi_signo r)) <$> current_handler st self (ssi_signo r)) records.

(** Calling callbacks one after the other, up to the first that does not
    return. *)
Fixpoint invoke_all (user : positive → Z → Proc → Outcome * Proc)
    (l : list (FuncPtr * Z)) (st : Proc) : Outcome * Proc :=
  match l with
  | [] => (Returned, st)
  | (f, sig) :: rest =>
      match call user f sig st with
      | (Returned, st1) => invoke_all user rest st1
      | stop => stop
      end
  end.

(** The three parts of the state the registry lives in. *)
Definition same_registry_objects (st st' : Proc) : Prop :=
  SigMonKey st' = SigMonKey st ∧ MonitorObjPool st' = MonitorObjPool st ∧
  HandlerObjPool st' = HandlerObjPool st.

(** The signals a sequence of calls asks to block. *)
Definition block_calls (cs : list Call) : list Z :=
  omap (λ c, match c with CallBlock sig => Some sig | _ => None end) cs.

(** A string with its upper-case letters turned into lower case. *)
Fixpoint lower (s : string) : string :=
  match s with
  | EmptyString => EmptyString
  | String ch rest => String (tolower ch) (lower rest)
  end.

(** SIGNAL_SHOW_INFO is set to "disable" or "no", in any letter case. *)
Definition show_info_disabled (getenv : string → option string) : bool :=
  match getenv "SIGNAL_SHOW_INFO" with
  | Some v => bool_decide (lower v = "disable" ∨ lower v = "no")
  | None => false
  end.

(** The disposition the installer asks for, and the signals it asks it
    for. *)
Definition one_shot : sigaction_t :=
  mkSigaction ShowStackSignalHandlerFn (Z.lor (Z.lor SA_NOCLDSTOP SA_SIGINFO) SA_RESETHAND).

Definition crash_signals : list Z := [SIGSEGV; SIGBUS; SIGILL; SIGFPE; SIGABRT].

(** The port the installer leaves in GdbServerPort. *)
Definition port_after (getenv : string → option string) (scan_u : string → option Z)
    (cfg : CrashCfg) : Z :=
  if show_info_disabled getenv then GdbServerPort cfg
  else default (GdbServerPort cfg) (getenv "GDBSERVER_PORT" ≫= scan_u).

(** ** Shapes of the crash handler's runs *)

(** Run from any trace, [m] adds events to it, and the way it ends and
    the events it adds are related by [T]. *)
Definition yields {A} (T : Flow A → list Event → Prop) (m : Handler A) : Prop :=
  ∀ t, ∃ more, events (snd (m t)) = events t ++ more ∧ T (fst (m t)) more.

(** A piece of the handler: while it goes on, every event it adds
    satisfies [Q]; when it makes the handler return, the stretch it has
    added satisfies [R]. *)
Definition adds {A} (Q : Event → Prop) (R : list Event → Prop) (m : Handler A) : Prop :=
  yields (λ f more, match f with Return => R more | _ => Forall Q more end) m.

Definition not_raise (e : Event) : Prop := ∀ s, e ≠ EvRaise s.

(** The last thing a run that ends does: it raises the signal, or it is
    the forked child and has become gdbserver. *)
Definition last_act (sig : Z) (c : Crash) (e : Event) : Prop :=
  e = EvRaise sig ∨
  (∃ argv, e = EvExecvpe argv) ∧ gdbServerPort c ≠ 0 ∧ fork_ret c = 0 ∧ exec_fails c = false.

Definition ends_with (sig : Z) (c : Crash) (more : list Event) : Prop :=
  ∃ pre e, more = pre ++ [e] ∧ Forall not_raise pre ∧ last_act sig c e.

Definition run_end (sig : Z) (c : Crash) (f : Flow unit) (more : list Event) : Prop :=
  match f with
  | Spin => Forall not_raise more
  | _ => ends_with sig c more
  end.

(** Events of the gdbserver launch. *)
Definition no_spawn (e : Event) : Prop :=
  e ≠ EvFork ∧ e ≠ EvWait ∧ ∀ argv, e ≠ EvExecvpe argv.

Definition quiet (e : Event) : Prop := no_spawn e ∧ ∀ b, e ≠ EvWrite b false.

Definition spawn_after_done (c : Crash) (more : list Event) : Prop :=
  Forall no_spawn more ∨
  (gdbServerPort c ≠ 0 ∧
   ∃ pre post, more = pre ++ EvWrite (Printf "DONE\n" []) true :: EvFork :: post ∧
               Forall quiet pre).

(** A piece of the handler after which the handler goes on. *)
Definition proceeds {A} (m : Handler A) : Prop := ∀ t, ∃ a t', m t = (Next a, t').

(** The chunks of the command line that are read before the first read
    that returns nothing or fails. *)
Fixpoint chunks_read (reads : list ReadRes) : list string :=
  match reads with
  | [] => []
  | r :: rest => if 0 <? rc_of r then bytes_of r :: chunks_read rest else []
  end.

(** The line of the stack dump for the eight words at [frame]. *)
Definition stack_line (mem : Z → Z) (frame : Z) : Event :=
  EvWrite (Printf "%08x: %08x %08x %08x %08x %08x %08x %08x %08x\n"
             [AInt frame;
              AInt (mem frame); AInt (mem (frame + 4)); AInt (mem (frame + 8));
              AInt (mem (frame + 12)); AInt (mem (frame + 16));
              AInt (mem (frame + 20)); AInt (mem (frame + 24));
              AInt (mem (frame + 28))]) true.

(** A buffer read as a C string: the bytes before the first NUL. *)
Fixpoint c_str (s : string) : string :=
  match s with
  | EmptyString => EmptyString
  | String ch rest => if Ascii.eqb ch Ascii.zero then EmptyString else String ch (c_str rest)
  end.

(** ** Several threads *)

(** [le_sig_SetEventHandler] calls made by any threads, one after the
    other: each call names its thread. *)
Fixpoint SetEventHandlers_by (calls : list (Z * Z * option FuncPtr)) (st : Proc)
    : Outcome * Proc :=
  match calls with
  | [] => (Returned, st)
  | (t, sig, h) :: rest =>
      match le_sig_SetEventHandler t sig h st with
      | (Returned, st1) => SetEventHandlers_by rest st1
      | stop => stop
      end
  end.

(** The calls of a sequence that thread [t] made. *)
Definition calls_of (t : Z) (calls : list (Z * Z * option FuncPtr))
    : list (Z * option FuncPtr) :=
  omap (λ c, if decide (c.1.1 = t) then Some (c.1.2, c.2) else None) calls.

(** What a thread's calls make of its entries, in the words of the
    specification. *)
Definition spec_SetHandlers (calls : list (Z * option FuncPtr)) (hs : list HandlerObj_t)
    : list HandlerObj_t :=
  foldl (λ acc c, spec_SetHandler c.1 c.2 acc) hs calls.

(** The contexts of two threads share nothing: they are different
    blocks, no handler object is linked in both, and they have different
    descriptors and different monitors. *)
Definition apart (m1 m2 : MonitorObj_t) : Prop :=
  (∀ q, q ∈ handlerObjList m1 → q ∉ handlerObjList m2) ∧
  fd m1 ≠ fd m2 ∧ monitorRef m1 ≠ monitorRef m2.

Definition separate (st : Proc) : Prop :=
  ∀ t1 t2 p1 p2 m1 m2, t1 ≠ t2 →
    SigMonKey st !! t1 = Some p1 → SigMonKey st !! t2 = Some p2 →
    MonitorObjPool st !! p1 = Some m1 → MonitorObjPool st !! p2 = Some m2 →
    p1 ≠ p2 ∧ apart m1 m2.

(** The invariant of the registry as a whole. *)
Definition threads_ok (st : Proc) : Prop := (∀ t, sig_inv st t) ∧ separate st.

(** What a call of a thread whose context is at [p], with list [l] and
    descriptor [fd0], leaves alone: the objects that existed before and
    are not its own. *)
Definition others_kept (st st' : Proc) (p : positive) (l : list positive) (fd0 : Z) : Prop :=
  threadName st' = threadName st ∧
  (∀ p', p' ≠ p → MonitorObjPool st' !! p' = MonitorObjPool st !! p') ∧
  (∀ q, is_Some (HandlerObjPool st !! q) → q ∉ l →
        HandlerObjPool st' !! q = HandlerObjPool st !! q) ∧
  (∀ fd', is_Some (fdtable st !! fd') → fd' ≠ fd0 → fdtable st' !! fd' = fdtable st !! fd') ∧
  (∀ r, is_Some (fdMonitors st !! r) → fdMonitors st' !! r = fdMonitors st !! r).

(** The context [m'] of a thread after its call, against what it had
    before: its objects are those it had or objects that did not exist. *)
Definition grown_from (st : Proc) (l : list positive) (fd0 : Z) (r0 : option positive)
    (m' : MonitorObj_t) : Prop :=
  (∀ q, q ∈ handlerObjList m' → q ∈ l ∨ HandlerObjPool st !! q = None) ∧
  (fd m' = fd0 ∨ fdtable st !! fd m' = None) ∧
  (monitorRef m' = r0 ∨ ∃ r, monitorRef m' = Some r ∧ fdMonitors st !! r = None).

(** The signals a sequence of calls registers a handler for. *)
Definition register_calls (cs : list Call) : list Z :=
  omap (λ c, match c with CallSetEventHandler sig (Some _) => Some sig | _ => None end) cs.

(** The key of the thread holds the address of a released block. *)
Definition dangling (st : Proc) (self : Z) : Prop :=
  ∃ p, SigMonKey st !! self = Some p ∧ MonitorObjPool st !! p = None.

(** ** Runs with and without failed writes *)

(** Every write writes all it is asked to. *)
Definition all_ok : nat → bool := λ _, true.

(** [m] against [m_ok], the same piece with writes that all succeed:
    run from the same trace, either [m] does exactly what [m_ok] does,
    without failed write, or [m] makes the handler return after a failed
    write up to which both have added the same events. *)
Definition truncated {A} (m m_ok : Handler A) : Prop :=
  ∀ t,
    (m t = m_ok t ∧ ∃ more, events (snd (m t)) = events t ++ more ∧ clean more) ∨
    (fst (m t) = Return ∧
     ∃ more b tail rest,
       events (snd (m t)) = events t ++ more ++ EvWrite b false :: tail ∧
       events (snd (m_ok t)) = events t ++ more ++ EvWrite b true :: rest ∧
       clean more ∧ clean tail).

(** A piece that only adds events. *)
Definition extends {A} (m : Handler A) : Prop :=
  ∀ t, ∃ more, events (snd (m t)) = events t ++ more.

#[local] Set Warnings "-clear-no-such-hyp".

(** * Properties of the registry *)

(** ** Handler lists and the pool *)



Lemma sigaddset_signal set sig : is_signal sig → sigaddset set sig = Some ({[sig]} ∪ set).
Proof.
  unfold is_signal, sigaddset. intros ([H1 H2] & H3 & H4).
  apply Z.ltb_lt in H1, H2. apply Z.eqb_neq in H3, H4. by rewrite H1, H2, H3, H4.
Qed.

Lemma sigaddset_Some set sig set' :
  sigaddset set sig = Some set' → is_signal sig ∧ set' = {[sig]} ∪ set.
Proof.
  unfold sigaddset, is_signal. intros H.
  destruct (0 <? sig) eqn:H1; destruct (sig <? _NSIG) eqn:H2;
    destruct (sig =? SIGCANCEL) eqn:H3; destruct (sig =? SIGSETXID) eqn:H4; simplify_eq/=.
  apply Z.ltb_lt in H1, H2. apply Z.eqb_neq in H3, H4. done.
Qed.

Lemma linked_lookup pool l hs q :
  linked pool l hs → q ∈ l → ∃ h, pool !! q = Some h ∧ h ∈ hs.
Proof.
  induction 1 as [|q' h l hs Hq _ IH]; intros Hin.
  - by apply elem_of_nil in Hin.
  - apply elem_of_cons in Hin as [->|Hin].
    + exists h. split; [done | apply elem_of_cons; by left].
    + destruct (IH Hin) as (h' & ? & ?). exists h'. split; [done | apply elem_of_cons; by right].
Qed.

Lemma linked_insert_fresh pool l hs q h :
  linked pool l hs → pool !! q = None → linked (<[q := h]> pool) l hs.
Proof.
  intros Hl Hq. induction Hl as [|q' h' l hs Hq' _ IH]; constructor; [|done].
  rewrite lookup_insert_ne; [done | congruence].
Qed.

Lemma linked_app pool l1 l2 hs1 hs2 :
  linked pool l1 hs1 → linked pool l2 hs2 → linked pool (l1 ++ l2) (hs1 ++ hs2).
Proof. apply Forall2_app. Qed.

Lemma linked_NoDup pool l hs :
  linked pool l hs → NoDup (sigNum <$> hs) → NoDup l.
Proof.
  induction 1 as [|q h l hs Hq Hl IH]; intros Hnd; [constructor|].
  rewrite fmap_cons in Hnd. apply NoDup_cons in Hnd as [Hnotin Hnd].
  apply NoDup_cons. split; [|by apply IH].
  intros Hin. destruct (linked_lookup _ _ _ _ Hl Hin) as (h' & Hq' & Hh').
  rewrite Hq in Hq'. simplify_eq. apply Hnotin. by apply list_elem_of_fmap_2.
Qed.

(** The walk of [FindHandlerObj] over a linked list. *)
Lemma find_linked sig pool l hs :
  linked pool l hs →
  match FindHandlerObj sig pool l with
  | Stale => False
  | NotFound => sig ∉ sigNum <$> hs
  | Found q =>
      ∃ l1 l2 hs1 h hs2,
        l = l1 ++ q :: l2 ∧ hs = hs1 ++ h :: hs2 ∧
        linked pool l1 hs1 ∧ linked pool l2 hs2 ∧
        pool !! q = Some h ∧ sigNum h = sig ∧ sig ∉ sigNum <$> hs1
  end.
Proof.
  induction 1 as [|q h l hs Hq Hl IH]; simpl.
  - apply not_elem_of_nil.
  - rewrite Hq. destruct (sigNum h =? sig) eqn:E.
    + apply Z.eqb_eq in E. exists [], l, [], h, hs.
      repeat split; try done; [constructor | apply not_elem_of_nil].
    + apply Z.eqb_neq in E. destruct (FindHandlerObj sig pool l) as [q'| |]; [| |done].
      * destruct IH as (l1 & l2 & hs1 & h' & hs2 & -> & -> & H1 & H2 & H3 & H4 & H5).
        exists (q :: l1), l2, (h :: hs1), h', hs2.
        repeat split; try done; [by constructor|].
        rewrite ?fmap_cons. apply not_elem_of_cons. split; [congruence | done].
      * rewrite ?fmap_cons. apply not_elem_of_cons. split; [congruence | done].
Qed.

(** The mask rebuilt from a linked list of signals. *)
Lemma recreate_mask_linked pool l hs acc :
  linked pool l hs → Forall (λ h, is_signal (sigNum h)) hs →
  recreate_mask pool l acc = MaskOk (list_to_set (sigNum <$> hs) ∪ acc).
Proof.
  intros Hl. revert acc. induction Hl as [|q h l hs Hq Hl IH]; intros acc Hs; simpl.
  - f_equal. set_solver.
  - apply Forall_cons in Hs as [Hh Hs]. rewrite Hq, (sigaddset_signal _ _ Hh), (IH _ Hs).
    f_equal. set_solver.
Qed.

Lemma recreate_mask_MaskOk pool l hs acc set :
  linked pool l hs → recreate_mask pool l acc = MaskOk set →
  Forall (λ h, is_signal (sigNum h)) hs.
Proof.
  intros Hl. revert acc. induction Hl as [|q h l hs Hq Hl IH]; intros acc Hm; simpl in *.
  - constructor.
  - rewrite Hq in Hm. destruct (sigaddset acc (sigNum h)) as [acc'|] eqn:E; [|done].
    apply sigaddset_Some in E as [? _]. constructor; [done | by eapply IH].
Qed.

Lemma recreate_mask_not_Stale pool l hs acc :
  linked pool l hs → recreate_mask pool l acc ≠ MaskStale.
Proof.
  intros Hl. revert acc. induction Hl as [|q h l hs Hq Hl IH]; intros acc; simpl; [done|].
  rewrite Hq. destruct (sigaddset acc (sigNum h)); [apply IH | done].
Qed.

(** ** The kernel and the pools *)

(** A set that holds the first [n] numbers has at least [n] elements. *)
Lemma size_initial_segment (X : gset Z) n :
  0 ≤ n → (∀ k, 0 ≤ k < n → k ∈ X) → n ≤ Z.of_nat (size X).
Proof.
  intros Hn Hall.
  assert (Hsub : (list_to_set (seqZ 0 n) : gset Z) ⊆ X).
  { intros k Hk. apply elem_of_list_to_set, elem_of_seqZ in Hk. apply Hall. lia. }
  apply subseteq_size in Hsub.
  rewrite size_list_to_set in Hsub by apply NoDup_seqZ.
  rewrite length_seqZ in Hsub. lia.
Qed.

Lemma lowest_from_spec (X : gset Z) fuel : ∀ n,
  0 ≤ n → (∀ k, 0 ≤ k < n → k ∈ X) → Z.of_nat (size X) ≤ n + Z.of_nat fuel →
  n ≤ lowest_from X n fuel ≤ n + Z.of_nat fuel ∧
  (lowest_from X n fuel ∉ X) ∧
  ∀ k, 0 ≤ k < lowest_from X n fuel → k ∈ X.
Proof.
  induction fuel as [|fuel IH]; intros n Hn Hall Hsize; cbn [lowest_from].
  - split; [lia|]. split; [|done].
    intros Hin. assert (n + 1 ≤ Z.of_nat (size X)); [|lia].
    apply size_initial_segment; [lia|]. intros k Hk.
    destruct (decide (k = n)) as [-> | Hne]; [done|]. apply Hall. lia.
  - destruct (decide (n ∈ X)) as [Hin | Hnotin].
    + destruct (IH (n + 1)) as (Hb & Hfree & Hmin); [lia | | lia |].
      * intros k Hk. destruct (decide (k = n)) as [-> | Hne]; [done|]. apply Hall. lia.
      * split; [lia|]. by split.
    + split; [lia|]. by split.
Qed.

(** The number handed out is free, it is the lowest free one, and a
    table of [n] descriptors leaves one of the numbers up to [n] free. *)
Lemma lowest_free_spec (X : gset Z) :
  0 ≤ lowest_free X ≤ Z.of_nat (size X) ∧ (lowest_free X ∉ X) ∧
  ∀ k, 0 ≤ k < lowest_free X → k ∈ X.
Proof.
  unfold lowest_free.
  destruct (lowest_from_spec X (size X) 0) as (Hb & Hfree & Hmin); [lia | lia | lia |].
  split; [lia|]. by split.
Qed.

Lemma signalfd_update fd mask0 mask st :
  fd ≠ -1 → fdtable st !! fd = Some (SignalFd mask0) →
  signalfd fd mask st = (fd, set_fdtable <[fd := SignalFd (kernel_mask mask)]> st).
Proof.
  intros Hne Hfd. unfold signalfd.
  destruct (fd =? -1) eqn:E; [apply Z.eqb_eq in E; done|]. by rewrite Hfd.
Qed.

Lemma signalfd_create mask st n st1 :
  signalfd (-1) mask st = (n, st1) →
  (n = -1 ∧ st1 = st) ∨
  (n ≠ -1 ∧ fdtable st !! n = None ∧
   st1 = set_fdtable <[n := SignalFd (kernel_mask mask)]> st).
Proof.
  unfold signalfd. simpl.
  destruct (lowest_free_spec (dom (fdtable st))) as (Hb & Hfree & _).
  destruct (_ <? _); intros ?; simplify_eq.
  - right. split_and!; [lia | by apply not_elem_of_dom | done].
  - by left.
Qed.

Lemma not_allowed_kill_stop sig : not_allowed sig = false → sig ≠ SIGKILL ∧ sig ≠ SIGSTOP.
Proof.
  unfold not_allowed. intros H.
  repeat (apply orb_false_iff in H as [H ?]).
  split; by apply Z.eqb_neq.
Qed.

Lemma kernel_mask_allowed (sigs : list Z) :
  Forall (λ s, not_allowed s = false) sigs →
  kernel_mask (list_to_set sigs) = list_to_set sigs.
Proof.
  intros Hs. unfold kernel_mask. apply set_eq. intros x.
  rewrite elem_of_difference, elem_of_list_to_set. split; [by intros [? _]|].
  intros Hx. split; [done|].
  rewrite Forall_forall in Hs. apply Hs, not_allowed_kill_stop in Hx as [? ?].
  set_solver.
Qed.


Lemma update_fd_frame self p m st o st' :
  update_fd self p m st = (o, st') → same_registry st st'.
Proof.
  unfold update_fd, signalfd, le_fdMonitor_Create, same_registry. intros H.
  repeat case_match; simplify_eq/=; done.
Qed.

Lemma update_fd_list self p m st o st' :
  MonitorObjPool st !! p = Some m →
  update_fd self p m st = (o, st') →
  ∃ m', MonitorObjPool st' !! p = Some m' ∧ handlerObjList m' = handlerObjList m.
Proof.
  unfold update_fd, signalfd, le_fdMonitor_Create. intros Hm H.
  repeat case_match; simplify_eq/=; rewrite ?lookup_insert_eq; eauto.
Qed.

Lemma list_ok_transfer st m hs st' m' :
  list_ok st m hs → HandlerObjPool st' = HandlerObjPool st →
  handlerObjList m' = handlerObjList m → list_ok st' m' hs.
Proof. intros [H1 H2 H3] Hp Hl. split; [by rewrite Hp, Hl | done | done]. Qed.

Lemma list_ok_allowed st m hs :
  list_ok st m hs → Forall (λ s, not_allowed s = false) (sigNum <$> hs).
Proof.
  intros [_ _ H]. apply Forall_fmap. eapply Forall_impl; [exact H|]. by intros h [_ ?].
Qed.

(** [update_fd] on a context whose list is in order: it never touches a
    released block, and when it returns the context is well formed; a
    context that was wired already keeps its descriptor and its
    registration. *)
Lemma update_fd_ok self p m st hs o st' :
  SigMonKey st !! self = Some p → MonitorObjPool st !! p = Some m → list_ok st m hs →
  (fd m = -1 ∧ monitorRef m = None) ∨ (∃ mask0, wired st self m mask0) →
  update_fd self p m st = (o, st') →
  o ≠ Undefined ∧
  (o = Returned →
   ∃ m', ctx_ok st' self p m' hs ∧ handlerObjList m' = handlerObjList m ∧
         ((∃ mask0, wired st self m mask0) →
          fd m' = fd m ∧ monitorRef m' = monitorRef m ∧ fdMonitors st' = fdMonitors st)).
Proof.
  intros Hkey Hobj Hlist Hfd. unfold update_fd.
  pose proof (lo_linked _ _ _ Hlist) as Hl.
  destruct (recreate_mask (HandlerObjPool st) (handlerObjList m) ∅) as [set| |] eqn:Hmask.
  2: { intros ?; simplify_eq. split; [done | done]. }
  2: { by apply (recreate_mask_not_Stale _ _ _ _ Hl) in Hmask. }
  pose proof (recreate_mask_MaskOk _ _ _ _ _ Hl Hmask) as Hsig.
  rewrite (recreate_mask_linked _ _ _ _ Hl Hsig) in Hmask. simplify_eq.
  assert (kernel_mask (list_to_set (sigNum <$> hs) ∪ ∅) = list_to_set (sigNum <$> hs)) as Hk.
  { rewrite (right_id_L ∅ (∪)). apply kernel_mask_allowed. by eapply list_ok_allowed. }
  destruct Hfd as [[Hm1 Hnone] | [mask0 Hw]].
  - (* first registration: the descriptor and the monitor are created *)
    rewrite Hm1. destruct (signalfd (-1) _ st) as [n st1] eqn:Hsfd.
    apply signalfd_create in Hsfd as [[-> ->] | (Hn & Hfree & ->)]; simpl.
    { intros ?; simplify_eq. done. }
    destruct (n =? -1) eqn:E; [apply Z.eqb_eq in E; done|].
    rewrite Hnone. intros ?; simplify_eq. split; [done|]. intros _.
    eexists. split; [|split].
    + split; simpl.
      * done.
      * by rewrite lookup_insert_eq.
      * eapply list_ok_transfer; [exact Hlist | done | done].
      * done.
      * split; simpl.
        -- done.
        -- by rewrite lookup_insert_eq, Hk.
        -- eexists. split; [done|]. by rewrite lookup_insert_eq.
    + done.
    + intros [mask0 [Hne _ _]]. done.
  - (* the descriptor exists: its mask is replaced *)
    destruct Hw as [Hne Hopen (r & Hr & Hmon)].
    rewrite (signalfd_update _ _ _ _ Hne Hopen). simpl.
    destruct (fd m =? -1) eqn:E; [apply Z.eqb_eq in E; done|].
    rewrite Hr. intros ?; simplify_eq. split; [done|]. intros _.
    eexists. split; [|split].
    + split; simpl.
      * done.
      * by rewrite lookup_insert_eq.
      * eapply list_ok_transfer; [exact Hlist | done | done].
      * done.
      * split; simpl.
        -- done.
        -- by rewrite lookup_insert_eq, Hk.
        -- eexists. split; [done|]. done.
    + done.
    + intros _. simpl. split_and!; congruence.
Qed.

(** On a wired context whose signals are all valid [update_fd] returns. *)
Lemma update_fd_returns self p m st hs mask0 :
  list_ok st m hs → Forall (λ h, is_signal (sigNum h)) hs → wired st self m mask0 →
  ∃ st', update_fd self p m st = (Returned, st').
Proof.
  intros Hlist Hsig [Hne Hopen (r & Hr & Hmon)]. unfold update_fd.
  rewrite (recreate_mask_linked _ _ _ _ (lo_linked _ _ _ Hlist) Hsig).
  rewrite (signalfd_update _ _ _ _ Hne Hopen). simpl.
  destruct (fd m =? -1) eqn:E; [apply Z.eqb_eq in E; done|].
  rewrite Hr. eauto.
Qed.

(** ** Changing a linked list *)

Lemma linked_alter_other pool l hs q g :
  linked pool l hs → q ∉ l → linked (alter g q pool) l hs.
Proof.
  induction 1 as [|q' h l hs Hq' _ IH]; intros Hnotin; constructor.
  - apply not_elem_of_cons in Hnotin as [? _]. rewrite lookup_alter_ne; [done | congruence].
  - apply IH. by apply not_elem_of_cons in Hnotin as [_ ?].
Qed.

Lemma filter_ne_notin (l : list positive) q : q ∉ l → filter (λ x, x ≠ q) l = l.
Proof.
  induction l as [|x l IH]; intros Hq; [done|].
  apply not_elem_of_cons in Hq as [? ?].
  rewrite filter_cons_True by congruence. f_equal. by apply IH.
Qed.

Lemma filter_sig_notin (hs : list HandlerObj_t) sig :
  sig ∉ sigNum <$> hs → filter (λ e, sigNum e ≠ sig) hs = hs.
Proof.
  induction hs as [|h hs IH]; intros Hs; [done|].
  rewrite fmap_cons in Hs. apply not_elem_of_cons in Hs as [? ?].
  rewrite filter_cons_True by congruence. f_equal. by apply IH.
Qed.

Lemma replace_sig_notin (hs : list HandlerObj_t) sig e' :
  sig ∉ sigNum <$> hs → (λ e, if decide (sigNum e = sig) then e' else e) <$> hs = hs.
Proof.
  induction hs as [|h hs IH]; intros Hs; [done|].
  rewrite fmap_cons in Hs. apply not_elem_of_cons in Hs as [? ?].
  rewrite fmap_cons. rewrite decide_False by congruence. f_equal. by apply IH.
Qed.

(** A list with one entry per signal, split at the entry of [sig]. *)
Lemma NoDup_split_sig (hs1 hs2 : list HandlerObj_t) h :
  NoDup (sigNum <$> (hs1 ++ h :: hs2)) →
  (sigNum h ∉ sigNum <$> hs1) ∧ (sigNum h ∉ sigNum <$> hs2) ∧ NoDup (sigNum <$> (hs1 ++ hs2)).
Proof.
  rewrite !fmap_app, fmap_cons. intros Hnd.
  apply NoDup_app in Hnd as (H1 & H2 & H3). apply NoDup_cons in H3 as [H3 H4].
  split_and!; [|done|].
  - intros Hin. apply (H2 _ Hin). apply elem_of_cons. by left.
  - apply NoDup_app. split_and!; [done| |done].
    intros x Hx Hx'. apply (H2 _ Hx). apply elem_of_cons. by right.
Qed.

Lemma spec_remove_split hs1 hs2 h :
  NoDup (sigNum <$> (hs1 ++ h :: hs2)) →
  spec_SetHandler (sigNum h) None (hs1 ++ h :: hs2) = hs1 ++ hs2.
Proof.
  intros (H1 & H2 & _)%NoDup_split_sig. simpl.
  rewrite filter_app, filter_cons_False by (intros ?; done).
  by rewrite !filter_sig_notin.
Qed.

Lemma spec_replace_split hs1 hs2 h f :
  NoDup (sigNum <$> (hs1 ++ h :: hs2)) →
  spec_SetHandler (sigNum h) (Some f) (hs1 ++ h :: hs2)
  = hs1 ++ mkHandlerObj (sigNum h) (Some f) :: hs2.
Proof.
  intros (H1 & H2 & _)%NoDup_split_sig. simpl.
  rewrite decide_True.
  2: { rewrite fmap_app, fmap_cons. apply elem_of_app. right. apply elem_of_cons. by left. }
  rewrite fmap_app, fmap_cons, decide_True by done.
  by rewrite !replace_sig_notin.
Qed.

Lemma spec_append hs sig f :
  sig ∉ sigNum <$> hs → spec_SetHandler sig (Some f) hs = hs ++ [mkHandlerObj sig (Some f)].
Proof. intros H. simpl. by rewrite decide_False. Qed.

Lemma spec_remove_absent hs sig :
  sig ∉ sigNum <$> hs → spec_SetHandler sig None hs = hs.
Proof. apply filter_sig_notin. Qed.

Lemma NoDup_pointers_split pool (l1 l2 : list positive) q hs :
  linked pool (l1 ++ q :: l2) hs → NoDup (sigNum <$> hs) → (q ∉ l1) ∧ (q ∉ l2).
Proof.
  intros Hl Hnd. pose proof (linked_NoDup _ _ _ Hl Hnd) as H.
  apply NoDup_app in H as (_ & H2 & H3). apply NoDup_cons in H3 as [H3 _].
  split; [|done]. intros Hin. apply (H2 _ Hin). apply elem_of_cons. by left.
Qed.

(** ** One call of SetEventHandler on an existing monitor object *)

(** The three ways [set_in_monitor] changes the list keep it in order,
    and the entries become what the specification says. *)
Lemma list_ok_append st m hs sig f p :
  list_ok st m hs → not_allowed sig = false → (sig ∉ sigNum <$> hs) →
  let q := le_mem_ForceAlloc (HandlerObjPool st) in
  let m1 := mkMonitorObj (monitorRef m) (fd m) (handlerObjList m ++ [q]) in
  list_ok (set_MonitorObjPool <[p := m1]>
             (set_HandlerObjPool <[q := mkHandlerObj sig (Some f)]> st))
          m1 (spec_SetHandler sig (Some f) hs).
Proof.
  intros [Hl Hnd He] Hsig Hnew q m1. rewrite (spec_append _ _ _ Hnew).
  assert (HandlerObjPool st !! q = None) as Hq.
  { apply not_elem_of_dom. apply is_fresh. }
  split; simpl.
  - apply linked_app; [by apply linked_insert_fresh|].
    constructor; [by rewrite lookup_insert_eq | constructor].
  - rewrite fmap_app. apply NoDup_app. split_and!; [done| |apply NoDup_singleton].
    intros x Hx Hx'. apply list_elem_of_singleton in Hx'. simpl in Hx'. by subst.
  - apply Forall_app. split; [done|]. constructor; [|done]. simpl. eauto.
Qed.

Lemma list_ok_remove st m l1 l2 q hs1 h hs2 p :
  list_ok st m (hs1 ++ h :: hs2) → handlerObjList m = l1 ++ q :: l2 →
  linked (HandlerObjPool st) l1 hs1 → linked (HandlerObjPool st) l2 hs2 →
  let m1 := mkMonitorObj (monitorRef m) (fd m) (filter (λ x, x ≠ q) (handlerObjList m)) in
  list_ok (set_MonitorObjPool <[p := m1]> st) m1
          (spec_SetHandler (sigNum h) None (hs1 ++ h :: hs2)).
Proof.
  intros [Hl Hnd He] Hm H1 H2 m1. rewrite (spec_remove_split _ _ _ Hnd).
  rewrite Hm in Hl. destruct (NoDup_pointers_split _ _ _ _ _ Hl Hnd) as [Hq1 Hq2].
  split; simpl.
  - rewrite Hm, filter_app, filter_cons_False by (intros ?; done).
    rewrite !filter_ne_notin by done. by apply linked_app.
  - by apply NoDup_split_sig in Hnd as (_ & _ & ?).
  - apply Forall_app in He as [He1 He2]. apply Forall_cons in He2 as [_ He2].
    apply Forall_app. done.
Qed.

Lemma list_ok_replace st m l1 l2 q hs1 h hs2 f :
  list_ok st m (hs1 ++ h :: hs2) → handlerObjList m = l1 ++ q :: l2 →
  linked (HandlerObjPool st) l1 hs1 → linked (HandlerObjPool st) l2 hs2 →
  HandlerObjPool st !! q = Some h →
  list_ok (set_HandlerObjPool (alter (λ h, mkHandlerObj (sigNum h) (Some f)) q) st) m
          (spec_SetHandler (sigNum h) (Some f) (hs1 ++ h :: hs2)).
Proof.
  intros [Hl Hnd He] Hm H1 H2 Hq. rewrite (spec_replace_split _ _ _ _ Hnd).
  rewrite Hm in Hl. destruct (NoDup_pointers_split _ _ _ _ _ Hl Hnd) as [Hq1 Hq2].
  split; simpl.
  - rewrite Hm. apply linked_app; [by apply linked_alter_other|].
    constructor; [|by apply linked_alter_other].
    by rewrite lookup_alter_eq, Hq.
  - by rewrite !fmap_app, !fmap_cons in *.
  - apply Forall_app in He as [He1 He2]. apply Forall_cons in He2 as [[_ Hh] He2].
    apply Forall_app. split; [done|]. constructor; [|done]. simpl. eauto.
Qed.

Lemma wired_transfer st self m mask st' m' :
  wired st self m mask → fdtable st' = fdtable st → fdMonitors st' = fdMonitors st →
  threadName st' = threadName st → fd m' = fd m → monitorRef m' = monitorRef m →
  wired st' self m' mask.
Proof.
  intros [H1 H2 H3] Ht Hm Hn Hf Hr. unfold monitorName in *.
  split; unfold monitorName; rewrite ?Hf, ?Ht, ?Hm, ?Hr, ?Hn; done.
Qed.

(** [set_in_monitor] on a monitor object whose list is in order and that
    is either new (no descriptor, no registration) or wired. *)
Lemma set_in_monitor_ok self sig h p m st hs o st' :
  SigMonKey st !! self = Some p → MonitorObjPool st !! p = Some m → list_ok st m hs →
  (fd m = -1 ∧ monitorRef m = None) ∨ (∃ mask0, wired st self m mask0) →
  not_allowed sig = false →
  set_in_monitor self sig h p st = (o, st') →
  o ≠ Undefined ∧ SigMonKey st' = SigMonKey st ∧ sigmask st' = sigmask st ∧
  ∃ m', MonitorObjPool st' !! p = Some m' ∧ list_ok st' m' (spec_SetHandler sig h hs) ∧
        (o = Returned →
         (st' = st ∧ h = None ∧ spec_SetHandler sig h hs = hs) ∨
         (ctx_ok st' self p m' (spec_SetHandler sig h hs) ∧
          ((∃ mask0, wired st self m mask0) →
           fd m' = fd m ∧ monitorRef m' = monitorRef m ∧ fdMonitors st' = fdMonitors st))).
Proof.
  intros Hkey Hobj Hlist Hfd Hsig. unfold set_in_monitor. rewrite Hobj.
  pose proof (find_linked sig _ _ _ (lo_linked _ _ _ Hlist)) as Hfind.
  destruct (FindHandlerObj sig (HandlerObjPool st) (handlerObjList m)) as [q| |]; [| |done].
  - (* an object for the signal exists *)
    destruct Hfind as (l1 & l2 & hs1 & h0 & hs2 & Hm & -> & H1 & H2 & Hq & <- & _).
    destruct h as [f|].
    + (* "Just update the handler." *)
      set (st1 := set_HandlerObjPool _ st). intros Hupd.
      pose proof (list_ok_replace _ _ _ _ _ _ _ _ f Hlist Hm H1 H2 Hq) as Hlist1.
      fold st1 in Hlist1.
      assert ((fd m = -1 ∧ monitorRef m = None) ∨ (∃ mask0, wired st1 self m mask0)) as Hfd1.
      { destruct Hfd as [?|[mask0 Hw]]; [by left|right]. exists mask0.
        by eapply wired_transfer. }
      destruct (update_fd_ok self p m st1 _ _ _ Hkey Hobj Hlist1 Hfd1 Hupd) as [Hne Hret].
      destruct (update_fd_frame _ _ _ _ _ _ Hupd) as (_ & _ & Hk & Hp & Hs & _).
      destruct (update_fd_list self p m st1 _ _ Hobj Hupd) as (m' & Hm' & Hl').
      split_and!; [done | done | done |].
      exists m'. split_and!; [done | by eapply list_ok_transfer |].
      intros ->. right. destruct (Hret eq_refl) as (m'' & Hctx & _ & Hsame).
      pose proof (ok_obj _ _ _ _ _ Hctx) as Hobj''. rewrite Hm' in Hobj''. simplify_eq.
      split; [done|]. intros [mask0 Hw]. apply Hsame. exists mask0. by eapply wired_transfer.
    + (* "Remove the handler object from the list." *)
      set (m1 := mkMonitorObj _ _ _). set (st1 := set_MonitorObjPool _ st). intros Hupd.
      pose proof (list_ok_remove _ _ _ _ _ _ _ _ p Hlist Hm H1 H2) as Hlist1.
      fold m1 st1 in Hlist1.
      assert (MonitorObjPool st1 !! p = Some m1) as Hobj1 by (simpl; by rewrite lookup_insert_eq).
      assert ((fd m1 = -1 ∧ monitorRef m1 = None) ∨ (∃ mask0, wired st1 self m1 mask0)) as Hfd1.
      { destruct Hfd as [?|[mask0 Hw]]; [by left|right]. exists mask0.
        by eapply wired_transfer. }
      destruct (update_fd_ok self p m1 st1 _ _ _ Hkey Hobj1 Hlist1 Hfd1 Hupd) as [Hne Hret].
      destruct (update_fd_frame _ _ _ _ _ _ Hupd) as (_ & _ & Hk & Hp & Hs & _).
      destruct (update_fd_list self p m1 st1 _ _ Hobj1 Hupd) as (m' & Hm' & Hl').
      split_and!; [done | done | done |].
      exists m'. split_and!; [done | by eapply list_ok_transfer |].
      intros ->. right. destruct (Hret eq_refl) as (m'' & Hctx & _ & Hsame).
      pose proof (ok_obj _ _ _ _ _ Hctx) as Hobj''. rewrite Hm' in Hobj''. simplify_eq.
      split; [done|]. intros [mask0 Hw]. apply Hsame. exists mask0. by eapply wired_transfer.
  - (* no object for the signal *)
    destruct h as [f|].
    + (* "Create the handler object." *)
      set (q := le_mem_ForceAlloc _). set (m1 := mkMonitorObj _ _ _).
      set (st1 := set_MonitorObjPool _ _). intros Hupd.
      pose proof (list_ok_append _ _ _ _ f p Hlist Hsig Hfind) as Hlist1.
      simpl in Hlist1. fold q m1 st1 in Hlist1.
      assert (MonitorObjPool st1 !! p = Some m1) as Hobj1 by (simpl; by rewrite lookup_insert_eq).
      assert ((fd m1 = -1 ∧ monitorRef m1 = None) ∨ (∃ mask0, wired st1 self m1 mask0)) as Hfd1.
      { destruct Hfd as [?|[mask0 Hw]]; [by left|right]. exists mask0.
        by eapply wired_transfer. }
      destruct (update_fd_ok self p m1 st1 _ _ _ Hkey Hobj1 Hlist1 Hfd1 Hupd) as [Hne Hret].
      destruct (update_fd_frame _ _ _ _ _ _ Hupd) as (_ & _ & Hk & Hp & Hs & _).
      destruct (update_fd_list self p m1 st1 _ _ Hobj1 Hupd) as (m' & Hm' & Hl').
      split_and!; [done | done | done |].
      exists m'. split_and!; [done | by eapply list_ok_transfer |].
      intros ->. right. destruct (Hret eq_refl) as (m'' & Hctx & _ & Hsame).
      pose proof (ok_obj _ _ _ _ _ Hctx) as Hobj''. rewrite Hm' in Hobj''. simplify_eq.
      split; [done|]. intros [mask0 Hw]. apply Hsame. exists mask0. by eapply wired_transfer.
    + (* nothing to remove *)
      intros ?; simplify_eq. rewrite (spec_remove_absent _ _ Hfind).
      split_and!; [done | done | done |]. exists m. split_and!; [done | done |].
      intros _. by left.
Qed.

(** ** One call, and sequences of calls *)

Lemma linked_omap pool l hs :
  linked pool l hs → omap (λ q, pool !! q) l = hs.
Proof.
  induction 1 as [|q h l hs Hq _ IH]; simpl; [done|].
  rewrite Hq. simpl. by f_equal.
Qed.

Lemma ctx_ok_view st self p m hs :
  ctx_ok st self p m hs →
  context st self = Some m ∧ entries st self = hs ∧
  handled st self = list_to_set (sigNum <$> hs).
Proof.
  intros [Hkey Hobj [Hl Hnd He] _ _].
  assert (context st self = Some m) as Hc by (unfold context; by rewrite Hkey).
  assert (entries st self = hs) as Hes by (unfold entries; rewrite Hc; by apply linked_omap).
  split_and!; [done | done |]. unfold handled. rewrite Hes. do 2 f_equal.
  clear -He. induction He as [|h hs [Hh _] _ IH]; [done|].
  rewrite filter_cons_True by done. by f_equal.
Qed.

Lemma no_key_view st self :
  SigMonKey st !! self = None →
  context st self = None ∧ entries st self = [] ∧ handled st self = ∅.
Proof.
  intros Hk. assert (context st self = None) as Hc by (unfold context; by rewrite Hk).
  unfold handled, entries. rewrite Hc. done.
Qed.

(** A call on a thread that has a well-formed context. *)
Lemma SetEventHandler_ctx self sig h st p m hs o st' :
  ctx_ok st self p m hs →
  le_sig_SetEventHandler self sig h st = (o, st') →
  o ≠ Undefined ∧ SigMonKey st' !! self = Some p ∧ sigmask st' = sigmask st ∧
  ∃ m' hs', MonitorObjPool st' !! p = Some m' ∧ list_ok st' m' hs' ∧
        (o = Returned →
         not_allowed sig = false ∧ hs' = spec_SetHandler sig h hs ∧
         ctx_ok st' self p m' hs' ∧
         fd m' = fd m ∧ monitorRef m' = monitorRef m ∧ fdMonitors st' = fdMonitors st).
Proof.
  intros Hctx. unfold le_sig_SetEventHandler.
  destruct (not_allowed sig) eqn:Hsig.
  { intros ?; simplify_eq. pose proof (ok_key _ _ _ _ _ Hctx). pose proof (ok_obj _ _ _ _ _ Hctx).
    split_and!; [done | done | done |]. exists m, hs.
    split_and!; [done | apply (ok_list _ _ _ _ _ Hctx) | done]. }
  rewrite (ok_key _ _ _ _ _ Hctx). intros Hset.
  assert ((fd m = -1 ∧ monitorRef m = None) ∨ (∃ mask0, wired st self m mask0)) as Hfd.
  { right. eexists. apply (ok_wired _ _ _ _ _ Hctx). }
  destruct (set_in_monitor_ok _ _ _ _ _ _ _ _ _ (ok_key _ _ _ _ _ Hctx) (ok_obj _ _ _ _ _ Hctx)
              (ok_list _ _ _ _ _ Hctx) Hfd Hsig Hset)
    as (Hne & Hk & Hs & m' & Hm' & Hlist' & Hret).
  split_and!; [done | by rewrite Hk; apply (ok_key _ _ _ _ _ Hctx) | done |].
  exists m', (spec_SetHandler sig h hs). split_and!; [done | done |]. intros ->.
  destruct (Hret eq_refl) as [(-> & _ & Heq) | [Hctx' Hsame]].
  - rewrite Heq. rewrite (ok_obj _ _ _ _ _ Hctx) in Hm'. simplify_eq.
    split_and!; done.
  - destruct Hsame as (? & ? & ?); [eexists; apply (ok_wired _ _ _ _ _ Hctx)|].
    split_and!; done.
Qed.

(** A call on a thread whose key is still NULL. *)
Lemma SetEventHandler_first self sig h st o st' :
  SigMonKey st !! self = None →
  le_sig_SetEventHandler self sig h st = (o, st') →
  o ≠ Undefined ∧ sigmask st' = sigmask st ∧
  match h with
  | None => st' = st
  | Some f =>
      not_allowed sig = true ∧ st' = st ∨
      ∃ p m', SigMonKey st' !! self = Some p ∧ MonitorObjPool st' !! p = Some m' ∧
              list_ok st' m' [mkHandlerObj sig (Some f)] ∧
              (o = Returned → ctx_ok st' self p m' [mkHandlerObj sig (Some f)])
  end.
Proof.
  intros Hnone. unfold le_sig_SetEventHandler.
  destruct (not_allowed sig) eqn:Hsig.
  { intros ?; simplify_eq. split_and!; [done | done |]. destruct h; [by left | done]. }
  rewrite Hnone. destruct h as [f|]; [|intros ?; by simplify_eq].
  set (p := le_mem_ForceAlloc _). set (m0 := mkMonitorObj None (-1) []).
  set (st1 := set_SigMonKey _ _). intros Hset.
  assert (SigMonKey st1 !! self = Some p) as Hkey by (simpl; by rewrite lookup_insert_eq).
  assert (MonitorObjPool st1 !! p = Some m0) as Hobj by (simpl; by rewrite lookup_insert_eq).
  assert (list_ok st1 m0 []) as Hlist by (split; simpl; constructor).
  assert ((fd m0 = -1 ∧ monitorRef m0 = None) ∨ (∃ mask0, wired st1 self m0 mask0)) as Hfd
    by (by left).
  destruct (set_in_monitor_ok self sig (Some f) p m0 st1 [] o st' Hkey Hobj Hlist Hfd Hsig Hset)
    as (Hne & Hk & Hs & m' & Hm' & Hlist' & Hret).
  rewrite spec_append in Hlist', Hret by apply not_elem_of_nil.
  split_and!; [done | done |]. right. exists p, m'.
  split_and!; [by rewrite Hk | done | done |].
  intros ->. by destruct (Hret eq_refl) as [(_ & ? & _) | [? _]].
Qed.

(** The invariant is kept by every call that returns, and the blocked
    signals of the thread are not touched. *)
Lemma SetEventHandler_inv self sig h st st' :
  sig_inv st self → le_sig_SetEventHandler self sig h st = (Returned, st') →
  sig_inv st' self ∧ sigmask st' = sigmask st.
Proof.
  intros [Hnone | (p & m & hs & Hctx)] Hcall.
  - destruct (SetEventHandler_first _ _ _ _ _ _ Hnone Hcall) as (_ & Hs & Hh).
    split; [|done]. destruct h as [f|]; [|subst; by left].
    destruct Hh as [[_ ->] | (p & m' & _ & _ & _ & Hctx)]; [by left|].
    right. exists p, m', [mkHandlerObj sig (Some f)]. by apply Hctx.
  - destruct (SetEventHandler_ctx _ _ _ _ _ _ _ _ _ Hctx Hcall)
      as (_ & _ & Hs & m' & hs' & _ & _ & Hret).
    split; [|done]. right. exists p, m', hs'. by apply Hret.
Qed.

Lemma SetEventHandlers_inv self calls st st' :
  sig_inv st self → SetEventHandlers self calls st = (Returned, st') →
  sig_inv st' self ∧ sigmask st' = sigmask st.
Proof.
  revert st. induction calls as [|[sig h] calls IH]; intros st Hinv; simpl.
  - intros ?; by simplify_eq.
  - destruct (le_sig_SetEventHandler self sig h st) as [o st1] eqn:Hcall.
    destruct o; try (intros ?; by simplify_eq). intros Hrest.
    destruct (SetEventHandler_inv _ _ _ _ _ Hinv Hcall) as [Hinv1 Hs1].
    destruct (IH _ Hinv1 Hrest) as [? Hs]. split; [done | congruence].
Qed.

Lemma list_ok_entries st self p m hs :
  SigMonKey st !! self = Some p → MonitorObjPool st !! p = Some m → list_ok st m hs →
  entries st self = hs ∧ NoDup (sigNum <$> hs).
Proof.
  intros Hk Ho [Hl Hnd _]. split; [|done].
  unfold entries, context. rewrite Hk. simpl. rewrite Ho. by apply linked_omap.
Qed.

Lemma sig_inv_NoDup st self : sig_inv st self → NoDup (sigNum <$> entries st self).
Proof.
  intros [Hnone | (p & m & hs & Hctx)].
  - destruct (no_key_view _ _ Hnone) as (_ & -> & _). constructor.
  - destruct (ctx_ok_view _ _ _ _ _ Hctx) as (_ & -> & _).
    apply (lo_nodup _ _ _ (ok_list _ _ _ _ _ Hctx)).
Qed.

(** Whatever way a sequence of calls ends, no released block was used
    and the list has one entry per signal. *)
Lemma SetEventHandlers_list self calls st o st' :
  sig_inv st self → SetEventHandlers self calls st = (o, st') →
  o ≠ Undefined ∧ NoDup (sigNum <$> entries st' self).
Proof.
  revert st. induction calls as [|[sig h] calls IH]; intros st Hinv; simpl.
  - intros ?; simplify_eq. split; [done | by apply sig_inv_NoDup].
  - destruct (le_sig_SetEventHandler self sig h st) as [o1 st1] eqn:Hcall.
    assert (o1 = Returned ∨ (o1 ≠ Returned ∧ o1 ≠ Undefined ∧
                              NoDup (sigNum <$> entries st1 self))) as [-> | (Hne & Hu & Hnd)].
    { destruct Hinv as [Hnone | (p & m & hs & Hctx)].
      - destruct (SetEventHandler_first _ _ _ _ _ _ Hnone Hcall) as (Hu & _ & Hh).
        destruct o1; [by left | right.. | done]; (split_and!; [done | done |]);
          (destruct h as [f|]; [|subst; by apply sig_inv_NoDup; left]);
          (destruct Hh as [[_ ->] | (p & m' & Hk & Hm' & Hl & _)];
           [by apply sig_inv_NoDup; left|]);
          by destruct (list_ok_entries _ _ _ _ _ Hk Hm' Hl) as [-> ?].
      - destruct (SetEventHandler_ctx _ _ _ _ _ _ _ _ _ Hctx Hcall)
          as (Hu & Hk & _ & m' & hs' & Hm' & Hl & _).
        destruct (list_ok_entries _ _ _ _ _ Hk Hm' Hl) as [-> ?].
        destruct o1; [by left | by right.. | done]. }
    + intros Hrest. eapply IH; [|exact Hrest].
      by destruct (SetEventHandler_inv _ _ _ _ _ Hinv Hcall).
    + destruct o1; try done; intros ?; by simplify_eq.
Qed.

(** Re-registering or clearing the handler of a signal that has an entry
    always returns. *)
Lemma SetEventHandler_present_returns self sig h st p m hs :
  ctx_ok st self p m hs → sig ∈ sigNum <$> hs →
  ∃ st', le_sig_SetEventHandler self sig h st = (Returned, st') ∧
         (is_Some h → dom (HandlerObjPool st') = dom (HandlerObjPool st)).
Proof.
  intros Hctx Hin. destruct Hctx as [Hkey Hobj Hlist Hsigs Hw].
  unfold le_sig_SetEventHandler.
  assert (not_allowed sig = false) as ->.
  { apply list_elem_of_fmap in Hin as (h0 & -> & Hh0).
    pose proof (lo_entries _ _ _ Hlist) as He. rewrite Forall_forall in He.
    by destruct (He _ Hh0). }
  rewrite Hkey. unfold set_in_monitor. rewrite Hobj.
  pose proof (find_linked sig _ _ _ (lo_linked _ _ _ Hlist)) as Hfind.
  destruct (FindHandlerObj sig (HandlerObjPool st) (handlerObjList m)) as [q| |]; [|done|done].
  destruct Hfind as (l1 & l2 & hs1 & h0 & hs2 & Hm & -> & H1 & H2 & Hq & <- & _).
  pose proof (lo_nodup _ _ _ Hlist) as Hnd.
  apply Forall_app in Hsigs as [Hs1 Hs2]. apply Forall_cons in Hs2 as [Hs0 Hs2].
  destruct h as [f|].
  - set (st1 := set_HandlerObjPool _ st).
    pose proof (list_ok_replace _ _ _ _ _ _ _ _ f Hlist Hm H1 H2 Hq) as Hlist1.
    fold st1 in Hlist1. rewrite (spec_replace_split _ _ _ _ Hnd) in Hlist1.
    destruct (update_fd_returns self p m st1 _ (list_to_set (sigNum <$> hs1 ++ h0 :: hs2)) Hlist1)
      as [st' Hupd].
    { apply Forall_app. split; [done|]. by constructor. }
    { by eapply wired_transfer. }
    exists st'. split; [done|]. intros _.
    destruct (update_fd_frame _ _ _ _ _ _ Hupd) as (_ & _ & _ & -> & _).
    simpl. apply dom_alter_L.
  - set (m1 := mkMonitorObj _ _ _). set (st1 := set_MonitorObjPool _ st).
    pose proof (list_ok_remove _ _ _ _ _ _ _ _ p Hlist Hm H1 H2) as Hlist1.
    fold m1 st1 in Hlist1. rewrite (spec_remove_split _ _ _ Hnd) in Hlist1.
    destruct (update_fd_returns self p m1 st1 _ (list_to_set (sigNum <$> hs1 ++ h0 :: hs2)) Hlist1)
      as [st' Hupd].
    { apply Forall_app. done. }
    { by eapply wired_transfer. }
    exists st'. split; [done|]. by intros [? ?].
Qed.

(** ** Teardown *)

Lemma close_loop_open fd intr st mask :
  fdtable st !! fd = Some (SignalFd mask) →
  close_loop fd intr st = (Returned, set_fdtable (delete fd) st).
Proof. intros Hfd. destruct intr; simpl; unfold close; by rewrite Hfd. Qed.

Lemma close_loop_closed fd intr st :
  fdtable st !! fd = None →
  close_loop fd intr st = (Fatal (Msg "Could not close file descriptor." []), st).
Proof. intros H. destruct intr; simpl; unfold close; by rewrite H. Qed.

(** An attempt that is interrupted has closed the descriptor, and the
    next attempt fails on it. *)
Lemma close_loop_interrupted fd intr st :
  fdtable st !! fd = Some OtherFd →
  close_loop fd (true :: intr) st
  = (Fatal (Msg "Could not close file descriptor." []), set_fdtable (delete fd) st).
Proof.
  intros H. cbn [close_loop]. unfold close. rewrite H. simpl.
  apply close_loop_closed. simpl. apply lookup_delete_eq.
Qed.

(** [le_sig_DeleteAll] on a well-formed context. *)
Lemma DeleteAll_ctx self intr st p m hs :
  ctx_ok st self p m hs →
  le_sig_DeleteAll self intr st =
    (Returned,
     set_MonitorObjPool (delete p)
       (release_handlers (handlerObjList m)
          (set_fdtable (delete (fd m)) (le_fdMonitor_Delete (monitorRef m) st)))).
Proof.
  intros [Hkey Hobj _ _ [_ Hopen _]]. unfold le_sig_DeleteAll. rewrite Hkey, Hobj.
  erewrite close_loop_open; [done|].
  unfold le_fdMonitor_Delete. destruct (monitorRef m); exact Hopen.
Qed.

(** Without a context [le_sig_DeleteAll] does nothing. *)
Lemma DeleteAll_no_context self intr st :
  SigMonKey st !! self = None → le_sig_DeleteAll self intr st = (Returned, st).
Proof. intros H. unfold le_sig_DeleteAll. by rewrite H. Qed.

(** It leaves the key untouched: after it the key points to a released
    block, and a second call reads that block. *)
Lemma DeleteAll_twice self intr intr' st p m hs st1 :
  ctx_ok st self p m hs →
  le_sig_DeleteAll self intr st = (Returned, st1) →
  SigMonKey st1 !! self = Some p ∧ MonitorObjPool st1 !! p = None ∧
  le_sig_DeleteAll self intr' st1 = (Undefined, st1).
Proof.
  intros Hctx. rewrite (DeleteAll_ctx _ _ _ _ _ _ Hctx). intros ?; simplify_eq.
  assert (SigMonKey (set_MonitorObjPool (delete p)
            (release_handlers (handlerObjList m)
               (set_fdtable (delete (fd m)) (le_fdMonitor_Delete (monitorRef m) st)))) !! self
          = Some p) as Hk.
  { unfold le_fdMonitor_Delete. destruct (monitorRef m); simpl; apply (ok_key _ _ _ _ _ Hctx). }
  split_and!; [done | simpl; apply lookup_delete_eq |].
  unfold le_sig_DeleteAll. rewrite Hk. simpl. by rewrite lookup_delete_eq.
Qed.

(** * The claims about the handler registry *)

(** C1, as amended.  A sequence of SetEventHandler calls made by a thread
    that starts without context, all of which return, leaves the set of
    signals blocked in the thread exactly as it found it (the function
    never changes the thread's mask; that is le_sig_Block's job), and
    what equals the set of signals with a non-empty handler entry is the
    mask of the context's signalfd descriptor. *)
Theorem SetEventHandler_sequence_signalfd_mask self calls st0 st :
  SigMonKey st0 !! self = None →
  SetEventHandlers self calls st0 = (Returned, st) →
  blocked st self = blocked st0 self ∧
  ((SigMonKey st !! self = None ∧ handled st self = ∅) ∨
   (∃ m, context st self = Some m ∧
         fdtable st !! fd m = Some (SignalFd (handled st self)))).
Proof.
  intros Hnone Hrun.
  destruct (SetEventHandlers_inv self calls st0 st (or_introl Hnone) Hrun) as [Hinv Hs].
  split; [unfold blocked; by rewrite Hs|].
  destruct Hinv as [Hn | (p & m & hs & Hctx)].
  - left. split; [done|]. by destruct (no_key_view _ _ Hn) as (_ & _ & ?).
  - right. exists m. destruct (ctx_ok_view _ _ _ _ _ Hctx) as (Hc & _ & ->).
    split; [done|]. apply (wi_open _ _ _ _ (ok_wired _ _ _ _ _ Hctx)).
Qed.

Lemma SetEventHandler_sequence_signalfd_mask_witness :
  let st := snd (SetEventHandlers 100 [(SIGTERM, Some (UserFunc 1)); (SIGUSR1, Some (UserFunc 2));
                                       (SIGTERM, None)] boot) in
  blocked st 100 = blocked boot 100 ∧
  ((SigMonKey st !! 100 = None ∧ handled st 100 = ∅) ∨
   (∃ m, context st 100 = Some m ∧
         fdtable st !! fd m = Some (SignalFd (handled st 100)))).
Proof.
  apply (SetEventHandler_sequence_signalfd_mask 100
           [(SIGTERM, Some (UserFunc 1)); (SIGUSR1, Some (UserFunc 2)); (SIGTERM, None)] boot).
  - reflexivity.
  - vm_compute. reflexivity.
Defined.

(** C1 as the specification has it fails: after one registration on the
    main thread of a fresh process the handler set is {SIGUSR1} while no
    signal is blocked in the thread. *)
Lemma blocked_mask_is_not_the_handler_set :
  let r := SetEventHandlers 100 [(SIGUSR1, Some (UserFunc 1))] boot in
  fst r = Returned ∧ handled (snd r) 100 = {[SIGUSR1]} ∧ blocked (snd r) 100 = ∅ ∧
  blocked (snd r) 100 ≠ handled (snd r) 100.
Proof.
  assert (handled (snd (SetEventHandlers 100 [(SIGUSR1, Some (UserFunc 1))] boot)) 100
          = {[SIGUSR1]}) as Hh by (vm_compute; reflexivity).
  assert (blocked (snd (SetEventHandlers 100 [(SIGUSR1, Some (UserFunc 1))] boot)) 100
          = ∅) as Hb by (vm_compute; reflexivity).
  cbv zeta. split_and!; [vm_compute; reflexivity | exact Hh | exact Hb |].
  rewrite Hh, Hb. set_solver.
Qed.

(** The module's own use of the registry shows the division of labour:
    the default termination handler is installed by blocking SIGTERM
    with le_sig_Block first and registering afterwards, and only then do
    the blocked signals and the handled signals agree. *)
Lemma InstallDefaultTermHandler_blocks_then_registers :
  let r := le_sig_InstallDefaultTermHandler 100 boot in
  fst r = Returned ∧ blocked (snd r) 100 = {[SIGTERM]} ∧ handled (snd r) 100 = {[SIGTERM]}.
Proof. cbv zeta. split_and!; vm_compute; reflexivity. Qed.

(** C2.  For each signal of the reserved set and any callback, empty or
    not, SetEventHandler ends in LE_FATAL with the message that is
    formatted with strsignal of that signal, and the state of the process
    at that point is the state before the call. *)
Theorem SetEventHandler_reserved_is_fatal self sig callback st :
  sig ∈ reserved_set →
  le_sig_SetEventHandler self sig callback st
  = (Fatal (Msg "Signal event handler for %s is not allowed." [AStrsignal sig]), st).
Proof.
  intros Hin. unfold le_sig_SetEventHandler.
  assert (not_allowed sig = true) as ->; [|done].
  unfold reserved_set, FatalSignalSet in Hin. simpl in Hin.
  repeat (apply elem_of_cons in Hin as [-> | Hin]; [reflexivity|]).
  by apply elem_of_nil in Hin.
Qed.

Lemma SetEventHandler_reserved_is_fatal_witness :
  le_sig_SetEventHandler 100 SIGKILL (Some (UserFunc 1)) boot
  = (Fatal (Msg "Signal event handler for %s is not allowed." [AStrsignal SIGKILL]), boot).
Proof.
  apply (SetEventHandler_reserved_is_fatal 100 SIGKILL (Some (UserFunc 1)) boot).
  unfold reserved_set. apply elem_of_cons. by left.
Defined.

(** C9, as amended.  Clearing the handler of a signal that passes the
    parameter check and has no entry on the calling thread returns and
    leaves the whole process state as it was, whether the thread has no
    context (none is created) or has one (its list, descriptor,
    descriptor mask and registration stay as they are, the blocked
    signals too). *)
Theorem SetEventHandler_clear_absent_is_noop self sig st :
  not_allowed sig = false →
  SigMonKey st !! self = None ∨
  (∃ m, context st self = Some m ∧
        linked (HandlerObjPool st) (handlerObjList m) (entries st self) ∧
        sig ∉ sigNum <$> entries st self) →
  le_sig_SetEventHandler self sig None st = (Returned, st).
Proof.
  intros Hsig Hctx. unfold le_sig_SetEventHandler. rewrite Hsig.
  destruct Hctx as [-> | (m & Hc & Hl & Habs)]; [done|].
  unfold context in Hc. destruct (SigMonKey st !! self) as [p|]; [|done].
  simpl in Hc. unfold set_in_monitor. rewrite Hc.
  pose proof (find_linked sig _ _ _ Hl) as Hfind.
  destruct (FindHandlerObj sig (HandlerObjPool st) (handlerObjList m)) as [q| |]; [|done|done].
  destruct Hfind as (l1 & l2 & hs1 & h0 & hs2 & _ & Heq & _ & _ & _ & <- & _).
  exfalso. apply Habs. rewrite Heq, fmap_app, fmap_cons. apply elem_of_app. right.
  apply elem_of_cons. by left.
Qed.

Lemma SetEventHandler_clear_absent_is_noop_witness :
  let st := snd (SetEventHandlers 100 [(SIGTERM, Some (UserFunc 1))] boot) in
  le_sig_SetEventHandler 100 SIGUSR1 None st = (Returned, st).
Proof.
  apply (SetEventHandler_clear_absent_is_noop 100 SIGUSR1).
  - reflexivity.
  - right. exists (mkMonitorObj (Some 1%positive) 3 [1%positive]).
    replace (entries _ 100) with [mkHandlerObj SIGTERM (Some (UserFunc 1))]
      by (vm_compute; reflexivity).
    split_and!.
    + vm_compute. reflexivity.
    + constructor; [vm_compute; reflexivity | constructor].
    + intros H. apply list_elem_of_singleton in H. discriminate H.
Defined.

(** C9 as stated fails for the signals the parameter check rejects:
    SIGSYS has no entry on the main thread of a fresh process, yet
    clearing its handler does not return. *)
Lemma clearing_SIGSYS_does_not_return :
  (SIGSYS ∉ sigNum <$> entries boot 100) ∧
  le_sig_SetEventHandler 100 SIGSYS None boot
  = (Fatal (Msg "Signal event handler for %s is not allowed." [AStrsignal SIGSYS]), boot).
Proof.
  split; [|reflexivity].
  replace (sigNum <$> entries boot 100) with (@nil Z) by (vm_compute; reflexivity).
  apply not_elem_of_nil.
Qed.

(** C10.  However a sequence of SetEventHandler calls of a thread ends,
    the thread's list has at most one entry per signal; and after a
    sequence that returned, registering a handler for a signal that has
    an entry returns with the same list of objects and the same blocks in
    use in the pool, the entries being those of before, in their places,
    except that the entry of the signal holds the new callback. *)
Theorem one_entry_per_signal_updated_in_place self calls st0 o st :
  SigMonKey st0 !! self = None →
  SetEventHandlers self calls st0 = (o, st) →
  NoDup (sigNum <$> entries st self) ∧
  (o = Returned → ∀ sig f, sig ∈ sigNum <$> entries st self →
     ∃ st', le_sig_SetEventHandler self sig (Some f) st = (Returned, st') ∧
            handlerObjList <$> context st' self = handlerObjList <$> context st self ∧
            dom (HandlerObjPool st') = dom (HandlerObjPool st) ∧
            entries st' self
            = (λ e, if decide (sigNum e = sig) then mkHandlerObj sig (Some f) else e)
                <$> entries st self).
Proof.
  intros Hnone Hrun.
  split; [by destruct (SetEventHandlers_list self calls st0 o st (or_introl Hnone) Hrun)|].
  intros -> sig f Hin.
  destruct (SetEventHandlers_inv self calls st0 st (or_introl Hnone) Hrun) as [Hinv _].
  destruct Hinv as [Hn | (p & m & hs & Hctx)].
  { destruct (no_key_view _ _ Hn) as (_ & Hes & _). rewrite Hes in Hin.
    by apply elem_of_nil in Hin. }
  destruct (ctx_ok_view _ _ _ _ _ Hctx) as (Hc & Hes & _). rewrite Hes in Hin |- *.
  destruct (SetEventHandler_present_returns self sig (Some f) st p m hs Hctx Hin)
    as (st' & Hcall & Hdom).
  exists st'. split; [done|].
  destruct (SetEventHandler_ctx _ _ _ _ _ _ _ _ _ Hctx Hcall)
    as (_ & _ & _ & m' & hs' & _ & _ & Hret).
  destruct (Hret eq_refl) as (_ & -> & Hctx' & _).
  destruct (ctx_ok_view _ _ _ _ _ Hctx') as (Hc' & Hes' & _).
  rewrite Hc, Hc', Hes'. simpl. split_and!; [|by apply Hdom|by rewrite decide_True].
  f_equal.
  (* the list of the new object is the list of the old one *)
  pose proof (lo_linked _ _ _ (ok_list _ _ _ _ _ Hctx')) as Hl'.
  revert Hcall Hc'. unfold le_sig_SetEventHandler, set_in_monitor, context.
  destruct (not_allowed sig); [done|].
  rewrite (ok_key _ _ _ _ _ Hctx), (ok_obj _ _ _ _ _ Hctx).
  pose proof (find_linked sig _ _ _ (lo_linked _ _ _ (ok_list _ _ _ _ _ Hctx))) as Hfind.
  destruct (FindHandlerObj sig (HandlerObjPool st) (handlerObjList m)) as [q| |]; [| |done].
  - intros Hupd Hc'.
    destruct (update_fd_list self p m (set_HandlerObjPool _ st) _ _ (ok_obj _ _ _ _ _ Hctx) Hupd)
      as (m'' & Hm'' & Hl'').
    destruct (update_fd_frame _ _ _ _ _ _ Hupd) as (_ & _ & Hk & _).
    rewrite Hk in Hc'. simpl in Hc'. rewrite (ok_key _ _ _ _ _ Hctx) in Hc'. simpl in Hc'.
    rewrite Hm'' in Hc'. by simplify_eq.
  - exfalso. by apply Hfind.
Qed.

Lemma one_entry_per_signal_updated_in_place_witness :
  let calls := [(SIGTERM, Some (UserFunc 1)); (SIGUSR1, Some (UserFunc 2))] in
  let st := snd (SetEventHandlers 100 calls boot) in
  NoDup (sigNum <$> entries st 100) ∧
  SIGTERM ∈ sigNum <$> entries st 100 ∧
  ∃ st', le_sig_SetEventHandler 100 SIGTERM (Some (UserFunc 3)) st = (Returned, st') ∧
         handlerObjList <$> context st' 100 = handlerObjList <$> context st 100 ∧
         dom (HandlerObjPool st') = dom (HandlerObjPool st) ∧
         entries st 100
         = [mkHandlerObj SIGTERM (Some (UserFunc 1)); mkHandlerObj SIGUSR1 (Some (UserFunc 2))] ∧
         entries st' 100
         = [mkHandlerObj SIGTERM (Some (UserFunc 3)); mkHandlerObj SIGUSR1 (Some (UserFunc 2))].
Proof.
  intros calls st.
  assert (Hes : entries st 100
                = [mkHandlerObj SIGTERM (Some (UserFunc 1));
                   mkHandlerObj SIGUSR1 (Some (UserFunc 2))])
    by (vm_compute; reflexivity).
  assert (Hin : SIGTERM ∈ sigNum <$> entries st 100)
    by (rewrite Hes; apply elem_of_cons; left; reflexivity).
  destruct (one_entry_per_signal_updated_in_place 100 calls boot Returned st)
    as [Hnodup Hagain].
  - reflexivity.
  - vm_compute. reflexivity.
  - destruct (Hagain eq_refl SIGTERM (UserFunc 3) Hin) as (st' & Hcall & Hlist & Hdom & Hes').
    split; [exact Hnodup|]. split; [exact Hin|].
    exists st'. split; [exact Hcall|]. split; [exact Hlist|]. split; [exact Hdom|].
    split; [exact Hes|]. rewrite Hes', Hes. reflexivity.
Defined.

(** C7.  Take a thread in a state reached by SetEventHandler calls in
    which its context exists.  Then (1) whatever a further
    SetEventHandler call does, the key still points to the context and
    the context is still allocated, and if the call returns the context
    has the same descriptor, still an open signalfd, and the same
    event-loop registration; (2) the context is registered; (3) clearing
    the handler of the only entry returns and leaves no entry; (4)
    DeleteAll releases the context, closes the descriptor and drops the
    registration. *)
Theorem context_released_only_by_DeleteAll self calls st0 st m :
  SigMonKey st0 !! self = None →
  SetEventHandlers self calls st0 = (Returned, st) →
  context st self = Some m →
  (∀ sig h o st', le_sig_SetEventHandler self sig h st = (o, st') →
     SigMonKey st' !! self = SigMonKey st !! self ∧
     ∃ m', context st' self = Some m' ∧
           (o = Returned →
            fd m' = fd m ∧ monitorRef m' = monitorRef m ∧
            (∃ mask, fdtable st' !! fd m = Some (SignalFd mask)) ∧
            fdMonitors st' = fdMonitors st)) ∧
  (∃ r, monitorRef m = Some r ∧ is_Some (fdMonitors st !! r)) ∧
  (∀ h, entries st self = [h] →
     ∃ st', le_sig_SetEventHandler self (sigNum h) None st = (Returned, st') ∧
            entries st' self = []) ∧
  (∀ intr, ∃ st', le_sig_DeleteAll self intr st = (Returned, st') ∧
                  context st' self = None ∧ fdtable st' !! fd m = None ∧
                  ∀ r, monitorRef m = Some r → fdMonitors st' !! r = None).
Proof.
  intros Hnone Hrun Hc.
  destruct (SetEventHandlers_inv self calls st0 st (or_introl Hnone) Hrun) as [Hinv _].
  destruct Hinv as [Hn | (p & m0 & hs & Hctx)].
  { destruct (no_key_view _ _ Hn) as (Hc0 & _). rewrite Hc0 in Hc. done. }
  destruct (ctx_ok_view _ _ _ _ _ Hctx) as (Hc0 & Hes & _).
  rewrite Hc0 in Hc. injection Hc as ->.
  split_and!.
  - intros sig h o st' Hcall.
    destruct (SetEventHandler_ctx _ _ _ _ _ _ _ _ _ Hctx Hcall)
      as (_ & Hk & _ & m' & hs' & Hm' & _ & Hret).
    split; [by rewrite Hk, (ok_key _ _ _ _ _ Hctx)|].
    exists m'. split; [unfold context; rewrite Hk; simpl; done|].
    intros ->. destruct (Hret eq_refl) as (_ & _ & Hctx' & Hfd & Href & Hmon).
    split_and!; [done | done | | done].
    eexists. rewrite <- Hfd. apply (wi_open _ _ _ _ (ok_wired _ _ _ _ _ Hctx')).
  - destruct (wi_ref _ _ _ _ (ok_wired _ _ _ _ _ Hctx)) as (r & Hr & Hmon).
    exists r. rewrite Hmon. eauto.
  - intros h Hh. rewrite Hes in Hh. rewrite Hh in Hctx.
    destruct (SetEventHandler_present_returns self (sigNum h) None st p m [h] Hctx)
      as (st' & Hcall & _).
    { apply elem_of_cons. by left. }
    exists st'. split; [done|].
    destruct (SetEventHandler_ctx _ _ _ _ _ _ _ _ _ Hctx Hcall)
      as (_ & _ & _ & m' & hs' & _ & _ & Hret).
    destruct (Hret eq_refl) as (_ & -> & Hctx' & _).
    destruct (ctx_ok_view _ _ _ _ _ Hctx') as (_ & -> & _).
    simpl. by rewrite filter_cons_False by (intros ?; done).
  - intros intr. eexists. split; [apply (DeleteAll_ctx _ _ _ _ _ _ Hctx)|].
    split_and!.
    + unfold context, le_fdMonitor_Delete.
      destruct (monitorRef m); simpl; rewrite (ok_key _ _ _ _ _ Hctx); simpl;
        apply lookup_delete_eq.
    + unfold le_fdMonitor_Delete. destruct (monitorRef m); simpl; apply lookup_delete_eq.
    + intros r ->. simpl. apply lookup_delete_eq.
Qed.

Lemma context_released_only_by_DeleteAll_witness :
  let st := snd (SetEventHandlers 100 [(SIGTERM, Some (UserFunc 1))] boot) in
  ∃ st', le_sig_SetEventHandler 100 SIGTERM None st = (Returned, st') ∧ entries st' 100 = [].
Proof.
  refine (proj1 (proj2 (proj2
           (context_released_only_by_DeleteAll 100 [(SIGTERM, Some (UserFunc 1))] boot _
              (mkMonitorObj (Some 1%positive) 3 [1%positive]) _ _ _)))
           (mkHandlerObj SIGTERM (Some (UserFunc 1))) _).
  - reflexivity.
  - vm_compute. reflexivity.
  - vm_compute. reflexivity.
  - vm_compute. reflexivity.
Defined.

(** C4: the failing run.  On the main thread of a fresh process
    DeleteAll without context does nothing; but after one registration
    the first DeleteAll returns with the context released and the key
    still pointing to it, and the second DeleteAll reads the released
    block instead of finding no context. *)
Theorem DeleteAll_twice_reads_released_context :
  let st1 := snd (le_sig_SetEventHandler 100 SIGTERM (Some (UserFunc 1)) boot) in
  let r1 := le_sig_DeleteAll 100 [] st1 in
  let r2 := le_sig_DeleteAll 100 [] (snd r1) in
  le_sig_DeleteAll 100 [] boot = (Returned, boot) ∧
  is_Some (context st1 100) ∧
  fst r1 = Returned ∧ context (snd r1) 100 = None ∧ is_Some (SigMonKey (snd r1) !! 100) ∧
  fst r2 = Undefined.
Proof.
  cbv zeta. split_and!.
  - reflexivity.
  - exists (mkMonitorObj (Some 1%positive) 3 [1%positive]). vm_compute. reflexivity.
  - vm_compute. reflexivity.
  - vm_compute. reflexivity.
  - exists 1%positive. vm_compute. reflexivity.
  - vm_compute. reflexivity.
Qed.

(** * The claim about the dispatcher *)

Lemma filter_sig_other (hs : list HandlerObj_t) sig :
  sig ∉ sigNum <$> hs → filter (λ e, sigNum e = sig) hs = [].
Proof.
  induction hs as [|h hs IH]; intros Hs; [done|].
  rewrite fmap_cons in Hs. apply not_elem_of_cons in Hs as [? ?].
  rewrite filter_cons_False by congruence. by apply IH.
Qed.

(** On a well-formed context the walk of the list finds the callback of
    the signal's entry. *)
Lemma turn_record self r st p m hs :
  ctx_ok st self p m hs → 0 < numBytesRead r →
  OurSigHandler_turn self r st
  = match current_handler st self (ssi_signo r) with
    | Some f => Invoke f (ssi_signo r)
    | None => Skip
    end.
Proof.
  intros Hctx Hn. unfold OurSigHandler_turn, current_handler.
  apply Z.ltb_lt in Hn. rewrite Hn.
  destruct (ctx_ok_view _ _ _ _ _ Hctx) as (_ & -> & _).
  rewrite (ok_key _ _ _ _ _ Hctx), (ok_obj _ _ _ _ _ Hctx).
  pose proof (find_linked (ssi_signo r) _ _ _ (lo_linked _ _ _ (ok_list _ _ _ _ _ Hctx)))
    as Hfind.
  destruct (FindHandlerObj (ssi_signo r) (HandlerObjPool st) (handlerObjList m)) as [q| |];
    [| |done].
  - destruct Hfind as (l1 & l2 & hs1 & h & hs2 & _ & -> & _ & _ & Hq & Hsig & Hnot).
    rewrite Hq, filter_app, (filter_sig_other _ _ Hnot), filter_cons_True by done.
    simpl. by destruct (handler h).
  - by rewrite (filter_sig_other _ _ Hfind).
Qed.

(** C5.  Take a thread in a state reached by SetEventHandler calls in
    which its context exists, and any result of read(2).  Then the turn
    of the loop is the one the specification describes, the callback
    being looked up among the entries of this thread; what other threads
    have under the key makes no difference; and the loop goes on
    accordingly: it calls the callback with the signal number and reads
    again, reads again, ends the drain, or terminates the process. *)
Theorem drain_turn_follows_spec self calls st0 st r :
  SigMonKey st0 !! self = None →
  SetEventHandlers self calls st0 = (Returned, st) →
  is_Some (context st self) →
  -1 ≤ numBytesRead r →
  OurSigHandler_turn self r st = spec_turn (current_handler st self (ssi_signo r)) r ∧
  (∀ t v, t ≠ self →
     OurSigHandler_turn self r (set_SigMonKey <[t := v]> st) = OurSigHandler_turn self r st) ∧
  (∀ user rest,
     drain user self (r :: rest) st
     = match spec_turn (current_handler st self (ssi_signo r)) r with
       | Invoke f sig =>
           match call user f sig st with
           | (Returned, st1) => drain user self rest st1
           | stop => stop
           end
       | Skip => drain user self rest st
       | Break => (Returned, st)
       | Die o => (o, st)
       end).
Proof.
  intros Hnone Hrun [m Hc] Hn.
  destruct (SetEventHandlers_inv self calls st0 st (or_introl Hnone) Hrun) as [Hinv _].
  destruct Hinv as [Hk | (p & m0 & hs & Hctx)].
  { destruct (no_key_view _ _ Hk) as (Hc0 & _). rewrite Hc0 in Hc. done. }
  assert (OurSigHandler_turn self r st
          = spec_turn (current_handler st self (ssi_signo r)) r) as Hturn.
  { destruct (Z_lt_le_dec 0 (numBytesRead r)) as [Hpos | Hle].
    - rewrite (turn_record _ _ _ _ _ _ Hctx Hpos). unfold spec_turn.
      apply Z.ltb_lt in Hpos. by rewrite Hpos.
    - unfold OurSigHandler_turn, spec_turn.
      assert ((0 <? numBytesRead r) = false) as -> by (apply Z.ltb_ge; lia).
      destruct (numBytesRead r =? 0) eqn:E0; [done|]. apply Z.eqb_neq in E0.
      assert ((numBytesRead r =? -1) = true) as -> by (apply Z.eqb_eq; lia).
      simpl. destruct (errno r =? EAGAIN); [done|].
      by destruct (errno r =? EINTR). }
  split_and!; [done | |].
  - intros t v Hne. unfold OurSigHandler_turn. simpl. by rewrite lookup_insert_ne.
  - intros user rest. simpl. by rewrite Hturn.
Qed.

Lemma drain_turn_follows_spec_witness :
  let st := snd (SetEventHandlers 100 [(SIGTERM, Some (UserFunc 1))] boot) in
  let r := mkRead 128 0 SIGTERM in
  OurSigHandler_turn 100 r st = Invoke (UserFunc 1) SIGTERM.
Proof.
  refine (eq_trans (proj1 (drain_turn_follows_spec 100 [(SIGTERM, Some (UserFunc 1))] boot _
                            (mkRead 128 0 SIGTERM) _ _ _ _)) _).
  - reflexivity.
  - vm_compute. reflexivity.
  - eexists. vm_compute. reflexivity.
  - simpl. lia.
  - vm_compute. reflexivity.
Defined.

(** * The claims about the crash handler *)

(** ** Failed writes *)

Lemma clean_app evs1 evs2 : clean evs1 → clean evs2 → clean (evs1 ++ evs2).
Proof. intros. by apply Forall_app. Qed.

Lemma post_ok_bind {A B} sig (m : Handler A) (k : A → Handler B) t :
  post_ok sig t (m t) → (∀ a t1, post_ok sig t1 (k a t1)) → post_ok sig t (bind m k t).
Proof.
  unfold bind. destruct (m t) as [[a| |] t1] eqn:Hm; simpl.
  - intros [(more & Hev & Hc) | [? _]] Hk; [|done]. simpl in Hev.
    destruct (Hk a t1) as [(more' & Hev' & Hc') | (Hr & more' & b & tail & Hev' & Hc' & Ht)].
    + left. exists (more ++ more'). rewrite Hev', Hev, app_assoc. split; [done|].
      by apply clean_app.
    + right. split; [done|]. exists (more ++ more'), b, tail.
      rewrite Hev', Hev, !app_assoc. split_and!; [done | by apply clean_app | done].
  - unfold post_ok; simpl. intros [Hm' | [_ Hm']] _; [by left | right; by split].
  - unfold post_ok; simpl. intros [Hm' | [Hr _]] _; [by left | done].
Qed.

Lemma sound_bind {A B} sig (m : Handler A) (k : A → Handler B) :
  sound sig m → (∀ a, sound sig (k a)) → sound sig (bind m k).
Proof. intros Hm Hk t. apply post_ok_bind; [apply Hm | intros a t1; apply Hk]. Qed.

Lemma sound_ret {A} sig (a : A) : sound sig (ret a).
Proof. intros t. left. exists []. split; [simpl; by rewrite app_nil_r | constructor]. Qed.

Lemma sound_leave {A} sig : sound sig (@leave A).
Proof. intros t. left. exists []. split; [simpl; by rewrite app_nil_r | constructor]. Qed.

Lemma sound_spin {A} sig : sound sig (@spin A).
Proof. intros t. left. exists []. split; [simpl; by rewrite app_nil_r | constructor]. Qed.

Lemma sound_emit sig e : (∀ b, e ≠ EvWrite b false) → sound sig (emit e).
Proof. intros He t. left. exists [e]. split; [done|]. constructor; [done | constructor]. Qed.

Lemma sound_CHECK_WRITE sig wr b : sound sig (CHECK_WRITE sig wr b).
Proof.
  intros t. unfold CHECK_WRITE, bind, write, emit, leave, ret. destruct (wr (nwrites t)); simpl.
  - left. exists [EvWrite b true]. split; [done|]. by constructor.
  - right. split; [done|]. exists [], b, [EvRaise sig]. simpl.
    rewrite <- app_assoc. split_and!; [done | constructor | by left].
Qed.

(** A write followed by close, raise and return when it fails. *)
Lemma sound_write_or_close sig wr b f (k : Handler unit) :
  sound sig k →
  sound sig (bind (write wr b)
               (λ full, if full then k
                        else bind (emit (EvClose f)) (λ _, bind (emit (EvRaise sig)) (λ _, leave)))).
Proof.
  intros Hk t. unfold bind at 1. unfold write. destruct (wr (nwrites t)); simpl.
  - destruct (Hk (mkTrace (S (nwrites t)) (events t ++ [EvWrite b true])))
      as [(more & Hev & Hc) | (Hr & more & b' & tail & Hev & Hc & Ht)]; simpl in Hev.
    + left. exists (EvWrite b true :: more). rewrite Hev, <- app_assoc. split; [done|].
      by constructor.
    + right. split; [done|]. exists (EvWrite b true :: more), b', tail.
      rewrite Hev, <- app_assoc. split_and!; [done | by constructor | done].
  - right. split; [done|]. exists [], b, [EvClose f; EvRaise sig]. simpl.
    rewrite <- !app_assoc. split_and!; [done | constructor | right; by exists f].
Qed.

Lemma sound_cmdline_loop sig wr reads : sound sig (cmdline_loop sig wr reads).
Proof.
  induction reads as [|r reads IH]; cbn [cmdline_loop]; [apply sound_ret|].
  destruct (0 <? rc_of r); [|apply sound_ret].
  by apply sound_write_or_close.
Qed.

Lemma sound_maps_loop sig wr content line len : sound sig (maps_loop sig wr content line len).
Proof.
  revert line len. induction content as [|ch content IH]; intros line len;
    cbn [maps_loop]; [apply sound_ret|].
  destruct (Ascii.eqb newline ch).
  - apply sound_write_or_close. apply IH.
  - destruct (len + 1 <? 256); apply IH.
Qed.

Lemma sound_arm_frames sig wr fuel regs base mem addr frame :
  sound sig (arm_frames sig wr fuel regs base mem addr frame).
Proof.
  revert addr frame. induction fuel as [|fuel IH]; intros addr frame; cbn [arm_frames]; [apply sound_spin|].
  apply sound_bind; [apply sound_CHECK_WRITE|]. intros _.
  destruct (_ || _); [apply sound_ret|].
  destruct (addr =? arm_pc regs); [apply IH|].
  destruct (frame <=? mem (frame - 4)); [apply sound_ret | apply IH].
Qed.

Lemma sound_arm_stack sig wr lines mem frame : sound sig (arm_stack sig wr lines mem frame).
Proof.
  revert frame. induction lines as [|lines IH]; intros frame; cbn [arm_stack]; [apply sound_ret|].
  apply sound_bind; [apply sound_CHECK_WRITE | intros _; apply IH].
Qed.

Lemma sound_backtrace_loop sig wr n addrs : sound sig (backtrace_loop sig wr n addrs).
Proof.
  revert n. induction addrs as [|a addrs IH]; intros n; cbn [backtrace_loop]; [apply sound_ret|].
  apply sound_bind; [apply sound_CHECK_WRITE | intros _; apply IH].
Qed.

Ltac sound_step :=
  first [ apply sound_CHECK_WRITE | apply sound_ret | apply sound_leave
        | apply sound_cmdline_loop | apply sound_maps_loop | apply sound_arm_frames
        | apply sound_arm_stack | apply sound_backtrace_loop
        | apply sound_emit; intros ?; discriminate
        | apply sound_bind; [|intros ?] ].

Lemma sound_intro_section sig c wr : sound sig (intro_section sig c wr).
Proof. unfold intro_section. repeat sound_step. Qed.

Lemma sound_version_section sig c wr : sound sig (version_section sig c wr).
Proof.
  unfold version_section. sound_step; [sound_step|].
  destruct (version_file c) as [r|]; [|sound_step].
  sound_step; [sound_step|]. destruct (0 <? rc_of r); repeat sound_step.
Qed.

Lemma sound_cmdline_section sig c wr : sound sig (cmdline_section sig c wr).
Proof.
  unfold cmdline_section. sound_step; [sound_step|].
  destruct (cmdline_file c); repeat sound_step.
Qed.

Lemma sound_maps_section sig c wr : sound sig (maps_section sig c wr).
Proof.
  unfold maps_section. sound_step; [sound_step|].
  destruct (maps_file c); repeat sound_step.
Qed.

Lemma sound_backtrace_section sig c wr fuel : sound sig (backtrace_section sig c wr fuel).
Proof.
  unfold backtrace_section. sound_step; [sound_step|].
  destruct (machine c); repeat sound_step.
Qed.

Lemma sound_gdb_section sig c : sound sig (gdb_section c).
Proof.
  unfold gdb_section. destruct (gdbServerPort c =? 0); [sound_step|].
  sound_step; [sound_step|]. sound_step; [|sound_step].
  destruct (fork_ret c =? 0); [|sound_step].
  sound_step; [sound_step|]. destruct (exec_fails c); sound_step.
Qed.

Lemma sound_after_version sig c wr fuel : sound sig (after_version sig c wr fuel).
Proof.
  unfold after_version.
  sound_step; [apply sound_cmdline_section|].
  sound_step; [apply sound_maps_section|].
  sound_step; [apply sound_backtrace_section|].
  sound_step; [sound_step|].
  sound_step; [apply sound_gdb_section|].
  sound_step.
Qed.

Lemma sound_ShowStackSignalHandler sig c wr fuel :
  sound sig (ShowStackSignalHandler sig c wr fuel).
Proof.
  unfold ShowStackSignalHandler.
  sound_step; [apply sound_intro_section|].
  sound_step; [apply sound_version_section|].
  apply sound_after_version.
Qed.

(** Where the first failed write of a trace is, is determined. *)
Lemma failed_write_position more b tail pre b' post sig :
  clean more → reraise sig tail →
  more ++ EvWrite b false :: tail = pre ++ EvWrite b' false :: post →
  post = tail.
Proof.
  intros Hc Ht. revert pre. induction more as [|e more IH]; intros pre Heq; simpl in *.
  - destruct pre as [|e' pre]; simpl in *; [by simplify_eq|].
    injection Heq as _ Htail. exfalso.
    assert (EvWrite b' false ∈ tail) as Hin.
    { rewrite Htail. apply elem_of_app. right. apply elem_of_cons. by left. }
    destruct Ht as [-> | [f ->]].
    + apply list_elem_of_singleton in Hin. discriminate Hin.
    + apply elem_of_cons in Hin as [Hin | Hin]; [discriminate Hin|].
      apply list_elem_of_singleton in Hin. discriminate Hin.
  - apply Forall_cons in Hc as [He Hc].
    destruct pre as [|e' pre]; simpl in *.
    + injection Heq as Hhead _. by destruct (He b').
    + injection Heq as _ Heq. by apply (IH Hc pre).
Qed.

(** C6.  In any run of the handler, for whatever signal, circumstances
    and build, and however the writes behave, a write that does not
    write all it was asked to is followed by the re-raise of the signal,
    at most the close of the file being dumped coming in between, and by
    nothing else: the handler has returned. *)
Theorem failed_write_reraises_and_returns sig c wr fuel pre b post :
  events (snd (crash_run sig c wr fuel)) = pre ++ EvWrite b false :: post →
  fst (crash_run sig c wr fuel) = Return ∧
  (post = [EvRaise sig] ∨ ∃ f, post = [EvClose f; EvRaise sig]).
Proof.
  intros Hev.
  destruct (sound_ShowStackSignalHandler sig c wr fuel (mkTrace 0 []))
    as [(more & Hev' & Hc) | (Hr & more & b' & tail & Hev' & Hc & Ht)];
    fold (crash_run sig c wr fuel) in *; simpl in Hev'.
  - exfalso. rewrite Hev' in Hev. subst more.
    apply Forall_app in Hc as [_ Hc]. apply Forall_cons in Hc as [Hb _]. by apply (Hb b).
  - split; [done|]. rewrite Hev' in Hev.
    by rewrite (failed_write_position _ _ _ _ _ _ _ Hc Ht Hev).
Qed.

Lemma failed_write_reraises_and_returns_witness :
  fst (crash_run SIGSEGV crash0 (λ n, negb (n =? 1)%nat) 0) = Return ∧
  ([EvRaise SIGSEGV] = [EvRaise SIGSEGV] ∨ ∃ f, [EvRaise SIGSEGV] = [EvClose f; EvRaise SIGSEGV]).
Proof.
  apply (failed_write_reraises_and_returns SIGSEGV crash0 (λ n, negb (n =? 1)%nat) 0
           [EvWrite (Printf "PROCESS: %d ,TID %d\n" [AInt 4242; AInt 4242]) true]
           (Printf "SIGNAL: %d, ADDR %p, AT %p\n" [AInt SIGSEGV; APtr 0; APtr 4096])
           [EvRaise SIGSEGV]).
  vm_compute. reflexivity.
Defined.

(** A failed write inside the dump of the memory map: the file is
    closed, the signal re-raised, and nothing follows. *)
Lemma failed_write_in_map_closes_and_reraises :
  crash_run SIGSEGV crash1 (λ n, negb (n =? 6)%nat) 0
  = (Return,
     mkTrace 7
       [EvWrite (Printf "PROCESS: %d ,TID %d\n" [AInt 4242; AInt 4242]) true;
        EvWrite (Printf "SIGNAL: %d, ADDR %p, AT %p\n" [AInt SIGSEGV; APtr 0; APtr 4096]) true;
        EvWrite (Printf "ILLEGAL ADDRESS %p\n" [APtr 0]) true;
        EvWrite (Printf "LEGATO VERSION\n" []) true;
        EvWrite (Printf "PROCESS COMMAND LINE\n" []) true;
        EvWrite (Printf "PROCESS MAP\n" []) true;
        EvWrite (Raw (append_char "00400000-00401000 r-xp" newline)) false;
        EvClose MapsFile;
        EvRaise SIGSEGV]).
Proof. vm_compute. reflexivity. Qed.

(** ** The version section *)

Lemma sound_extends {A} sig (m : Handler A) t :
  sound sig m → ∃ more, events (snd (m t)) = events t ++ more.
Proof.
  intros Hm. destruct (Hm t) as [(more & Hev & _) | (_ & more & b & tail & Hev & _)]; eauto.
Qed.

Lemma CHECK_WRITE_full sig wr b t :
  wr (nwrites t) = true →
  CHECK_WRITE sig wr b t = (Next tt, mkTrace (S (nwrites t)) (events t ++ [EvWrite b true])).
Proof. intros Hw. unfold CHECK_WRITE, bind, write, ret. by rewrite Hw. Qed.

Lemma bind_assoc {A B C} (m : Handler A) (k1 : A → Handler B) (k2 : B → Handler C) t :
  bind (bind m k1) k2 t = bind m (λ a, bind (k1 a) k2) t.
Proof. unfold bind. by destruct (m t) as [[a| |] t1]. Qed.

Lemma bind_CHECK_WRITE_first {A} sig wr b (k : unit → Handler A) t :
  wr (nwrites t) = true → sound sig (k tt) →
  ∃ rest, events (snd (bind (CHECK_WRITE sig wr b) k t)) = events t ++ EvWrite b true :: rest.
Proof.
  intros Hw Hk. unfold bind. rewrite (CHECK_WRITE_full _ _ _ _ Hw).
  destruct (sound_extends sig (k tt) (mkTrace (S (nwrites t)) (events t ++ [EvWrite b true])) Hk)
    as [more Hmore].
  exists more. rewrite Hmore. simpl. by rewrite <- app_assoc.
Qed.

(** When every write succeeds no section makes the handler return. *)
Section AllWritesSucceed.

Variable sig : Z.
Variable c : Crash.
Variable wr : nat → bool.
Hypothesis Hwr : ∀ n, wr n = true.

Lemma goes_on_ret {A} (a : A) : goes_on (ret a).
Proof. by intros t. Qed.

Lemma goes_on_spin {A} : goes_on (@spin A).
Proof. by intros t. Qed.

Lemma goes_on_emit e : goes_on (emit e).
Proof. by intros t. Qed.

Lemma goes_on_bind {A B} (m : Handler A) (k : A → Handler B) :
  goes_on m → (∀ a, goes_on (k a)) → goes_on (bind m k).
Proof.
  intros Hm Hk t. unfold bind. specialize (Hm t).
  destruct (m t) as [[a| |] t1]; simpl in *; [apply Hk | done | done].
Qed.

Lemma goes_on_CHECK_WRITE b : goes_on (CHECK_WRITE sig wr b).
Proof. intros t. by rewrite CHECK_WRITE_full. Qed.

Lemma goes_on_cmdline_loop reads : goes_on (cmdline_loop sig wr reads).
Proof.
  induction reads as [|r reads IH]; cbn [cmdline_loop]; [apply goes_on_ret|].
  destruct (0 <? rc_of r); [|apply goes_on_ret].
  intros t. unfold bind, write. rewrite Hwr. apply IH.
Qed.

Lemma goes_on_maps_loop content line len : goes_on (maps_loop sig wr content line len).
Proof.
  revert line len. induction content as [|ch content IH]; intros line len;
    cbn [maps_loop]; [apply goes_on_ret|].
  destruct (Ascii.eqb newline ch).
  - intros t. unfold bind, write. rewrite Hwr. apply IH.
  - destruct (len + 1 <? 256); apply IH.
Qed.

Lemma goes_on_arm_frames fuel regs base mem addr frame :
  goes_on (arm_frames sig wr fuel regs base mem addr frame).
Proof.
  revert addr frame. induction fuel as [|fuel IH]; intros addr frame; cbn [arm_frames];
    [apply goes_on_spin|].
  apply goes_on_bind; [apply goes_on_CHECK_WRITE|]. intros _.
  destruct (_ || _); [apply goes_on_ret|].
  destruct (addr =? arm_pc regs); [apply IH|].
  destruct (frame <=? mem (frame - 4)); [apply goes_on_ret | apply IH].
Qed.

Lemma goes_on_arm_stack lines mem frame : goes_on (arm_stack sig wr lines mem frame).
Proof.
  revert frame. induction lines as [|lines IH]; intros frame; cbn [arm_stack];
    [apply goes_on_ret|].
  apply goes_on_bind; [apply goes_on_CHECK_WRITE | intros _; apply IH].
Qed.

Lemma goes_on_backtrace_loop n addrs : goes_on (backtrace_loop sig wr n addrs).
Proof.
  revert n. induction addrs as [|a addrs IH]; intros n; cbn [backtrace_loop];
    [apply goes_on_ret|].
  apply goes_on_bind; [apply goes_on_CHECK_WRITE | intros _; apply IH].
Qed.

Ltac goes_on_step :=
  first [ apply goes_on_CHECK_WRITE | apply goes_on_ret | apply goes_on_emit
        | apply goes_on_cmdline_loop | apply goes_on_maps_loop | apply goes_on_arm_frames
        | apply goes_on_arm_stack | apply goes_on_backtrace_loop
        | apply goes_on_bind; [|intros ?] ].

Lemma goes_on_cmdline_section : goes_on (cmdline_section sig c wr).
Proof.
  unfold cmdline_section. goes_on_step; [goes_on_step|].
  destruct (cmdline_file c); repeat goes_on_step.
Qed.

Lemma goes_on_maps_section : goes_on (maps_section sig c wr).
Proof.
  unfold maps_section. goes_on_step; [goes_on_step|].
  destruct (maps_file c); repeat goes_on_step.
Qed.

Lemma goes_on_backtrace_section fuel : goes_on (backtrace_section sig c wr fuel).
Proof.
  unfold backtrace_section. goes_on_step; [goes_on_step|].
  destruct (machine c); repeat goes_on_step.
Qed.

End AllWritesSucceed.

(** A piece that neither returns nor is left spinning hands over to what
    follows it. *)
Lemma bind_goes_on {A B} (m : Handler A) (k : A → Handler B) t :
  goes_on m → fst (bind m k t) ≠ Spin →
  ∃ a t1, m t = (Next a, t1) ∧ bind m k t = k a t1.
Proof.
  intros Hm. specialize (Hm t). unfold bind.
  destruct (m t) as [[a| |] t1]; simpl in *; [eauto | done | done].
Qed.

(** C8, as amended.  Suppose every write of the run succeeds.  When the
    version file opens and the read returns nothing, the version section
    consists of its header and the line "Cannot read legato version";
    when the file cannot be opened, it consists of its header alone and
    nothing is reported.  Either way the handler does not return there:
    the rest of the run is the remaining sections, carried out from that
    point; it starts with the header of the command-line section and,
    when no gdbserver port is set and the frame walk comes to its end,
    it finishes with DONE and the final raise. *)
Theorem unreadable_version_degrades_its_section_only sig c wr fuel :
  (∀ n, wr n = true) →
  version_file c = None ∨ (∃ r, version_file c = Some r ∧ rc_of r ≤ 0) →
  ∃ t0 t,
    intro_section sig c wr (mkTrace 0 []) = (Next tt, t0) ∧
    version_section sig c wr t0 = (Next tt, t) ∧
    events t = events t0 ++
               EvWrite (Printf "LEGATO VERSION\n" []) true ::
               match version_file c with
               | None => []
               | Some _ => [EvClose VersionFile;
                            EvWrite (Printf "Cannot read legato version\n" []) true]
               end ∧
    crash_run sig c wr fuel = after_version sig c wr fuel t ∧
    (∃ rest, events (snd (crash_run sig c wr fuel))
             = events t ++ EvWrite (Printf "PROCESS COMMAND LINE\n" []) true :: rest) ∧
    (gdbServerPort c = 0 → fst (crash_run sig c wr fuel) ≠ Spin →
     ∃ t' pre, crash_run sig c wr fuel = (Next tt, t') ∧
               events t' = pre ++ [EvWrite (Printf "DONE\n" []) true; EvRaise sig]).
Proof.
  intros Hwr Hver.
  assert (∃ t0, intro_section sig c wr (mkTrace 0 []) = (Next tt, t0)) as [t0 Hintro].
  { unfold intro_section, bind. rewrite !CHECK_WRITE_full by apply Hwr. eauto. }
  assert (∃ t, version_section sig c wr t0 = (Next tt, t) ∧
               events t = events t0 ++
                 EvWrite (Printf "LEGATO VERSION\n" []) true ::
                 match version_file c with
                 | None => []
                 | Some _ => [EvClose VersionFile;
                              EvWrite (Printf "Cannot read legato version\n" []) true]
                 end) as (t & Hvers & Hev).
  { unfold version_section, bind at 1. rewrite CHECK_WRITE_full by apply Hwr.
    destruct Hver as [-> | (r & -> & Hrc)].
    - eexists. split; [reflexivity | done].
    - assert ((0 <? rc_of r) = false) as -> by (apply Z.ltb_ge; lia).
      unfold bind, emit. rewrite CHECK_WRITE_full by apply Hwr. simpl.
      eexists. split; [reflexivity|]. simpl. by rewrite <- !app_assoc. }
  assert (crash_run sig c wr fuel = after_version sig c wr fuel t) as Hrun.
  { unfold crash_run, ShowStackSignalHandler, bind at 1. rewrite Hintro.
    unfold bind at 1. by rewrite Hvers. }
  exists t0, t. split_and!; [done | done | done | done | |].
  - rewrite Hrun. unfold after_version, cmdline_section. rewrite bind_assoc.
    apply bind_CHECK_WRITE_first; [apply Hwr|].
    apply sound_bind.
    + destruct (cmdline_file c); repeat sound_step.
    + intros _.
      sound_step; [apply sound_maps_section|].
      sound_step; [apply sound_backtrace_section|].
      sound_step; [sound_step|].
      sound_step; [apply sound_gdb_section|].
      sound_step.
  - intros Hport. rewrite Hrun. unfold after_version. intros Hspin.
    destruct (bind_goes_on _ _ t (goes_on_cmdline_section sig c wr Hwr) Hspin)
      as ([] & t2 & _ & Heq2).
    rewrite Heq2 in Hspin |- *.
    destruct (bind_goes_on _ _ t2 (goes_on_maps_section sig c wr Hwr) Hspin)
      as ([] & t3 & _ & Heq3).
    rewrite Heq3 in Hspin |- *.
    destruct (bind_goes_on _ _ t3 (goes_on_backtrace_section sig c wr Hwr fuel) Hspin)
      as ([] & t4 & _ & Heq4).
    rewrite Heq4. clear Hspin Heq2 Heq3 Heq4.
    unfold bind at 1. rewrite CHECK_WRITE_full by apply Hwr.
    unfold gdb_section. rewrite Hport. simpl.
    eexists _, (events t4). split; [reflexivity|]. simpl. by rewrite <- app_assoc.
Qed.

Lemma unreadable_version_degrades_its_section_only_witness :
  ∃ t0 t,
    intro_section SIGSEGV crash0 (λ _, true) (mkTrace 0 []) = (Next tt, t0) ∧
    version_section SIGSEGV crash0 (λ _, true) t0 = (Next tt, t) ∧
    events t = events t0 ++
               EvWrite (Printf "LEGATO VERSION\n" []) true ::
               match version_file crash0 with
               | None => []
               | Some _ => [EvClose VersionFile;
                            EvWrite (Printf "Cannot read legato version\n" []) true]
               end ∧
    crash_run SIGSEGV crash0 (λ _, true) 0 = after_version SIGSEGV crash0 (λ _, true) 0 t ∧
    (∃ rest, events (snd (crash_run SIGSEGV crash0 (λ _, true) 0))
             = events t ++ EvWrite (Printf "PROCESS COMMAND LINE\n" []) true :: rest) ∧
    (gdbServerPort crash0 = 0 → fst (crash_run SIGSEGV crash0 (λ _, true) 0) ≠ Spin →
     ∃ t' pre, crash_run SIGSEGV crash0 (λ _, true) 0 = (Next tt, t') ∧
               events t' = pre ++ [EvWrite (Printf "DONE\n" []) true; EvRaise SIGSEGV]).
Proof.
  apply (unreadable_version_degrades_its_section_only SIGSEGV crash0 (λ _, true) 0).
  - reflexivity.
  - left. reflexivity.
Defined.

(** C8 as stated fails when the version file cannot be opened: every
    write succeeds, and the report goes from the header of the version
    section straight to the command-line section, without any line
    saying that the version could not be read. *)
Lemma unopened_version_file_is_not_reported :
  version_file crash0 = None ∧
  crash_run SIGSEGV crash0 (λ _, true) 0
  = (Next tt,
     mkTrace 8
       [EvWrite (Printf "PROCESS: %d ,TID %d\n" [AInt 4242; AInt 4242]) true;
        EvWrite (Printf "SIGNAL: %d, ADDR %p, AT %p\n" [AInt SIGSEGV; APtr 0; APtr 4096]) true;
        EvWrite (Printf "ILLEGAL ADDRESS %p\n" [APtr 0]) true;
        EvWrite (Printf "LEGATO VERSION\n" []) true;
        EvWrite (Printf "PROCESS COMMAND LINE\n" []) true;
        EvWrite (Printf "PROCESS MAP\n" []) true;
        EvWrite (Printf "BACKTRACE\n" []) true;
        EvWrite (Printf "DONE\n" []) true;
        EvRaise SIGSEGV]).
Proof. split; [reflexivity | vm_compute; reflexivity]. Qed.

(** * The claim about the installer *)

(** The installer never touches the disposition of SIGTRAP. *)
Lemma InstallShowStackHandler_SIGTRAP_untouched getenv scan_u cfg :
  actions (fst (le_sig_InstallShowStackHandler getenv scan_u cfg)) !! SIGTRAP
  = actions cfg !! SIGTRAP.
Proof.
  unfold le_sig_InstallShowStackHandler.
  destruct (match getenv "SIGNAL_SHOW_INFO" with Some _ => _ | None => _ end); [done|].
  assert (∀ name sig sa s, sig ≠ SIGTRAP →
            fst (install name sig sa s) !! SIGTRAP = fst s !! SIGTRAP) as Hinst.
  { intros name sig sa [acts l] Hne. unfold install, sigaction. simpl.
    destruct (_ && _); simpl; [by rewrite lookup_insert_ne|done]. }
  destruct (getenv "GDBSERVER_PORT") as [v|]; [destruct (scan_u v)|]; cbn [fst actions];
    by rewrite !Hinst by (unfold SIGSEGV, SIGBUS, SIGILL, SIGFPE, SIGABRT, SIGTRAP; lia).
Qed.

(** C3: the failing run.  In a process that has not disabled it, the
    installer gives segmentation fault, illegal instruction, bus error,
    floating-point exception and abort the crash handler with
    SA_RESETHAND, so that a delivery runs it with the default disposition
    restored; but trap keeps its default disposition, and its delivery
    runs no handler. *)
Theorem InstallShowStackHandler_skips_SIGTRAP :
  let acts := actions (fst (le_sig_InstallShowStackHandler no_env no_scan cfg0)) in
  Forall (λ sig, deliver sig acts = (Some ShowStackSignalHandlerFn, delete sig acts))
         [SIGSEGV; SIGILL; SIGBUS; SIGFPE; SIGABRT] ∧
  acts !! SIGTRAP = None ∧
  deliver SIGTRAP acts = (None, acts).
Proof.
  cbv zeta. split_and!.
  - repeat (constructor; [vm_compute; reflexivity|]). constructor.
  - vm_compute. reflexivity.
  - vm_compute. reflexivity.
Qed.

(** * Further properties of the registry *)

(** ** What a call does to the entries and to the pool *)

Lemma SetEventHandler_entries self sig h st st' :
  sig_inv st self → le_sig_SetEventHandler self sig h st = (Returned, st') →
  sig_inv st' self ∧ entries st' self = spec_SetHandler sig h (entries st self).
Proof.
  intros Hinv Hcall. split; [by destruct (SetEventHandler_inv _ _ _ _ _ Hinv Hcall)|].
  destruct Hinv as [Hnone | (p & m & hs & Hctx)].
  - destruct (no_key_view _ _ Hnone) as (_ & -> & _).
    destruct (SetEventHandler_first _ _ _ _ _ _ Hnone Hcall) as (_ & _ & Hh).
    destruct h as [f|].
    + destruct Hh as [[Hna ->] | (p & m' & _ & _ & _ & Hctx)].
      { unfold le_sig_SetEventHandler in Hcall. by rewrite Hna in Hcall. }
      destruct (ctx_ok_view _ _ _ _ _ (Hctx eq_refl)) as (_ & -> & _).
      by rewrite spec_append by apply not_elem_of_nil.
    + subst st'. by destruct (no_key_view _ _ Hnone) as (_ & -> & _).
  - destruct (ctx_ok_view _ _ _ _ _ Hctx) as (_ & -> & _).
    destruct (SetEventHandler_ctx _ _ _ _ _ _ _ _ _ Hctx Hcall)
      as (_ & _ & _ & m' & hs' & _ & _ & Hret).
    destruct (Hret eq_refl) as (_ & -> & Hctx' & _).
    by destruct (ctx_ok_view _ _ _ _ _ Hctx') as (_ & -> & _).
Qed.

(** The callback found for a signal after the entries were changed. *)
Lemma lookup_spec_SetHandler sig h hs sig' :
  head (filter (λ e, sigNum e = sig') (spec_SetHandler sig h hs)) ≫= handler
  = if decide (sig' = sig) then h
    else head (filter (λ e, sigNum e = sig') hs) ≫= handler.
Proof.
  destruct h as [f|]; simpl.
  - destruct (decide (sig ∈ sigNum <$> hs)) as [Hin | Hnotin].
    + induction hs as [|e hs IH]; [by apply elem_of_nil in Hin|].
      rewrite fmap_cons. destruct (decide (sigNum e = sig)) as [He | He].
      * destruct (decide (sig' = sig)) as [-> | Hne].
        -- by rewrite filter_cons_True.
        -- rewrite !filter_cons_False by (simpl; congruence).
           destruct (decide (sig ∈ sigNum <$> hs)) as [Hin' | Hnotin'].
           ++ by rewrite (IH Hin').
           ++ by rewrite replace_sig_notin.
      * rewrite fmap_cons in Hin. apply elem_of_cons in Hin as [? | Hin]; [congruence|].
        specialize (IH Hin). destruct (decide (sigNum e = sig')) as [He' | He'].
        -- rewrite !filter_cons_True by done. simpl. by rewrite decide_False by congruence.
        -- by rewrite !filter_cons_False.
    + rewrite filter_app. destruct (decide (sig' = sig)) as [-> | Hne].
      * by rewrite (filter_sig_other _ _ Hnotin), filter_cons_True.
      * rewrite (filter_cons_False _ _ []) by (simpl; congruence).
        by rewrite filter_nil, app_nil_r.
  - induction hs as [|e hs IH]; [by destruct (decide (sig' = sig))|].
    destruct (decide (sigNum e = sig)) as [He | He].
    + rewrite filter_cons_False by (intros ?; done). rewrite IH.
      destruct (decide (sig' = sig)) as [-> | Hne]; [done|].
      by rewrite (filter_cons_False _ e) by congruence.
    + rewrite filter_cons_True by done.
      destruct (decide (sigNum e = sig')) as [He' | He'].
      * rewrite !filter_cons_True by done. simpl. by rewrite decide_False by congruence.
      * by rewrite !filter_cons_False.
Qed.

(** X1.  Registering and looking up.  In a state reached by
    SetEventHandler calls, after a call for [sig] that returns, the
    callback the dispatcher finds for [sig] is the one just given (none
    after a clear), and the callback found for any other signal is the
    one found before. *)
Theorem handler_lookup_after_set self calls st0 st sig h st' sig' :
  SigMonKey st0 !! self = None →
  SetEventHandlers self calls st0 = (Returned, st) →
  le_sig_SetEventHandler self sig h st = (Returned, st') →
  current_handler st' self sig'
  = if decide (sig' = sig) then h else current_handler st self sig'.
Proof.
  intros Hnone Hrun Hcall.
  destruct (SetEventHandlers_inv self calls st0 st (or_introl Hnone) Hrun) as [Hinv _].
  destruct (SetEventHandler_entries _ _ _ _ _ Hinv Hcall) as [_ Hes].
  unfold current_handler. rewrite Hes. apply lookup_spec_SetHandler.
Qed.

Lemma handler_lookup_after_set_witness :
  let st := snd (SetEventHandlers 100 [(SIGTERM, Some (UserFunc 1))] boot) in
  let st' := snd (le_sig_SetEventHandler 100 SIGUSR1 (Some (UserFunc 2)) st) in
  current_handler st' 100 SIGTERM
  = if decide (SIGTERM = SIGUSR1) then Some (UserFunc 2) else current_handler st 100 SIGTERM.
Proof.
  apply (handler_lookup_after_set 100 [(SIGTERM, Some (UserFunc 1))] boot).
  - reflexivity.
  - vm_compute. reflexivity.
  - vm_compute. reflexivity.
Defined.

(** ** What the calls leave alone *)

Lemma set_in_monitor_frame self sig h p st o st' :
  set_in_monitor self sig h p st = (o, st') →
  SigMonKey st' = SigMonKey st ∧ sigmask st' = sigmask st.
Proof.
  unfold set_in_monitor. intros H.
  repeat case_match; simplify_eq; try done;
    apply update_fd_frame in H as (_ & _ & ? & _ & ? & _); simpl in *; done.
Qed.

Lemma SetEventHandler_frame self sig h st o st' :
  le_sig_SetEventHandler self sig h st = (o, st') →
  sigmask st' = sigmask st ∧ ∀ t, t ≠ self → SigMonKey st' !! t = SigMonKey st !! t.
Proof.
  unfold le_sig_SetEventHandler. intros H.
  repeat case_match; simplify_eq; try done;
    apply set_in_monitor_frame in H as [Hk Hm]; simpl in *; rewrite Hk, Hm;
    (split; [done|]); intros; try done; by rewrite lookup_insert_ne.
Qed.

Lemma close_loop_frame fd intr st o st' :
  close_loop fd intr st = (o, st') → st' = st ∨ st' = set_fdtable (delete fd) st.
Proof.
  destruct (fdtable st !! fd) as [[mask|]|] eqn:Hfd.
  - rewrite (close_loop_open _ _ _ _ Hfd). intros [= _ <-]. by right.
  - destruct intr as [|[|] rest].
    + simpl. unfold close. rewrite Hfd. simpl. intros [= _ <-]. by right.
    + rewrite (close_loop_interrupted _ _ _ Hfd). intros [= _ <-]. by right.
    + simpl. unfold close. rewrite Hfd. simpl. intros [= _ <-]. by right.
  - rewrite (close_loop_closed _ _ _ Hfd). intros [= _ <-]. by left.
Qed.

Lemma DeleteAll_frame self intr st o st' :
  le_sig_DeleteAll self intr st = (o, st') →
  SigMonKey st' = SigMonKey st ∧ sigmask st' = sigmask st.
Proof.
  unfold le_sig_DeleteAll.
  destruct (SigMonKey st !! self) as [p|]; [|by intros; simplify_eq].
  destruct (MonitorObjPool st !! p) as [m|]; [|by intros; simplify_eq].
  destruct (close_loop _ _ _) as [o2 st2] eqn:Hc.
  apply close_loop_frame in Hc.
  destruct o2; intros; simplify_eq; destruct Hc as [-> | ->];
    destruct (monitorRef m); simpl; done.
Qed.

Lemma Block_frame self sig st o st' :
  le_sig_Block self sig st = (o, st') →
  SigMonKey st' = SigMonKey st ∧
  blocked st self ⊆ blocked st' self ∧
  blocked st' self ⊆ blocked st self ∪ {[sig]} ∧
  ∀ t, t ≠ self → blocked st' t = blocked st t.
Proof.
  unfold le_sig_Block.
  destruct (self =? -1); [intros; simplify_eq; split_and!; try done; set_solver|].
  destruct (sigaddset ∅ sig) as [set|] eqn:Hset.
  - apply sigaddset_Some in Hset as [_ ->].
    destruct (self =? pid st); intros; simplify_eq; unfold blocked; simpl;
      rewrite lookup_insert_eq; simpl;
      (split; [done|]); (split; [set_solver|]);
      (split; [unfold kernel_mask; set_solver|]);
      intros t Ht; by rewrite lookup_insert_ne.
  - destruct (self =? pid st); intros; simplify_eq; unfold blocked; simpl;
      split_and!; try done; set_solver.
Qed.

Lemma do_call_frame self c st o st' :
  do_call self c st = (o, st') →
  blocked st self ⊆ blocked st' self ∧
  blocked st' self ⊆ blocked st self ∪ list_to_set (block_calls [c]) ∧
  ∀ t, t ≠ self → blocked st' t = blocked st t ∧ SigMonKey st' !! t = SigMonKey st !! t.
Proof.
  destruct c as [sig | sig h | intr]; simpl; intros H.
  - apply Block_frame in H as (Hk & H1 & H2 & H3).
    split; [done|]. split; [set_solver|]. intros t Ht. by rewrite H3, Hk.
  - apply SetEventHandler_frame in H as [Hm Hk]. unfold blocked. rewrite Hm.
    split; [set_solver|]. split; [set_solver|]. intros t Ht. by rewrite Hk.
  - apply DeleteAll_frame in H as [Hk Hm]. unfold blocked. rewrite Hm, Hk.
    split; [set_solver|]. split; [set_solver|]. done.
Qed.

(** X2.  The blocked masks across the module.  Whatever calls of
    le_sig_Block, le_sig_SetEventHandler and le_sig_DeleteAll a thread
    makes, and however the sequence ends: the signals blocked in the
    thread only grow, they grow by signals named in the le_sig_Block
    calls only, and neither the blocked mask nor the context pointer of
    any other thread is touched. *)
Theorem blocked_masks_only_grow self cs st :
  blocked st self ⊆ blocked (snd (do_calls self cs st)) self ∧
  blocked (snd (do_calls self cs st)) self
    ⊆ blocked st self ∪ list_to_set (block_calls cs) ∧
  ∀ t, t ≠ self →
    blocked (snd (do_calls self cs st)) t = blocked st t ∧
    SigMonKey (snd (do_calls self cs st)) !! t = SigMonKey st !! t.
Proof.
  revert st. induction cs as [|c cs IH]; intros st; cbn [do_calls].
  - simpl. split_and!; try done; set_solver.
  - destruct (do_call self c st) as [o st1] eqn:Hc.
    destruct (do_call_frame _ _ _ _ _ Hc) as (H1 & H2 & H3).
    assert (Hcons : block_calls (c :: cs) = block_calls [c] ++ block_calls cs)
      by (unfold block_calls; simpl; by destruct c).
    rewrite Hcons, list_to_set_app_L.
    destruct o; simpl;
      try (split; [done|]; split; [set_solver|]; done).
    destruct (IH st1) as (I1 & I2 & I3).
    split; [set_solver|]. split; [set_solver|].
    intros t Ht. destruct (H3 t Ht) as [E1 E2]. destruct (I3 t Ht) as [E3 E4].
    split; congruence.
Qed.

(** ** The handler pool *)

Lemma SetEventHandler_clear_pool self sig st o st' :
  le_sig_SetEventHandler self sig None st = (o, st') →
  HandlerObjPool st' = HandlerObjPool st.
Proof.
  unfold le_sig_SetEventHandler, set_in_monitor. intros H.
  repeat case_match; simplify_eq; try done;
    apply update_fd_frame in H as (_ & _ & _ & ? & _); simpl in *; done.
Qed.

Lemma SetEventHandler_new_pool self sig f st o st' :
  sig_inv st self → not_allowed sig = false → sig ∉ sigNum <$> entries st self →
  le_sig_SetEventHandler self sig (Some f) st = (o, st') →
  HandlerObjPool st'
  = <[le_mem_ForceAlloc (HandlerObjPool st) := mkHandlerObj sig (Some f)]> (HandlerObjPool st).
Proof.
  intros Hinv Hna Hnotin. unfold le_sig_SetEventHandler. rewrite Hna.
  destruct Hinv as [Hnone | (p & m & hs & Hctx)].
  - rewrite Hnone. unfold set_in_monitor. simpl. rewrite lookup_insert_eq. simpl.
    intros H. by apply update_fd_frame in H as (_ & _ & _ & ? & _).
  - destruct (ctx_ok_view _ _ _ _ _ Hctx) as (_ & Hes & _). rewrite Hes in Hnotin.
    rewrite (ok_key _ _ _ _ _ Hctx). unfold set_in_monitor.
    rewrite (ok_obj _ _ _ _ _ Hctx).
    pose proof (find_linked sig _ _ _ (lo_linked _ _ _ (ok_list _ _ _ _ _ Hctx))) as Hfind.
    destruct (FindHandlerObj _ _ _) as [q | |]; [|  |done].
    + destruct Hfind as (l1 & l2 & hs1 & h & hs2 & _ & -> & _ & _ & _ & Hsig & _).
      exfalso. apply Hnotin. rewrite fmap_app, fmap_cons, Hsig. set_solver.
    + intros H. by apply update_fd_frame in H as (_ & _ & _ & ? & _).
Qed.

(** X3.  Clearing does not release.  In a state reached by
    SetEventHandler calls, registering a handler for a signal that has no
    entry and then clearing it returns, and leaves the thread with the
    entries it had before, but the handler object that was allocated for
    the registration stays allocated in the pool: the pool is the
    earlier one plus that block.  The context exists afterwards, also
    when there was none before. *)
Theorem register_then_clear_keeps_the_block self calls st0 st sig f st1 :
  SigMonKey st0 !! self = None →
  SetEventHandlers self calls st0 = (Returned, st) →
  (sig ∉ sigNum <$> entries st self) →
  le_sig_SetEventHandler self sig (Some f) st = (Returned, st1) →
  ∃ st2 q, le_sig_SetEventHandler self sig None st1 = (Returned, st2) ∧
    entries st2 self = entries st self ∧
    HandlerObjPool st !! q = None ∧
    HandlerObjPool st2 = <[q := mkHandlerObj sig (Some f)]> (HandlerObjPool st) ∧
    size (HandlerObjPool st2) = S (size (HandlerObjPool st)) ∧
    is_Some (context st2 self).
Proof.
  intros Hnone Hrun Hnotin Hset.
  destruct (SetEventHandlers_inv self calls st0 st (or_introl Hnone) Hrun) as [Hinv _].
  assert (Hna : not_allowed sig = false).
  { unfold le_sig_SetEventHandler in Hset. by destruct (not_allowed sig). }
  destruct (SetEventHandler_entries _ _ _ _ _ Hinv Hset) as [Hinv1 Hes1].
  rewrite spec_append in Hes1 by done.
  destruct Hinv1 as [Hnone1 | (p & m1 & hs1 & Hctx1)].
  { destruct (no_key_view _ _ Hnone1) as (_ & Hnil & _). rewrite Hnil in Hes1.
    by destruct (entries st self). }
  destruct (ctx_ok_view _ _ _ _ _ Hctx1) as (_ & Hhs1 & _).
  destruct (SetEventHandler_present_returns self sig None st1 p m1 hs1 Hctx1) as (st2 & Hclr & _).
  { rewrite <- Hhs1, Hes1, fmap_app. set_solver. }
  exists st2, (le_mem_ForceAlloc (HandlerObjPool st)).
  assert (Hfresh : HandlerObjPool st !! le_mem_ForceAlloc (HandlerObjPool st) = None)
    by apply not_elem_of_dom, is_fresh.
  assert (Hpool : HandlerObjPool st2
    = <[le_mem_ForceAlloc (HandlerObjPool st) := mkHandlerObj sig (Some f)]> (HandlerObjPool st)).
  { rewrite (SetEventHandler_clear_pool _ _ _ _ _ Hclr).
    by apply (SetEventHandler_new_pool self sig f st Returned st1). }
  split_and!; [done | | done | done | |].
  - destruct (SetEventHandler_entries _ _ _ _ _ (or_intror (ex_intro _ p (ex_intro _ m1
      (ex_intro _ hs1 Hctx1)))) Hclr) as [_ ->].
    rewrite Hes1. simpl. rewrite filter_app.
    rewrite (filter_sig_notin (entries st self)) by done.
    rewrite filter_cons_False by (simpl; intros H; by apply H).
    by rewrite filter_nil, app_nil_r.
  - rewrite Hpool. by apply map_size_insert_None.
  - destruct (SetEventHandler_ctx _ _ _ _ _ _ _ _ _ Hctx1 Hclr)
      as (_ & Hk & _ & m' & hs' & Hm' & _).
    exists m'. unfold context. by rewrite Hk.
Qed.

Lemma register_then_clear_keeps_the_block_witness :
  ∃ st2 q,
    le_sig_SetEventHandler 100 SIGUSR1 None
      (snd (le_sig_SetEventHandler 100 SIGUSR1 (Some (UserFunc 2))
         (snd (SetEventHandlers 100 [(SIGTERM, Some (UserFunc 1))] boot))))
    = (Returned, st2) ∧
    entries st2 100 = entries (snd (SetEventHandlers 100 [(SIGTERM, Some (UserFunc 1))] boot)) 100 ∧
    HandlerObjPool (snd (SetEventHandlers 100 [(SIGTERM, Some (UserFunc 1))] boot)) !! q = None ∧
    HandlerObjPool st2
    = <[q := mkHandlerObj SIGUSR1 (Some (UserFunc 2))]>
        (HandlerObjPool (snd (SetEventHandlers 100 [(SIGTERM, Some (UserFunc 1))] boot))) ∧
    size (HandlerObjPool st2)
    = S (size (HandlerObjPool (snd (SetEventHandlers 100 [(SIGTERM, Some (UserFunc 1))] boot)))) ∧
    is_Some (context st2 100).
Proof.
  apply (register_then_clear_keeps_the_block 100 [(SIGTERM, Some (UserFunc 1))] boot).
  - reflexivity.
  - vm_compute. reflexivity.
  - replace (sigNum <$> entries _ 100) with [SIGTERM] by (vm_compute; reflexivity).
    unfold SIGUSR1, SIGTERM. intros H. apply list_elem_of_singleton in H. lia.
  - vm_compute. reflexivity.
Defined.

(** ** A number that is no signal *)

Lemma not_allowed_is_signal sig : not_allowed sig = true → is_signal sig.
Proof.
  unfold not_allowed, is_signal, SIGKILL, SIGSTOP, SIGFPE, SIGILL, SIGSEGV, SIGBUS,
    SIGABRT, SIGIOT, SIGTRAP, SIGSYS, SIGCANCEL, SIGSETXID, _NSIG. lia.
Qed.

Lemma recreate_mask_app pool l1 l2 acc :
  recreate_mask pool (l1 ++ l2) acc
  = match recreate_mask pool l1 acc with
    | MaskOk set => recreate_mask pool l2 set
    | other => other
    end.
Proof.
  revert acc. induction l1 as [|q l1 IH]; intros acc; simpl; [done|].
  destruct (pool !! q) as [h|]; [|done]. by destruct (sigaddset acc (sigNum h)).
Qed.

Lemma sigaddset_no_signal set sig : ¬ is_signal sig → sigaddset set sig = None.
Proof.
  unfold sigaddset, is_signal. intros H.
  destruct (0 <? sig) eqn:H1; destruct (sig <? _NSIG) eqn:H2;
    destruct (sig =? SIGCANCEL) eqn:H3; destruct (sig =? SIGSETXID) eqn:H4; try done.
  exfalso. apply H. lia.
Qed.

(** X4.  A number that is no signal.  In a state reached by
    SetEventHandler calls, registering a handler for a number that
    sigaddset does not accept (one outside 1 .. _NSIG-1, or one of the
    two signals the C library keeps for itself) passes the parameter
    check and ends in the assertion on sigaddset when the mask is
    rebuilt; by then the handler object has been allocated and queued. *)
Theorem SetEventHandler_no_signal_is_fatal self calls st0 st sig f :
  SigMonKey st0 !! self = None →
  SetEventHandlers self calls st0 = (Returned, st) →
  ¬ is_signal sig →
  fst (le_sig_SetEventHandler self sig (Some f) st)
  = Fatal (AssertFailed "sigaddset(&sigSet, handlerObjPtr->sigNum) == 0") ∧
  entries (snd (le_sig_SetEventHandler self sig (Some f) st)) self
  = entries st self ++ [mkHandlerObj sig (Some f)].
Proof.
  intros Hnone Hrun Hsig.
  destruct (SetEventHandlers_inv self calls st0 st (or_introl Hnone) Hrun) as [Hinv _].
  assert (Hna : not_allowed sig = false).
  { destruct (not_allowed sig) eqn:E; [|done]. by apply not_allowed_is_signal in E. }
  unfold le_sig_SetEventHandler. rewrite Hna.
  destruct Hinv as [Hnone' | (p & m & hs & Hctx)].
  - destruct (no_key_view _ _ Hnone') as (_ & -> & _).
    rewrite Hnone'. unfold set_in_monitor. simpl. rewrite lookup_insert_eq. simpl.
    unfold update_fd. simpl. rewrite lookup_insert_eq. simpl.
    rewrite sigaddset_no_signal by done. simpl. split; [done|].
    unfold entries, context. simpl. rewrite lookup_insert_eq. simpl.
    rewrite lookup_insert_eq. simpl. by rewrite lookup_insert_eq.
  - destruct (ctx_ok_view _ _ _ _ _ Hctx) as (_ & -> & _).
    destruct Hctx as [Hkey Hobj [Hlinked Hnodup Hents] Hsigs Hwired].
    rewrite Hkey. unfold set_in_monitor. rewrite Hobj.
    pose proof (find_linked sig _ _ _ Hlinked) as Hfind.
    destruct (FindHandlerObj _ _ _) as [q | |]; [|  |done].
    + destruct Hfind as (l1 & l2 & hs1 & h & hs2 & _ & -> & _ & _ & _ & Hh & _).
      exfalso. apply Hsig. rewrite <- Hh.
      apply Forall_app in Hsigs as [_ Hsigs]. by apply Forall_cons in Hsigs as [? _].
    + assert (Hfresh : HandlerObjPool st !! le_mem_ForceAlloc (HandlerObjPool st) = None)
        by apply not_elem_of_dom, is_fresh.
      unfold update_fd. simpl. rewrite recreate_mask_app.
      rewrite (recreate_mask_linked _ _ hs) by (try done; by apply linked_insert_fresh).
      simpl. rewrite lookup_insert_eq. simpl.
      rewrite sigaddset_no_signal by done. simpl. split; [done|].
      unfold entries, context. simpl. rewrite Hkey. simpl. rewrite lookup_insert_eq.
      simpl. rewrite omap_app. simpl. rewrite lookup_insert_eq.
      f_equal. apply linked_omap. by apply linked_insert_fresh.
Qed.

Lemma SetEventHandler_no_signal_is_fatal_witness :
  fst (le_sig_SetEventHandler 100 0 (Some (UserFunc 2))
         (snd (SetEventHandlers 100 [(SIGTERM, Some (UserFunc 1))] boot)))
  = Fatal (AssertFailed "sigaddset(&sigSet, handlerObjPtr->sigNum) == 0") ∧
  entries (snd (le_sig_SetEventHandler 100 0 (Some (UserFunc 2))
         (snd (SetEventHandlers 100 [(SIGTERM, Some (UserFunc 1))] boot)))) 100
  = entries (snd (SetEventHandlers 100 [(SIGTERM, Some (UserFunc 1))] boot)) 100
    ++ [mkHandlerObj 0 (Some (UserFunc 2))].
Proof.
  apply (SetEventHandler_no_signal_is_fatal 100 [(SIGTERM, Some (UserFunc 1))] boot).
  - reflexivity.
  - vm_compute. reflexivity.
  - unfold is_signal. lia.
Defined.

(** ** The first registration of a thread *)

(** X5.  The first registration needs a descriptor.  When a thread
    without context registers a handler for a signal that passes the
    parameter check and that sigaddset accepts, there are two outcomes.
    Either the call returns: then the thread handles exactly that signal
    through a new signalfd descriptor whose mask is that signal, and the
    number of the descriptor is the lowest one that was free and lies
    below RLIMIT_NOFILE.  Or signalfd has failed and the call is fatal
    ("Could not set signal event handler"): then the descriptors and the
    monitors are as before, and the thread is left with a context that
    holds the new entry but neither a descriptor nor a monitor.  So the
    call cannot return when no number below the limit is free. *)
Theorem first_registration_needs_a_descriptor self sig f st o st' :
  SigMonKey st !! self = None → not_allowed sig = false → is_signal sig →
  le_sig_SetEventHandler self sig (Some f) st = (o, st') →
  (o = Returned ∧ handled st' self = {[sig]} ∧
   ∃ m, context st' self = Some m ∧
        0 ≤ fd m < Z.of_nat (nofile st) ∧ fdtable st !! fd m = None ∧
        (∀ k, 0 ≤ k < fd m → is_Some (fdtable st !! k)) ∧
        fdtable st' = <[fd m := SignalFd {[sig]}]> (fdtable st)) ∨
  (o = Fatal (Msg "Could not set signal event handler: %m" []) ∧
   fdtable st' = fdtable st ∧ fdMonitors st' = fdMonitors st ∧
   entries st' self = [mkHandlerObj sig (Some f)] ∧
   ∃ m, context st' self = Some m ∧ fd m = -1 ∧ monitorRef m = None).
Proof.
  intros Hnone Hna Hsig.
  unfold le_sig_SetEventHandler. rewrite Hna, Hnone.
  unfold set_in_monitor. simpl. rewrite lookup_insert_eq. simpl.
  unfold update_fd. simpl. rewrite lookup_insert_eq. simpl.
  rewrite sigaddset_signal by done. simpl.
  unfold signalfd. simpl.
  destruct (lowest_free_spec (dom (fdtable st))) as (Hb & Hfree & Hmin).
  destruct (Z.ltb_spec (lowest_free (dom (fdtable st))) (Z.of_nat (nofile st)))
    as [Hroom | Hfull].
  - destruct (Z.eqb_spec (lowest_free (dom (fdtable st))) (-1)) as [E | _]; [lia|].
    destruct (not_allowed_kill_stop _ Hna) as [Hk Hs].
    assert (Hmask : kernel_mask ({[sig]} ∪ ∅) = ({[sig]} : gset Z))
      by (unfold kernel_mask; set_solver).
    rewrite Hmask. simpl. intros [= <- <-]. left. split; [done|]. split.
    + unfold handled, entries, context. simpl. rewrite lookup_insert_eq. simpl.
      rewrite lookup_insert_eq. simpl. rewrite lookup_insert_eq. simpl. set_solver.
    + eexists. split; [unfold context; simpl; rewrite lookup_insert_eq; simpl;
                       by rewrite lookup_insert_eq|].
      simpl. split_and!; [lia | lia | by apply not_elem_of_dom | | done].
      intros k Hk'. by apply elem_of_dom, Hmin.
  - simpl. intros [= <- <-]. right. simpl. split_and!; try done.
    + unfold entries, context. simpl. rewrite lookup_insert_eq. simpl.
      rewrite lookup_insert_eq. simpl. by rewrite lookup_insert_eq.
    + eexists. split; [unfold context; simpl; rewrite lookup_insert_eq; simpl;
                       by rewrite lookup_insert_eq|]. done.
Qed.

Lemma first_registration_needs_a_descriptor_witness :
  let r := le_sig_SetEventHandler 100 SIGUSR1 (Some (UserFunc 1)) boot in
  (fst r = Returned ∧ handled (snd r) 100 = {[SIGUSR1]} ∧
   ∃ m, context (snd r) 100 = Some m ∧
        0 ≤ fd m < Z.of_nat (nofile boot) ∧ fdtable boot !! fd m = None ∧
        (∀ k, 0 ≤ k < fd m → is_Some (fdtable boot !! k)) ∧
        fdtable (snd r) = <[fd m := SignalFd {[SIGUSR1]}]> (fdtable boot)) ∨
  (fst r = Fatal (Msg "Could not set signal event handler: %m" []) ∧
   fdtable (snd r) = fdtable boot ∧ fdMonitors (snd r) = fdMonitors boot ∧
   entries (snd r) 100 = [mkHandlerObj SIGUSR1 (Some (UserFunc 1))] ∧
   ∃ m, context (snd r) 100 = Some m ∧ fd m = -1 ∧ monitorRef m = None).
Proof.
  intros r.
  apply (first_registration_needs_a_descriptor 100 SIGUSR1 (UserFunc 1) boot (fst r) (snd r)).
  - reflexivity.
  - reflexivity.
  - unfold is_signal, SIGUSR1, SIGCANCEL, SIGSETXID, _NSIG. lia.
  - apply surjective_pairing.
Defined.

Lemma SetEventHandler_first_returns self sig f st :
  SigMonKey st !! self = None → not_allowed sig = false → is_signal sig →
  (size (fdtable st) < nofile st)%nat →
  ∃ st', le_sig_SetEventHandler self sig (Some f) st = (Returned, st').
Proof.
  intros Hnone Hna Hsig Hroom.
  unfold le_sig_SetEventHandler. rewrite Hna, Hnone.
  unfold set_in_monitor. simpl. rewrite lookup_insert_eq. simpl.
  unfold update_fd. simpl. rewrite lookup_insert_eq. simpl.
  rewrite sigaddset_signal by done. simpl.
  unfold signalfd. simpl.
  destruct (lowest_free_spec (dom (fdtable st))) as (Hb & _ & _).
  rewrite size_dom in Hb.
  destruct (Z.ltb_spec (lowest_free (dom (fdtable st))) (Z.of_nat (nofile st)))
    as [_ | Hfull]; [|lia].
  destruct (Z.eqb_spec (lowest_free (dom (fdtable st))) (-1)) as [E | _]; [lia|].
  simpl. eauto.
Qed.

(** ** Start-up *)

(** X6.  The default handling of SIGTERM.  After [sig_Init], in a
    process with room for one more descriptor, a thread that knows its
    tid installs the default termination handler successfully; SIGTERM
    is then blocked in the thread and is the one signal it handles, and
    when the descriptor delivers a SIGTERM record the dispatcher logs
    "Terminated" and the process exits with EXIT_SUCCESS, whatever
    records are queued behind it. *)
Theorem default_term_handler_exits st self user reads r :
  self ≠ -1 → (size (fdtable st) < nofile st)%nat →
  0 < numBytesRead r → ssi_signo r = SIGTERM →
  ∃ st', le_sig_InstallDefaultTermHandler self (snd (sig_Init true st)) = (Returned, st') ∧
         SIGTERM ∈ blocked st' self ∧ handled st' self = {[SIGTERM]} ∧
         drain user self (r :: reads) st'
         = (Exited 0, add_log (Crit (Msg "Terminated" [])) st').
Proof.
  intros Hself Hroom Hr Hsigno.
  unfold le_sig_InstallDefaultTermHandler, le_sig_Block.
  destruct (Z.eqb_spec self (-1)) as [? | _]; [done|].
  assert (Hterm : is_signal SIGTERM)
    by (unfold is_signal, SIGTERM, SIGCANCEL, SIGSETXID, _NSIG; lia).
  rewrite sigaddset_signal by done.
  set (st1 := pthread_sigmask_block self _ _).
  assert (Hnone : SigMonKey st1 !! self = None).
  { unfold st1. simpl. by destruct (self =? pid _). }
  assert (Hroom1 : (size (fdtable st1) < nofile st1)%nat).
  { unfold st1. simpl. by destruct (self =? pid _). }
  destruct (SetEventHandler_first_returns self SIGTERM TermSignalHandlerPtr st1
              Hnone eq_refl Hterm Hroom1) as (st' & Hcall).
  exists st'. split; [done|].
  destruct (SetEventHandler_first _ _ _ _ _ _ Hnone Hcall)
    as (_ & Hmask & [[? _] | (p & m' & _ & _ & _ & Hctx)]); [done|].
  specialize (Hctx eq_refl).
  destruct (ctx_ok_view _ _ _ _ _ Hctx) as (_ & Hes & Hh).
  split_and!.
  - unfold blocked. rewrite Hmask. unfold st1. simpl. rewrite lookup_insert_eq. simpl.
    unfold kernel_mask, SIGTERM, SIGKILL, SIGSTOP. set_solver.
  - rewrite Hh. simpl. set_solver.
  - cbn [drain]. rewrite (turn_record _ _ _ _ _ _ Hctx Hr).
    unfold current_handler. rewrite Hes, Hsigno. simpl.
    done.
Qed.

Lemma default_term_handler_exits_witness :
  ∃ st', le_sig_InstallDefaultTermHandler 100 (snd (sig_Init true boot)) = (Returned, st') ∧
         SIGTERM ∈ blocked st' 100 ∧ handled st' 100 = {[SIGTERM]} ∧
         drain (λ _ _ st, (Returned, st)) 100 [mkRead 128 0 SIGTERM] st'
         = (Exited 0, add_log (Crit (Msg "Terminated" [])) st').
Proof.
  apply (default_term_handler_exits boot 100 (λ _ _ st, (Returned, st)) []
           (mkRead 128 0 SIGTERM)).
  - lia.
  - vm_compute. lia.
  - simpl. lia.
  - reflexivity.
Defined.

(** ** Giving up the context *)

Lemma release_handlers_lookup l pool q :
  foldl (λ acc x, delete x acc) pool l !! q
  = if decide (q ∈ l) then None else (pool : gmap positive HandlerObj_t) !! q.
Proof.
  revert pool. induction l as [|x l IH]; intros pool; cbn [foldl].
  - destruct (decide (q ∈ [])) as [Hin |]; [by apply elem_of_nil in Hin | done].
  - rewrite IH. destruct (decide (q ∈ l)) as [Hin | Hnotin].
    + by rewrite decide_True by (by right).
    + destruct (decide (q = x)) as [-> | Hne].
      * rewrite decide_True by left. apply lookup_delete_eq.
      * rewrite decide_False by (intros [?|?]%elem_of_cons; done).
        by apply lookup_delete_ne.
Qed.

(** X7.  What DeleteAll releases.  For a thread with a context, in a
    state reached by SetEventHandler calls, DeleteAll returns, and in one
    and the same state whatever signals arrive meanwhile: the descriptor
    of the context is a signalfd, whose close is not interrupted, so that
    the first close(2) succeeds and the loop around it does not turn.  In
    that state the blocks of the handler pool that were linked in the
    context are released and every other block of the pool is as it was,
    so that a handler object unlinked by an earlier clear stays
    allocated; the signals blocked in the thread are still blocked;
    nothing is logged. *)
Theorem DeleteAll_releases_linked_objects_only self calls st0 st m :
  SigMonKey st0 !! self = None →
  SetEventHandlers self calls st0 = (Returned, st) →
  context st self = Some m →
  ∃ st', (∀ intr, le_sig_DeleteAll self intr st = (Returned, st')) ∧
         (∀ q, HandlerObjPool st' !! q
               = if decide (q ∈ handlerObjList m) then None else HandlerObjPool st !! q) ∧
         blocked st' self = blocked st self ∧ logged st' = logged st.
Proof.
  intros Hnone Hrun Hm.
  destruct (SetEventHandlers_inv self calls st0 st (or_introl Hnone) Hrun) as [Hinv _].
  destruct Hinv as [Hnone' | (p & m' & hs & Hctx)].
  { destruct (no_key_view _ _ Hnone') as (Hc & _). congruence. }
  destruct (ctx_ok_view _ _ _ _ _ Hctx) as (Hc & _).
  assert (m' = m) as -> by congruence.
  eexists. split; [intros intr; by apply (DeleteAll_ctx self intr st p m hs)|].
  split_and!.
  - intros q. simpl. rewrite release_handlers_lookup. by destruct (monitorRef m).
  - unfold blocked. simpl. by destruct (monitorRef m).
  - simpl. by destruct (monitorRef m).
Qed.

Lemma DeleteAll_releases_linked_objects_only_witness :
  ∃ st', (∀ intr, le_sig_DeleteAll 100 intr
                    (snd (SetEventHandlers 100 [(SIGTERM, Some (UserFunc 1))] boot))
                  = (Returned, st')) ∧
         (∀ q, HandlerObjPool st' !! q
               = if decide (q ∈ [1%positive]) then None
                 else HandlerObjPool
                        (snd (SetEventHandlers 100 [(SIGTERM, Some (UserFunc 1))] boot)) !! q) ∧
         blocked st' 100
         = blocked (snd (SetEventHandlers 100 [(SIGTERM, Some (UserFunc 1))] boot)) 100 ∧
         logged st' = logged (snd (SetEventHandlers 100 [(SIGTERM, Some (UserFunc 1))] boot)).
Proof.
  apply (DeleteAll_releases_linked_objects_only 100 [(SIGTERM, Some (UserFunc 1))] boot
           (snd (SetEventHandlers 100 [(SIGTERM, Some (UserFunc 1))] boot))
           (mkMonitorObj (Some 1%positive) 3 [1%positive])).
  - reflexivity.
  - vm_compute. reflexivity.
  - vm_compute. reflexivity.
Defined.



(** X9.  A descriptor that is no longer open.  When the descriptor of
    the thread's context is not open any more, DeleteAll fails on the
    first close(2) without retrying, EBADF not being EINTR: it is fatal
    with "Could not close file descriptor.", after the monitor has been
    deleted and before anything is released. *)
Theorem DeleteAll_closed_descriptor_is_fatal self intr st p m :
  SigMonKey st !! self = Some p → MonitorObjPool st !! p = Some m →
  fdtable st !! fd m = None →
  le_sig_DeleteAll self intr st
  = (Fatal (Msg "Could not close file descriptor." []),
     le_fdMonitor_Delete (monitorRef m) st).
Proof.
  intros Hk Hp Hfd. unfold le_sig_DeleteAll. rewrite Hk, Hp.
  rewrite close_loop_closed; [done|]. by destruct (monitorRef m).
Qed.

Lemma DeleteAll_closed_descriptor_is_fatal_witness :
  le_sig_DeleteAll 100 [true]
    (set_fdtable (delete 3) (snd (SetEventHandlers 100 [(SIGTERM, Some (UserFunc 1))] boot)))
  = (Fatal (Msg "Could not close file descriptor." []),
     le_fdMonitor_Delete (monitorRef (mkMonitorObj (Some 1%positive) 3 [1%positive]))
       (set_fdtable (delete 3)
          (snd (SetEventHandlers 100 [(SIGTERM, Some (UserFunc 1))] boot)))).
Proof.
  apply (DeleteAll_closed_descriptor_is_fatal 100 [true] _ 1%positive).
  - vm_compute. reflexivity.
  - vm_compute. reflexivity.
  - vm_compute. reflexivity.
Defined.



(** * Further properties of the dispatcher *)

Lemma land_lnot_POLLIN events : Z.land events (Z.lnot POLLIN) = 2 * (events / 2).
Proof.
  change POLLIN with (Z.ones 1).
  rewrite <- Z.ldiff_land, Z.ldiff_ones_r by lia.
  rewrite Z.shiftr_div_pow2, Z.shiftl_mul_pow2 by lia.
  change (2 ^ 1) with 2. lia.
Qed.

Lemma land_POLLIN events : Z.land events POLLIN = if Z.odd events then 1 else 0.
Proof.
  change POLLIN with (Z.ones 1). rewrite Z.land_ones by lia.
  change (2 ^ 1) with 2. apply Zmod_odd.
Qed.

(** X10.  The event set.  The callback of the descriptor reads it when
    the event set is empty or is POLLIN alone, without logging; for any
    other event set it logs "Unexpected event set" as critical, and then
    reads if the POLLIN bit is among the bits set and returns without
    reading if not. *)
Theorem OurSigHandler_event_gate user self events reads st :
  OurSigHandler user self events reads st
  = if decide (events = 0 ∨ events = POLLIN) then drain user self reads st
    else
      let st1 := add_log (Crit (Msg "Unexpected event set (0x%hx) from signal fd."
                                    [AInt events])) st in
      if Z.odd events then drain user self reads st1 else (Returned, st1).
Proof.
  unfold OurSigHandler. rewrite land_lnot_POLLIN, land_POLLIN.
  destruct (decide (events = 0 ∨ events = POLLIN)) as [H | H].
  - replace (2 * (events / 2) =? 0) with true; [done|].
    symmetry. apply Z.eqb_eq. unfold POLLIN in H. destruct H as [-> | ->]; done.
  - replace (2 * (events / 2) =? 0) with false.
    + simpl. by destruct (Z.odd events).
    + symmetry. apply Z.eqb_neq. intros E. apply H. unfold POLLIN.
      pose proof (Z.div_mod events 2 ltac:(lia)) as Hd.
      pose proof (Z.mod_pos_bound events 2 ltac:(lia)). lia.
Qed.

(** ** The order of the callbacks *)

Lemma turn_same_objects self r st st' :
  same_registry_objects st st' →
  OurSigHandler_turn self r st' = OurSigHandler_turn self r st.
Proof. intros (Hk & Hm & Hh). unfold OurSigHandler_turn. by rewrite Hk, Hm, Hh. Qed.

Lemma invocations_cons st self r records :
  invocations st self (r :: records)
  = match current_handler st self (ssi_signo r) with
    | Some f => (f, ssi_signo r) :: invocations st self records
    | None => invocations st self records
    end.
Proof.
  unfold invocations. simpl. by destruct (current_handler st self (ssi_signo r)).
Qed.

Lemma drain_same_objects user self st records r0 rest p m hs :
  ctx_ok st self p m hs →
  (∀ a s st1, same_registry_objects st1 (snd (user a s st1))) →
  Forall (λ r, 0 < numBytesRead r) records → numBytesRead r0 = 0 →
  ∀ st1, same_registry_objects st st1 →
    drain user self (records ++ r0 :: rest) st1
    = invoke_all user (invocations st self records) st1.
Proof.
  intros Hctx Huser Hrec Hr0. induction Hrec as [|r records Hr _ IH]; intros st1 Hst1.
  - simpl. unfold OurSigHandler_turn. by rewrite Hr0.
  - cbn [app drain]. rewrite (turn_same_objects _ _ _ _ Hst1).
    rewrite (turn_record _ _ _ _ _ _ Hctx Hr).
    rewrite invocations_cons.
    destruct (current_handler st self (ssi_signo r)) as [f|]; simpl; [|by apply IH].
    destruct f as [|a]; simpl; [done|].
    specialize (Huser a (ssi_signo r) st1).
    destruct (user a (ssi_signo r) st1) as [o st2]. destruct o; try done.
    apply IH. destruct Hst1 as (? & ? & ?), Huser as (? & ? & ?). simpl in *.
    split_and!; congruence.
Qed.

(** X11.  The order of the callbacks.  Take a thread with a context, in
    a state reached by SetEventHandler calls, and callbacks that leave
    the key and the two pools alone.  When the descriptor delivers a
    batch of records and then reports that nothing is left, the
    dispatcher makes exactly the calls [invocations] lists: for each
    record whose signal has a handler, in the order of the records, that
    handler with the record's signal number; it stops with the first
    callback that does not return; whatever the descriptor would have
    delivered after the end of the batch is not read. *)
Theorem drain_calls_handlers_in_record_order user self calls st0 st records r0 rest :
  SigMonKey st0 !! self = None →
  SetEventHandlers self calls st0 = (Returned, st) →
  is_Some (context st self) →
  (∀ a s st1, same_registry_objects st1 (snd (user a s st1))) →
  Forall (λ r, 0 < numBytesRead r) records → numBytesRead r0 = 0 →
  drain user self (records ++ r0 :: rest) st
  = invoke_all user (invocations st self records) st.
Proof.
  intros Hnone Hrun [m Hm] Huser Hrec Hr0.
  destruct (SetEventHandlers_inv self calls st0 st (or_introl Hnone) Hrun) as [Hinv _].
  destruct Hinv as [Hnone' | (p & m' & hs & Hctx)].
  { destruct (no_key_view _ _ Hnone') as (Hc & _). congruence. }
  by apply (drain_same_objects user self st records r0 rest p m' hs).
Qed.

Lemma drain_calls_handlers_in_record_order_witness :
  drain (λ a s st, (Returned, add_log (Warn (Msg "handler %d" [AInt s])) st)) 100
    ([mkRead 128 0 SIGUSR1; mkRead 128 0 SIGTERM; mkRead 128 0 SIGUSR1]
       ++ mkRead 0 0 0 :: [mkRead 128 0 SIGTERM])
    (snd (SetEventHandlers 100 [(SIGTERM, Some (UserFunc 1)); (SIGUSR1, Some (UserFunc 2))] boot))
  = invoke_all (λ a s st, (Returned, add_log (Warn (Msg "handler %d" [AInt s])) st))
      (invocations
         (snd (SetEventHandlers 100
                 [(SIGTERM, Some (UserFunc 1)); (SIGUSR1, Some (UserFunc 2))] boot)) 100
         [mkRead 128 0 SIGUSR1; mkRead 128 0 SIGTERM; mkRead 128 0 SIGUSR1])
      (snd (SetEventHandlers 100 [(SIGTERM, Some (UserFunc 1)); (SIGUSR1, Some (UserFunc 2))] boot)).
Proof.
  apply (drain_calls_handlers_in_record_order _ 100
           [(SIGTERM, Some (UserFunc 1)); (SIGUSR1, Some (UserFunc 2))] boot).
  - reflexivity.
  - vm_compute. reflexivity.
  - vm_compute. eauto.
  - intros a s st1. simpl. done.
  - repeat constructor.
  - reflexivity.
Defined.

(** * Further properties of the installer *)

Lemma strcasecmp_is0_lower a b : strcasecmp_is0 a b = true ↔ lower a = lower b.
Proof.
  revert b. induction a as [|x a IH]; intros [|y b]; simpl; try done.
  destruct (Ascii.eqb_spec (tolower x) (tolower y)) as [E | E].
  - rewrite IH. split; [by intros -> ; rewrite E | by intros [= _ ?]].
  - split; [done | intros [= ? _]; done].
Qed.

Lemma disabled_lower getenv :
  match getenv "SIGNAL_SHOW_INFO" with
  | Some v => strcasecmp_is0 v "disable" || strcasecmp_is0 v "no"
  | None => false
  end = show_info_disabled getenv.
Proof.
  unfold show_info_disabled. destruct (getenv "SIGNAL_SHOW_INFO") as [v|]; [|done].
  apply eq_true_iff_eq. rewrite orb_true_iff, !strcasecmp_is0_lower.
  by rewrite bool_decide_eq_true.
Qed.

Lemma install_crash_signal name sig s :
  sig ∈ crash_signals →
  install name sig one_shot s = (<[sig := one_shot]> (fst s), snd s).
Proof.
  intros H. unfold crash_signals in H.
  repeat (apply elem_of_cons in H as [-> | H]); try by apply elem_of_nil in H.
  all: by destruct s.
Qed.

Lemma InstallShowStackHandler_result getenv scan_u cfg :
  ∃ l, le_sig_InstallShowStackHandler getenv scan_u cfg
       = (if show_info_disabled getenv then cfg
          else mkCrashCfg
                 (<[SIGABRT := one_shot]> (<[SIGFPE := one_shot]> (<[SIGILL := one_shot]>
                    (<[SIGBUS := one_shot]> (<[SIGSEGV := one_shot]> (actions cfg))))))
                 (port_after getenv scan_u cfg),
          l) ∧
       Forall (λ e, ∃ d, e = Warn d) l.
Proof.
  unfold le_sig_InstallShowStackHandler, port_after. rewrite disabled_lower.
  destruct (show_info_disabled getenv).
  { eexists. split; [done|]. repeat constructor. eauto. }
  fold one_shot.
  rewrite (install_crash_signal "SIGSEGV" SIGSEGV) by (unfold crash_signals; set_solver).
  rewrite (install_crash_signal "SIGBUS" SIGBUS) by (unfold crash_signals; set_solver).
  rewrite (install_crash_signal "SIGILL" SIGILL) by (unfold crash_signals; set_solver).
  rewrite (install_crash_signal "SIGFPE" SIGFPE) by (unfold crash_signals; set_solver).
  rewrite (install_crash_signal "SIGABRT" SIGABRT) by (unfold crash_signals; set_solver).
  cbn [fst snd].
  destruct (getenv "GDBSERVER_PORT") as [v|]; simpl; [destruct (scan_u v); simpl|].
  - eexists. split; [done|]. constructor.
  - eexists. split; [done|]. repeat constructor. eauto.
  - eexists. split; [done|]. constructor.
Qed.

(** X12.  The dispositions after the installer.  Unless SIGNAL_SHOW_INFO
    is "disable" or "no" in some letter case, the installer gives five
    signals (segmentation fault, bus error, illegal instruction,
    floating-point exception, abort) the crash handler with
    SA_NOCLDSTOP | SA_SIGINFO | SA_RESETHAND, and the disposition of
    every other signal is what it was; when it is disabled, no
    disposition changes.  None of the five sigaction calls can fail, so
    the installer never logs at a level above warning. *)
Theorem InstallShowStackHandler_dispositions getenv scan_u cfg sig :
  actions (fst (le_sig_InstallShowStackHandler getenv scan_u cfg)) !! sig
  = (if show_info_disabled getenv then actions cfg !! sig
     else if decide (sig ∈ crash_signals) then Some one_shot
     else actions cfg !! sig) ∧
  Forall (λ e, ∃ d, e = Warn d) (snd (le_sig_InstallShowStackHandler getenv scan_u cfg)).
Proof.
  destruct (InstallShowStackHandler_result getenv scan_u cfg) as (l & -> & Hl).
  split; [|done]. cbn [fst].
  destruct (show_info_disabled getenv); [done|]. cbn [actions].
  destruct (decide (sig ∈ crash_signals)) as [H | H].
  - unfold crash_signals in H.
    repeat (apply elem_of_cons in H as [-> | H]); try by apply elem_of_nil in H.
    all: repeat (rewrite lookup_insert_ne
                   by (unfold SIGSEGV, SIGBUS, SIGILL, SIGFPE, SIGABRT; lia)).
    all: by rewrite lookup_insert_eq.
  - rewrite !lookup_insert_ne; [done|..];
      intros <-; apply H; unfold crash_signals; set_solver.
Qed.

(** X13.  Running the installer again.  The port left in GdbServerPort
    is the number scanned from GDBSERVER_PORT when the installer is not
    disabled and the variable is set and scans, and the previous port
    otherwise; and with the environment unchanged, a second run of the
    installer leaves the configuration of the first. *)
Theorem InstallShowStackHandler_idempotent getenv scan_u cfg :
  GdbServerPort (fst (le_sig_InstallShowStackHandler getenv scan_u cfg))
  = port_after getenv scan_u cfg ∧
  fst (le_sig_InstallShowStackHandler getenv scan_u
         (fst (le_sig_InstallShowStackHandler getenv scan_u cfg)))
  = fst (le_sig_InstallShowStackHandler getenv scan_u cfg).
Proof.
  destruct (InstallShowStackHandler_result getenv scan_u cfg) as (l & -> & _).
  cbn [fst].
  destruct (InstallShowStackHandler_result getenv scan_u
              (if show_info_disabled getenv then cfg
               else mkCrashCfg
                 (<[SIGABRT := one_shot]> (<[SIGFPE := one_shot]> (<[SIGILL := one_shot]>
                    (<[SIGBUS := one_shot]> (<[SIGSEGV := one_shot]> (actions cfg))))))
                 (port_after getenv scan_u cfg))) as (l' & -> & _).
  cbn [fst]. unfold port_after.
  destruct (show_info_disabled getenv) eqn:Hd; [done|]. cbn [actions GdbServerPort].
  split; [done|]. f_equal.
  - apply map_eq. intros i.
    destruct (decide (i = SIGABRT)) as [-> | ?]; [by rewrite !lookup_insert_eq|].
    rewrite (lookup_insert_ne _ SIGABRT i) by done.
    rewrite (lookup_insert_ne _ SIGABRT i) by done.
    destruct (decide (i = SIGFPE)) as [-> | ?]; [by rewrite !lookup_insert_eq|].
    rewrite (lookup_insert_ne _ SIGFPE i) by done.
    rewrite (lookup_insert_ne _ SIGFPE i) by done.
    destruct (decide (i = SIGILL)) as [-> | ?]; [by rewrite !lookup_insert_eq|].
    rewrite (lookup_insert_ne _ SIGILL i) by done.
    rewrite (lookup_insert_ne _ SIGILL i) by done.
    destruct (decide (i = SIGBUS)) as [-> | ?]; [by rewrite !lookup_insert_eq|].
    rewrite (lookup_insert_ne _ SIGBUS i) by done.
    rewrite (lookup_insert_ne _ SIGBUS i) by done.
    destruct (decide (i = SIGSEGV)) as [-> | ?]; [by rewrite !lookup_insert_eq|].
    rewrite (lookup_insert_ne _ SIGSEGV i) by done.
    rewrite (lookup_insert_ne _ SIGSEGV i) by done.
    repeat (rewrite lookup_insert_ne by done). done.
  - by destruct (getenv "GDBSERVER_PORT" ≫= scan_u).
Qed.

(** * Further properties of the crash handler *)

(** ** Pieces and what they add *)

Lemma yields_bind {A B} (Q : Event → Prop) (R : list Event → Prop)
    (T : Flow B → list Event → Prop) (m : Handler A) (k : A → Handler B) :
  (∀ l1 f l2, Forall Q l1 → T f l2 → T f (l1 ++ l2)) →
  (∀ l, R l → T Return l) → (∀ l, Forall Q l → T Spin l) →
  adds Q R m → (∀ a, yields T (k a)) → yields T (bind m k).
Proof.
  intros Hpre HR HS Hm Hk t. unfold adds, yields in Hm, Hk. unfold bind.
  destruct (Hm t) as (more & Hev & Hsh).
  destruct (m t) as [[a| |] t1]; simpl in *.
  - destruct (Hk a t1) as (more' & Hev' & HT).
    exists (more ++ more'). rewrite Hev', Hev, app_assoc. split; [done|]. by apply Hpre.
  - exists more. split; [done|]. by apply HR.
  - exists more. split; [done|]. by apply HS.
Qed.

Section Pieces.

Variables (sig : Z) (c : Crash) (wr : nat → bool).
Variables (Q : Event → Prop) (R : list Event → Prop).
Hypothesis Q_write : ∀ b, Q (EvWrite b true).
Hypothesis Q_close : ∀ f, Q (EvClose f).
Hypothesis R_failed : ∀ b, R [EvWrite b false; EvRaise sig].
Hypothesis R_failed_close : ∀ b f, R [EvWrite b false; EvClose f; EvRaise sig].
Hypothesis R_after : ∀ l1 l2, Forall Q l1 → R l2 → R (l1 ++ l2).

Lemma adds_ret {A} (a : A) : adds Q R (ret a).
Proof. intros t. exists []. simpl. rewrite app_nil_r. split; [done | constructor]. Qed.

Lemma adds_spin {A} : adds Q R (@spin A).
Proof. intros t. exists []. simpl. rewrite app_nil_r. split; [done | constructor]. Qed.

Lemma adds_emit e : Q e → adds Q R (emit e).
Proof. intros He t. exists [e]. simpl. split; [done|]. by repeat constructor. Qed.

Lemma adds_bind {A B} (m : Handler A) (k : A → Handler B) :
  adds Q R m → (∀ a, adds Q R (k a)) → adds Q R (bind m k).
Proof.
  intros Hm Hk. apply (yields_bind Q R); try done.
  intros l1 [a| |] l2 H1 H2; [by apply Forall_app | by apply R_after | by apply Forall_app].
Qed.

Lemma adds_CHECK_WRITE b : adds Q R (CHECK_WRITE sig wr b).
Proof.
  intros t. unfold CHECK_WRITE, bind, write, emit, leave, ret.
  destruct (wr (nwrites t)); simpl.
  - exists [EvWrite b true]. split; [done|]. by repeat constructor.
  - exists [EvWrite b false; EvRaise sig]. rewrite <- app_assoc. by split.
Qed.

Lemma adds_write_or_close b f (k : Handler unit) :
  adds Q R k →
  adds Q R (bind (write wr b)
              (λ full, if full then k
                       else bind (emit (EvClose f)) (λ _, bind (emit (EvRaise sig)) (λ _, leave)))).
Proof.
  intros Hk t. unfold adds, yields in Hk.
  set (t1 := mkTrace (S (nwrites t)) (events t ++ [EvWrite b true])).
  assert (E : bind (write wr b)
                (λ full, if full then k
                         else bind (emit (EvClose f))
                                (λ _, bind (emit (EvRaise sig)) (λ _, leave))) t
              = if wr (nwrites t) then k t1
                else (Return, mkTrace (S (nwrites t))
                                (events t ++ [EvWrite b false; EvClose f; EvRaise sig]))).
  { unfold bind, write, emit, leave. destruct (wr (nwrites t)); simpl; [done|].
    by rewrite <- !app_assoc. }
  rewrite E. destruct (wr (nwrites t)).
  - destruct (Hk t1) as (more & Hev & Hsh). simpl in Hev.
    exists (EvWrite b true :: more). rewrite Hev, <- app_assoc. split; [done|].
    destruct (fst (k t1)) as [a| |].
    + by constructor.
    + by apply (R_after [EvWrite b true]); [repeat constructor|].
    + by constructor.
  - exists [EvWrite b false; EvClose f; EvRaise sig]. simpl.
    split; [done | apply R_failed_close].
Qed.

Lemma adds_cmdline_loop reads : adds Q R (cmdline_loop sig wr reads).
Proof.
  induction reads as [|r reads IH]; cbn [cmdline_loop]; [apply adds_ret|].
  destruct (0 <? rc_of r); [|apply adds_ret].
  by apply adds_write_or_close.
Qed.

Lemma adds_maps_loop content line len : adds Q R (maps_loop sig wr content line len).
Proof.
  revert line len. induction content as [|ch content IH]; intros line len;
    cbn [maps_loop]; [apply adds_ret|].
  destruct (Ascii.eqb newline ch).
  - apply adds_write_or_close. apply IH.
  - destruct (len + 1 <? 256); apply IH.
Qed.

Lemma adds_arm_frames fuel regs base mem addr frame :
  adds Q R (arm_frames sig wr fuel regs base mem addr frame).
Proof.
  revert addr frame. induction fuel as [|fuel IH]; intros addr frame; cbn [arm_frames];
    [apply adds_spin|].
  apply adds_bind; [apply adds_CHECK_WRITE|]. intros _.
  destruct (_ || _); [apply adds_ret|].
  destruct (addr =? arm_pc regs); [apply IH|].
  destruct (frame <=? mem (frame - 4)); [apply adds_ret | apply IH].
Qed.

Lemma adds_arm_stack lines mem frame : adds Q R (arm_stack sig wr lines mem frame).
Proof.
  revert frame. induction lines as [|lines IH]; intros frame; cbn [arm_stack];
    [apply adds_ret|].
  apply adds_bind; [apply adds_CHECK_WRITE | intros _; apply IH].
Qed.

Lemma adds_backtrace_loop n addrs : adds Q R (backtrace_loop sig wr n addrs).
Proof.
  revert n. induction addrs as [|a addrs IH]; intros n; cbn [backtrace_loop];
    [apply adds_ret|].
  apply adds_bind; [apply adds_CHECK_WRITE | intros _; apply IH].
Qed.

Ltac adds_step :=
  first [ apply adds_CHECK_WRITE | apply adds_ret
        | apply adds_cmdline_loop | apply adds_maps_loop | apply adds_arm_frames
        | apply adds_arm_stack | apply adds_backtrace_loop
        | apply adds_emit; apply Q_close
        | apply adds_bind; [|intros ?] ].

Lemma adds_intro_section : adds Q R (intro_section sig c wr).
Proof. unfold intro_section. repeat adds_step. Qed.

Lemma adds_version_section : adds Q R (version_section sig c wr).
Proof.
  unfold version_section. adds_step; [adds_step|].
  destruct (version_file c) as [r|]; [|adds_step].
  adds_step; [adds_step|]. destruct (0 <? rc_of r); repeat adds_step.
Qed.

Lemma adds_cmdline_section : adds Q R (cmdline_section sig c wr).
Proof.
  unfold cmdline_section. adds_step; [adds_step|].
  destruct (cmdline_file c); repeat adds_step.
Qed.

Lemma adds_maps_section : adds Q R (maps_section sig c wr).
Proof.
  unfold maps_section. adds_step; [adds_step|].
  destruct (maps_file c); repeat adds_step.
Qed.

Lemma adds_backtrace_section fuel : adds Q R (backtrace_section sig c wr fuel).
Proof.
  unfold backtrace_section. adds_step; [adds_step|].
  destruct (machine c); repeat adds_step.
Qed.

End Pieces.

(** ** The final raise *)

Lemma ends_with_after sig c l1 l2 :
  Forall not_raise l1 → ends_with sig c l2 → ends_with sig c (l1 ++ l2).
Proof.
  intros H1 (pre & e & -> & Hpre & He). exists (l1 ++ pre), e.
  rewrite app_assoc. split_and!; [done | by apply Forall_app | done].
Qed.

Lemma adds_gdb_section_raise sig c : adds not_raise (ends_with sig c) (gdb_section c).
Proof.
  intros t. unfold gdb_section.
  destruct (gdbServerPort c =? 0) eqn:Hport.
  { exists []. simpl. rewrite app_nil_r. split; [done | constructor]. }
  apply Z.eqb_neq in Hport. unfold bind, emit, ret, leave. simpl.
  destruct (fork_ret c =? 0) eqn:Hfork; simpl.
  - apply Z.eqb_eq in Hfork. destruct (exec_fails c) eqn:Hexec; simpl.
    + eexists. rewrite <- !app_assoc. split; [done|]. simpl.
      repeat constructor; by intros s.
    + eexists. rewrite <- !app_assoc. split; [done|]. simpl.
      exists [EvFork], (EvExecvpe [Lit "gdbserver"; Printf ":%u" [AInt (gdbServerPort c)];
                                    Lit "--attach"; Printf "%d" [AInt (c_pid c)]]).
      split_and!; [done | repeat constructor; by intros s |].
      right. eauto.
  - eexists. rewrite <- !app_assoc. split; [done|]. simpl.
    repeat constructor; by intros s.
Qed.

Lemma yields_final_raise sig c : yields (run_end sig c) (emit (EvRaise sig)).
Proof.
  intros t. exists [EvRaise sig]. split; [done|]. simpl.
  exists [], (EvRaise sig). split_and!; [done | constructor | by left].
Qed.

(** X14.  The signal is raised once, last.  In any run of the handler,
    for whatever signal, circumstances, build and behaviour of the
    writes: a run that ends, by falling off the end of the handler or by
    an early return, has raised the signal as its very last action and
    has not raised anything before, the one exception being the forked
    child in which execvpe has succeeded; and as long as the frame walk
    is turning nothing has been raised. *)
Theorem signal_is_raised_once_at_the_end sig c wr fuel :
  match fst (crash_run sig c wr fuel) with
  | Spin => Forall not_raise (events (snd (crash_run sig c wr fuel)))
  | _ => ∃ pre e, events (snd (crash_run sig c wr fuel)) = pre ++ [e] ∧
                  Forall not_raise pre ∧ last_act sig c e
  end.
Proof.
  assert (Hw : ∀ b, not_raise (EvWrite b true)) by (by intros b s).
  assert (Hc : ∀ f, not_raise (EvClose f)) by (by intros f s).
  assert (Hf : ∀ b, ends_with sig c [EvWrite b false; EvRaise sig]).
  { intros b. exists [EvWrite b false], (EvRaise sig).
    split_and!; [done | repeat constructor; by intros s | by left]. }
  assert (Hfc : ∀ b f, ends_with sig c [EvWrite b false; EvClose f; EvRaise sig]).
  { intros b f. exists [EvWrite b false; EvClose f], (EvRaise sig).
    split_and!; [done | repeat constructor; by intros s | by left]. }
  pose proof (ends_with_after sig c) as Ha.
  assert (Hpre : ∀ l1 (f : Flow unit) l2,
            Forall not_raise l1 → run_end sig c f l2 → run_end sig c f (l1 ++ l2)).
  { intros l1 [a| |] l2 H1 H2; simpl in *; [by apply Ha | by apply Ha | by apply Forall_app]. }
  assert (Hrun : yields (run_end sig c) (ShowStackSignalHandler sig c wr fuel)).
  { unfold ShowStackSignalHandler, after_version.
    apply (yields_bind not_raise (ends_with sig c)); [done | done | done | |intros _].
    { by apply adds_intro_section. }
    apply (yields_bind not_raise (ends_with sig c)); [done | done | done | |intros _].
    { by apply adds_version_section. }
    apply (yields_bind not_raise (ends_with sig c)); [done | done | done | |intros _].
    { by apply adds_cmdline_section. }
    apply (yields_bind not_raise (ends_with sig c)); [done | done | done | |intros _].
    { by apply adds_maps_section. }
    apply (yields_bind not_raise (ends_with sig c)); [done | done | done | |intros _].
    { by apply adds_backtrace_section. }
    apply (yields_bind not_raise (ends_with sig c)); [done | done | done | |intros _].
    { by apply adds_CHECK_WRITE. }
    apply (yields_bind not_raise (ends_with sig c)); [done | done | done | |intros _].
    { apply adds_gdb_section_raise. }
    apply yields_final_raise. }
  destruct (Hrun (mkTrace 0 [])) as (more & Hev & Hend). fold (crash_run sig c wr fuel) in *.
  simpl in Hev. rewrite Hev. exact Hend.
Qed.

(** ** The gdbserver launch *)

Lemma spawn_after_done_after c l1 l2 :
  Forall quiet l1 → spawn_after_done c l2 → spawn_after_done c (l1 ++ l2).
Proof.
  intros H1 [H2 | (Hport & pre & post & -> & Hpre)].
  - left. apply Forall_app. split; [|done]. eapply Forall_impl; [done|]. by intros e [? _].
  - right. split; [done|]. exists (l1 ++ pre), post. rewrite app_assoc.
    split; [done | by apply Forall_app].
Qed.

Lemma yields_done_and_after sig c wr :
  yields (λ _, spawn_after_done c)
    (bind (CHECK_WRITE sig wr (Printf "DONE\n" []))
       (λ _, bind (gdb_section c) (λ _, emit (EvRaise sig)))).
Proof.
  intros t. unfold CHECK_WRITE, gdb_section, bind, write, emit, ret, leave.
  destruct (wr (nwrites t)); simpl.
  - destruct (gdbServerPort c =? 0) eqn:Hport; simpl.
    + eexists. rewrite <- !app_assoc. split; [done|]. left.
      repeat constructor; try done.
    + apply Z.eqb_neq in Hport.
      destruct (fork_ret c =? 0); [destruct (exec_fails c)|]; simpl;
        (eexists; rewrite <- !app_assoc; split; [done|]; right; split; [done|];
         exists []; eexists; split; [simpl; reflexivity | constructor]).
  - eexists. rewrite <- !app_assoc. split; [done|]. left.
    repeat constructor; try done.
Qed.

(** X15.  When gdbserver is launched.  In any run of the handler, if
    the handler forks, execs or waits at all, then a gdbserver port is
    set, and the fork comes right after the line DONE has been written
    in full, everything before it being writes that succeeded and closes
    of the dumped files.  With GdbServerPort 0, or after a failed write,
    no process is started. *)
Theorem gdbserver_only_after_done sig c wr fuel :
  Forall no_spawn (events (snd (crash_run sig c wr fuel))) ∨
  (gdbServerPort c ≠ 0 ∧
   ∃ pre post, events (snd (crash_run sig c wr fuel))
               = pre ++ EvWrite (Printf "DONE\n" []) true :: EvFork :: post ∧
               Forall quiet pre).
Proof.
  assert (Hw : ∀ b, quiet (EvWrite b true)) by (intros b; repeat split; done).
  assert (Hc : ∀ f, quiet (EvClose f)) by (intros b; repeat split; done).
  assert (Hf : ∀ b, Forall no_spawn [EvWrite b false; EvRaise sig])
    by (intros b; repeat constructor; done).
  assert (Hfc : ∀ b f, Forall no_spawn [EvWrite b false; EvClose f; EvRaise sig])
    by (intros b f; repeat constructor; done).
  assert (Ha : ∀ l1 l2, Forall quiet l1 → Forall no_spawn l2 → Forall no_spawn (l1 ++ l2)).
  { intros l1 l2 H1 H2. apply Forall_app. split; [|done].
    eapply Forall_impl; [done|]. by intros e [? _]. }
  assert (Hpre : ∀ l1 (f : Flow unit) l2,
            Forall quiet l1 → spawn_after_done c l2 → spawn_after_done c (l1 ++ l2)).
  { intros l1 _ l2. apply spawn_after_done_after. }
  assert (HR : ∀ l, Forall no_spawn l → spawn_after_done c l) by (intros l; by left).
  assert (HS : ∀ l, Forall quiet l → spawn_after_done c l).
  { intros l Hl. left. eapply Forall_impl; [done|]. by intros e [? _]. }
  assert (Hrun : yields (λ _, spawn_after_done c) (ShowStackSignalHandler sig c wr fuel)).
  { unfold ShowStackSignalHandler, after_version.
    apply (yields_bind quiet (Forall no_spawn)); [done | done | done | |intros _].
    { by apply adds_intro_section. }
    apply (yields_bind quiet (Forall no_spawn)); [done | done | done | |intros _].
    { by apply adds_version_section. }
    apply (yields_bind quiet (Forall no_spawn)); [done | done | done | |intros _].
    { by apply adds_cmdline_section. }
    apply (yields_bind quiet (Forall no_spawn)); [done | done | done | |intros _].
    { by apply adds_maps_section. }
    apply (yields_bind quiet (Forall no_spawn)); [done | done | done | |intros _].
    { by apply adds_backtrace_section. }
    apply yields_done_and_after. }
  destruct (Hrun (mkTrace 0 [])) as (more & Hev & Hend). fold (crash_run sig c wr fuel) in *.
  simpl in Hev. rewrite Hev. exact Hend.
Qed.

(** ** What is written when every write succeeds *)

Lemma nul_to_space_length s : String.length (nul_to_space s) = String.length s.
Proof.
  induction s as [|ch s IH]; cbn [nul_to_space String.length]; [done | by rewrite IH].
Qed.

Lemma nul_to_space_no_nul s n : String.get n (nul_to_space s) ≠ Some Ascii.zero.
Proof.
  revert n. induction s as [|ch s IH]; intros n; cbn [nul_to_space String.get]; [done|].
  destruct n as [|n]; [|apply IH].
  destruct (Ascii.eqb_spec Ascii.zero ch) as [E | E].
  - intros H. inversion H.
  - intros H. apply E. injection H as H'. by rewrite H'.
Qed.

Lemma nul_to_space_other s n ch :
  String.get n s = Some ch → ch ≠ Ascii.zero → String.get n (nul_to_space s) = Some ch.
Proof.
  revert n. induction s as [|x s IH]; intros n; cbn [nul_to_space String.get]; [done|].
  destruct n as [|n]; [|apply IH].
  intros H Hne. injection H as ->.
  destruct (Ascii.eqb_spec Ascii.zero ch) as [E | E]; [by subst | done].
Qed.

Lemma append_char_app line ch s : append_char line ch +:+ s = line +:+ String ch s.
Proof.
  unfold append_char. induction line as [|x line IH]; [done|].
  exact (f_equal (String x) IH).
Qed.

Lemma append_char_length line ch : String.length (append_char line ch) = S (String.length line).
Proof.
  unfold append_char. induction line as [|x line IH]; [done|].
  exact (f_equal S IH).
Qed.

Lemma string_app_cons ch (a b : string) : String ch a +:+ b = String ch (a +:+ b).
Proof. done. Qed.

Lemma string_app_nil_l (b : string) : "" +:+ b = b.
Proof. done. Qed.

Lemma string_app_assoc (a b c : string) : (a +:+ b) +:+ c = a +:+ (b +:+ c).
Proof. induction a as [|x a IH]; [done|]. exact (f_equal (String x) IH). Qed.

Section EveryWriteSucceeds.

Variables (sig : Z) (wr : nat → bool).
Hypothesis Hwr : ∀ n, wr n = true.

Lemma proceeds_ret {A} (a : A) : proceeds (ret a).
Proof. intros t. by exists a, t. Qed.

Lemma proceeds_emit e : proceeds (emit e).
Proof. intros t. by eexists _, _. Qed.

Lemma proceeds_bind {A B} (m : Handler A) (k : A → Handler B) :
  proceeds m → (∀ a, proceeds (k a)) → proceeds (bind m k).
Proof.
  intros Hm Hk t. unfold bind. destruct (Hm t) as (a & t1 & ->). apply Hk.
Qed.

Lemma proceeds_CHECK_WRITE b : proceeds (CHECK_WRITE sig wr b).
Proof. intros t. rewrite CHECK_WRITE_full by apply Hwr. by eexists _, _. Qed.

Lemma cmdline_loop_run reads t :
  cmdline_loop sig wr reads t
  = (Next tt,
     mkTrace (nwrites t + length (chunks_read reads))
       (events t ++ ((λ s, EvWrite (Raw (nul_to_space s)) true) <$> chunks_read reads))).
Proof.
  revert t. induction reads as [|r reads IH]; intros t; cbn [cmdline_loop chunks_read].
  - unfold ret. simpl. rewrite app_nil_r, Nat.add_0_r. by destruct t.
  - destruct (0 <? rc_of r).
    + unfold bind, write. rewrite Hwr, IH. simpl.
      by rewrite <- app_assoc, Nat.add_succ_r.
    + unfold ret. simpl. rewrite app_nil_r, Nat.add_0_r. by destruct t.
Qed.

Lemma proceeds_cmdline_loop reads : proceeds (cmdline_loop sig wr reads).
Proof. intros t. rewrite cmdline_loop_run. by eexists _, _. Qed.

(** The bytes of an overlong line that are thrown away. *)
Lemma maps_loop_skip skipped : ∀ line k tail t,
  (String.length line + String.length skipped = 256 * k)%nat →
  (String.length line < 256)%nat →
  newline ∉ String.list_ascii_of_string skipped →
  maps_loop sig wr (skipped +:+ tail) line (Z.of_nat (String.length line)) t
  = maps_loop sig wr tail "" 0 t.
Proof.
  induction skipped as [|ch skipped IH]; intros line k tail t Hlen Hline Hnl.
  - rewrite string_app_nil_l. cbn [String.length] in *.
    assert (String.length line = 0%nat) as H0 by lia.
    destruct line; [done | cbn [String.length] in H0; lia].
  - simpl in Hnl. apply not_elem_of_cons in Hnl as [Hch Hnl].
    rewrite string_app_cons. cbn [maps_loop].
    destruct (Ascii.eqb_spec newline ch) as [E | _]; [done|].
    cbn [String.length] in Hlen.
    destruct (Z.ltb_spec (Z.of_nat (String.length line) + 1) 256) as [Hlt | Hge].
    + replace (Z.of_nat (String.length line) + 1)
        with (Z.of_nat (String.length (append_char line ch)))
        by (rewrite append_char_length; lia).
      apply (IH _ k); [rewrite append_char_length; lia | rewrite append_char_length; lia | done].
    + apply (IH "" (k - 1)%nat); [cbn [String.length]; lia | cbn [String.length]; lia | done].
Qed.

(** The bytes of a line that are kept, and written with its newline. *)
Lemma maps_loop_keep kept : ∀ line rest t,
  (String.length line + String.length kept < 256)%nat →
  newline ∉ String.list_ascii_of_string kept →
  maps_loop sig wr (kept +:+ String newline rest) line (Z.of_nat (String.length line)) t
  = maps_loop sig wr rest "" 0
      (mkTrace (S (nwrites t))
         (events t ++ [EvWrite (Raw (line +:+ kept +:+ String newline "")) true])).
Proof.
  induction kept as [|ch kept IH]; intros line rest t Hlen Hnl.
  - rewrite string_app_nil_l. cbn [maps_loop]. rewrite Ascii.eqb_refl.
    unfold bind, write. by rewrite Hwr.
  - simpl in Hnl. apply not_elem_of_cons in Hnl as [Hch Hnl].
    rewrite string_app_cons. cbn [maps_loop].
    destruct (Ascii.eqb_spec newline ch) as [E | _]; [done|].
    cbn [String.length] in Hlen.
    destruct (Z.ltb_spec (Z.of_nat (String.length line) + 1) 256) as [Hlt | Hge]; [|lia].
    replace (Z.of_nat (String.length line) + 1)
      with (Z.of_nat (String.length (append_char line ch)))
      by (rewrite append_char_length; lia).
    rewrite IH by (rewrite ?append_char_length; done || lia).
    by rewrite append_char_app.
Qed.

(** What is left of the file after its last newline is read and not
    written. *)
Lemma maps_loop_tail content : ∀ line len t,
  newline ∉ String.list_ascii_of_string content →
  maps_loop sig wr content line len t = (Next tt, t).
Proof.
  induction content as [|ch content IH]; intros line len t Hnl; [done|].
  simpl in Hnl. apply not_elem_of_cons in Hnl as [Hch Hnl].
  cbn [maps_loop]. destruct (Ascii.eqb_spec newline ch) as [E | _]; [done|].
  destruct (len + 1 <? 256); by apply IH.
Qed.

Lemma proceeds_maps_loop content line len : proceeds (maps_loop sig wr content line len).
Proof.
  revert line len. induction content as [|ch content IH]; intros line len;
    cbn [maps_loop]; [apply proceeds_ret|].
  destruct (Ascii.eqb newline ch).
  - intros t. unfold bind, write. rewrite Hwr. apply IH.
  - destruct (len + 1 <? 256); apply IH.
Qed.

Lemma proceeds_intro_section c : proceeds (intro_section sig c wr).
Proof.
  unfold intro_section.
  apply proceeds_bind; [apply proceeds_CHECK_WRITE | intros _].
  apply proceeds_bind; [apply proceeds_CHECK_WRITE | intros _].
  apply proceeds_CHECK_WRITE.
Qed.

Lemma proceeds_version_section c : proceeds (version_section sig c wr).
Proof.
  unfold version_section. apply proceeds_bind; [apply proceeds_CHECK_WRITE | intros _].
  destruct (version_file c) as [r|]; [|apply proceeds_ret].
  apply proceeds_bind; [apply proceeds_emit | intros _].
  destruct (0 <? rc_of r); [|apply proceeds_CHECK_WRITE].
  apply proceeds_bind; [apply proceeds_CHECK_WRITE | intros _].
  apply proceeds_CHECK_WRITE.
Qed.

Lemma proceeds_cmdline_section c : proceeds (cmdline_section sig c wr).
Proof.
  unfold cmdline_section. apply proceeds_bind; [apply proceeds_CHECK_WRITE | intros _].
  destruct (cmdline_file c) as [reads|]; [|apply proceeds_ret].
  apply proceeds_bind; [apply proceeds_cmdline_loop | intros _].
  apply proceeds_bind; [apply proceeds_emit | intros _]. apply proceeds_CHECK_WRITE.
Qed.

Lemma proceeds_maps_section c : proceeds (maps_section sig c wr).
Proof.
  unfold maps_section. apply proceeds_bind; [apply proceeds_CHECK_WRITE | intros _].
  destruct (maps_file c) as [content|]; [|apply proceeds_ret].
  apply proceeds_bind; [apply proceeds_maps_loop | intros _]. apply proceeds_emit.
Qed.

End EveryWriteSucceeds.

(** X16.  The command line in the dump.  When every write succeeds and
    /proc/<pid>/cmdline opens, the section consists of its header, one
    write per chunk read up to the first read that returns nothing or
    fails, the close of the file and a newline; what a later read would
    return is not written.  Each chunk is written with the length it was
    read with, every NUL in it replaced by a space and every other byte
    as it is. *)
Theorem cmdline_section_writes_the_chunks_read sig c wr reads t :
  (∀ n, wr n = true) → cmdline_file c = Some reads →
  (∃ t', cmdline_section sig c wr t = (Next tt, t') ∧
         events t' = events t ++
           EvWrite (Printf "PROCESS COMMAND LINE\n" []) true ::
           ((λ s, EvWrite (Raw (nul_to_space s)) true) <$> chunks_read reads) ++
           [EvClose CmdlineFile; EvWrite (Lit "\n") true]) ∧
  (∀ s, String.length (nul_to_space s) = String.length s ∧
        (∀ n, String.get n (nul_to_space s) ≠ Some Ascii.zero) ∧
        (∀ n ch, String.get n s = Some ch → ch ≠ Ascii.zero →
                 String.get n (nul_to_space s) = Some ch)).
Proof.
  intros Hwr Hfile. split.
  - unfold cmdline_section. rewrite Hfile. unfold bind.
    rewrite CHECK_WRITE_full by apply Hwr.
    rewrite cmdline_loop_run by done. unfold emit.
    rewrite CHECK_WRITE_full by apply Hwr. simpl.
    eexists. split; [done|]. simpl.
    rewrite <- !app_assoc. simpl. done.
  - intros s. split_and!;
      [apply nul_to_space_length | apply nul_to_space_no_nul | apply nul_to_space_other].
Qed.

Lemma cmdline_section_writes_the_chunks_read_witness :
  let c := mkCrash 4242 4242 0 (Other 4096 []) None
             (Some [ReadBytes (String "a" (String Ascii.zero "b")); ReadBytes ""; ReadBytes "x"])
             None 0 0 false in
  let reads := [ReadBytes (String "a" (String Ascii.zero "b")); ReadBytes ""; ReadBytes "x"] in
  (∃ t', cmdline_section SIGSEGV c (λ _, true) (mkTrace 0 []) = (Next tt, t') ∧
         events t' = events (mkTrace 0 []) ++
           EvWrite (Printf "PROCESS COMMAND LINE\n" []) true ::
           ((λ s, EvWrite (Raw (nul_to_space s)) true) <$> chunks_read reads) ++
           [EvClose CmdlineFile; EvWrite (Lit "\n") true]) ∧
  (∀ s, String.length (nul_to_space s) = String.length s ∧
        (∀ n, String.get n (nul_to_space s) ≠ Some Ascii.zero) ∧
        (∀ n ch, String.get n s = Some ch → ch ≠ Ascii.zero →
                 String.get n (nul_to_space s) = Some ch)).
Proof.
  intros c reads.
  apply (cmdline_section_writes_the_chunks_read SIGSEGV c (λ _, true) reads (mkTrace 0 [])).
  - reflexivity.
  - reflexivity.
Defined.

(** X17.  Lines of the memory map.  When every write succeeds, a line
    of /proc/<pid>/maps is written in one write, newline included, with
    what is left of it once as many leading stretches of 256 bytes as
    fit have been thrown away: a line of fewer than 256 bytes before
    its newline is written whole, a longer one loses its first 256,
    512, ... bytes.  After it the loop starts afresh on the rest of the
    file, and bytes that are not followed by a newline are read and
    never written. *)
Theorem maps_line_loses_leading_256_byte_stretches sig wr skipped kept k rest t :
  (∀ n, wr n = true) →
  (newline ∉ String.list_ascii_of_string skipped) → (newline ∉ String.list_ascii_of_string kept) →
  (String.length skipped = 256 * k)%nat → (String.length kept < 256)%nat →
  maps_loop sig wr (skipped +:+ kept +:+ String newline rest) "" 0 t
  = maps_loop sig wr rest "" 0
      (mkTrace (S (nwrites t))
         (events t ++ [EvWrite (Raw (kept +:+ String newline "")) true])) ∧
  maps_loop sig wr (skipped +:+ kept) "" 0 t = (Next tt, t).
Proof.
  intros Hwr Hs Hk Hlen Hkept.
  assert (Hskip : ∀ tail, maps_loop sig wr (skipped +:+ tail) "" 0 t
                          = maps_loop sig wr tail "" 0 t).
  { intros tail. apply (maps_loop_skip sig wr skipped "" k tail t);
      [cbn [String.length]; lia | cbn [String.length]; lia | done]. }
  split; rewrite Hskip.
  - apply (maps_loop_keep sig wr Hwr kept "" rest t); [cbn [String.length]; lia | done].
  - by apply maps_loop_tail.
Qed.

Lemma maps_line_loses_leading_256_byte_stretches_witness :
  let skipped := String.string_of_list_ascii (repeat "a"%char 256) in
  maps_loop SIGSEGV (λ _, true) (skipped +:+ "tail" +:+ String newline "next") "" 0 (mkTrace 0 [])
  = maps_loop SIGSEGV (λ _, true) "next" "" 0
      (mkTrace (S (nwrites (mkTrace 0 [])))
         (events (mkTrace 0 []) ++ [EvWrite (Raw ("tail" +:+ String newline "")) true])) ∧
  maps_loop SIGSEGV (λ _, true) (skipped +:+ "tail") "" 0 (mkTrace 0 []) = (Next tt, mkTrace 0 []).
Proof.
  intros skipped.
  apply (maps_line_loses_leading_256_byte_stretches SIGSEGV (λ _, true) skipped "tail" 1).
  - reflexivity.
  - vm_compute. intros H. repeat (apply elem_of_cons in H as [H | H]; [discriminate H|]).
    by apply elem_of_nil in H.
  - vm_compute. intros H. repeat (apply elem_of_cons in H as [H | H]; [discriminate H|]).
    by apply elem_of_nil in H.
  - vm_compute. reflexivity.
  - vm_compute. lia.
Defined.

(** ** The back-trace *)

Lemma bind_Next {A B} (m : Handler A) (k : A → Handler B) t a t1 :
  m t = (Next a, t1) → bind m k t = k a t1.
Proof. intros H. unfold bind. by rewrite H. Qed.

Lemma bind_Spin {A B} (m : Handler A) (k : A → Handler B) t :
  fst (m t) = Spin → fst (bind m k t) = Spin.
Proof. unfold bind. destruct (m t) as [[a| |] t1]; simpl; done. Qed.

Lemma bind_proceeds_Spin {A B} (m : Handler A) (k : A → Handler B) t :
  proceeds m → (∀ a t1, fst (k a t1) = Spin) → fst (bind m k t) = Spin.
Proof. intros Hm Hk. destruct (Hm t) as (a & t1 & E). rewrite (bind_Next _ _ _ _ _ E). apply Hk. Qed.

Section EveryWriteSucceedsBacktrace.

Variables (sig : Z) (wr : nat → bool).
Hypothesis Hwr : ∀ n, wr n = true.

Lemma backtrace_loop_run addrs : ∀ n t,
  backtrace_loop sig wr n addrs t
  = (Next tt,
     mkTrace (nwrites t + length addrs)
       (events t ++ imap (λ i a, EvWrite (Printf "#%d : %p\n"
                                            [AInt (n + Z.of_nat i - 2); APtr a]) true) addrs)).
Proof.
  induction addrs as [|a addrs IH]; intros n t; cbn [backtrace_loop].
  - unfold ret. simpl. rewrite app_nil_r, Nat.add_0_r. by destruct t.
  - unfold bind. rewrite CHECK_WRITE_full by apply Hwr. rewrite IH.
    cbn [nwrites events length]. rewrite imap_cons, <- app_assoc, Nat.add_succ_r.
    cbn [Z.of_nat]. rewrite Z.add_0_r. f_equal. f_equal. f_equal. cbn [app]. f_equal.
    apply imap_ext. intros i x _. unfold compose. do 4 f_equal. lia.
Qed.

Lemma arm_stack_run mem lines : ∀ frame t,
  arm_stack sig wr lines mem frame t
  = (Next tt,
     mkTrace (nwrites t + lines)
       (events t ++ ((λ i, stack_line mem (frame + 32 * Z.of_nat i)) <$> seq 0 lines))).
Proof.
  induction lines as [|lines IH]; intros frame t; cbn [arm_stack].
  - unfold ret. simpl. rewrite app_nil_r, Nat.add_0_r. by destruct t.
  - unfold bind. rewrite CHECK_WRITE_full by apply Hwr. rewrite IH.
    cbn [nwrites events seq]. rewrite fmap_cons, <- app_assoc, Nat.add_succ_r.
    f_equal. f_equal. f_equal. cbn [app]. f_equal.
    + unfold stack_line. cbn [Z.of_nat]. by rewrite Z.mul_0_r, Z.add_0_r.
    + rewrite <- seq_shift, <- list_fmap_compose.
      apply list_fmap_ext. intros i x _. unfold compose. f_equal. lia.
Qed.

Lemma arm_frames_spin regs base mem :
  arm_lr regs = arm_pc regs → mem (base - 4) = base →
  ∀ fuel t, fst (arm_frames sig wr fuel regs base mem (arm_pc regs) base t) = Spin.
Proof.
  intros Hlr Hmem. induction fuel as [|fuel IH]; intros t; cbn [arm_frames]; [done|].
  unfold bind. rewrite CHECK_WRITE_full by apply Hwr.
  replace (base + 4 * (1024 * 1024) <? base) with false by (symmetry; apply Z.ltb_ge; lia).
  rewrite Z.ltb_irrefl, Z.eqb_refl. cbn [orb].
  rewrite Hlr, Hmem. apply IH.
Qed.

End EveryWriteSucceedsBacktrace.

(** X18.  The back-trace of the other builds.  When every write
    succeeds, the section consists of its header and one line per
    address that backtrace(3) has found beyond the first two, numbered
    from 0 in the order found; there are at most ten of them, since
    backtrace is asked for twelve addresses. *)
Theorem backtrace_skips_two_frames_and_shows_ten sig c wr fuel pc callers t :
  (∀ n, wr n = true) → machine c = Other pc callers →
  ∃ t', backtrace_section sig c wr fuel t = (Next tt, t') ∧
        events t' = events t ++
          EvWrite (Printf "BACKTRACE\n" []) true ::
          imap (λ i a, EvWrite (Printf "#%d : %p\n" [AInt (Z.of_nat i); APtr a]) true)
               (drop 2 (take 12 callers)) ∧
        (length (drop 2 (take 12 callers)) ≤ 10)%nat.
Proof.
  intros Hwr Hm. unfold backtrace_section. rewrite Hm. unfold bind.
  rewrite CHECK_WRITE_full by apply Hwr. rewrite backtrace_loop_run by done.
  eexists. split; [done|]. cbn [events]. split.
  - rewrite <- app_assoc. cbn [app]. do 2 f_equal.
    apply imap_ext. intros i x _. do 4 f_equal. lia.
  - rewrite length_drop, length_take. lia.
Qed.

Lemma backtrace_skips_two_frames_and_shows_ten_witness :
  let c := mkCrash 4242 4242 0 (Other 4096 [1; 2; 3; 4]) None None None 0 0 false in
  ∃ t', backtrace_section SIGSEGV c (λ _, true) 0 (mkTrace 0 []) = (Next tt, t') ∧
        events t' = events (mkTrace 0 []) ++
          EvWrite (Printf "BACKTRACE\n" []) true ::
          imap (λ i a, EvWrite (Printf "#%d : %p\n" [AInt (Z.of_nat i); APtr a]) true)
               (drop 2 (take 12 [1; 2; 3; 4])) ∧
        (length (drop 2 (take 12 [1; 2; 3; 4])) ≤ 10)%nat.
Proof.
  intros c.
  apply (backtrace_skips_two_frames_and_shows_ten SIGSEGV c (λ _, true) 0 4096 [1; 2; 3; 4]).
  - reflexivity.
  - reflexivity.
Defined.

(** X19.  The frame walk of the ARM build has no bound.  When the link
    register holds the faulting address and the word below the handler's
    own frame address holds that frame address, every turn of the walk
    takes the PC branch and comes back to the same frame: with writes
    that succeed, the handler never gets past the walk, whatever number
    of turns it is given, so that it never raises the signal. *)
Theorem arm_frame_walk_can_turn_forever sig c wr regs base mem fuel :
  (∀ n, wr n = true) → machine c = Arm regs base mem →
  arm_lr regs = arm_pc regs → mem (base - 4) = base →
  fst (crash_run sig c wr fuel) = Spin.
Proof.
  intros Hwr Hm Hlr Hmem.
  unfold crash_run, ShowStackSignalHandler, after_version.
  apply bind_proceeds_Spin; [by apply proceeds_intro_section | intros _ t1].
  apply bind_proceeds_Spin; [by apply proceeds_version_section | intros _ t2].
  apply bind_proceeds_Spin; [by apply proceeds_cmdline_section | intros _ t3].
  apply bind_proceeds_Spin; [by apply proceeds_maps_section | intros _ t4].
  apply bind_Spin. unfold backtrace_section. rewrite Hm.
  apply bind_proceeds_Spin; [by apply proceeds_CHECK_WRITE | intros _ t5].
  apply bind_Spin. by apply arm_frames_spin.
Qed.

Lemma arm_frame_walk_can_turn_forever_witness :
  fst (crash_run SIGSEGV
         (mkCrash 4242 4242 0
            (Arm (mkArmRegs 0 0 0 0 0 0 0 0 0 0 0 0 0 4096 32768 32768 0) 8192 (λ _, 8192))
            None None None 0 0 false)
         (λ _, true) 1000) = Spin.
Proof.
  apply (arm_frame_walk_can_turn_forever SIGSEGV _ (λ _, true)
           (mkArmRegs 0 0 0 0 0 0 0 0 0 0 0 0 0 4096 32768 32768 0) 8192 (λ _, 8192) 1000).
  - reflexivity.
  - reflexivity.
  - reflexivity.
  - reflexivity.
Defined.

(** X20.  The ARM dump when the walk ends at once.  When every write
    succeeds and the word below the handler's frame address points
    outside the window of 1024*1024 words above that address, the
    section consists of its header, the line for the PC, one line for
    the link register (marked PC when it equals the faulting address),
    four lines of registers, and 32 lines of stack, the i-th showing the
    eight words at sp + 32 i. *)
Theorem arm_dump_when_the_walk_ends_at_once sig c wr fuel regs base mem t :
  (∀ n, wr n = true) → machine c = Arm regs base mem →
  mem (base - 4) < base ∨ base + 4 * (1024 * 1024) < mem (base - 4) →
  ∃ t' r1 r2 r3 r4,
    backtrace_section sig c wr (S (S fuel)) t = (Next tt, t') ∧
    events t' = events t ++
      [EvWrite (Printf "BACKTRACE\n" []) true;
       EvWrite (Printf "%s at %08x\n" [AStr "PC"; AInt (arm_pc regs)]) true;
       EvWrite (Printf "%s at %08x\n"
                  [AStr (if arm_lr regs =? arm_pc regs then "PC" else "LR");
                   AInt (arm_lr regs)]) true;
       EvWrite r1 true; EvWrite r2 true; EvWrite r3 true; EvWrite r4 true] ++
      ((λ i, stack_line mem (arm_sp regs + 32 * Z.of_nat i)) <$> seq 0 32).
Proof.
  intros Hwr Hm Hout. unfold backtrace_section. rewrite Hm.
  unfold bind at 1. rewrite CHECK_WRITE_full by apply Hwr.
  unfold bind at 1. cbn [arm_frames].
  unfold bind at 1. rewrite CHECK_WRITE_full by apply Hwr.
  replace (base + 4 * (1024 * 1024) <? base) with false by (symmetry; apply Z.ltb_ge; lia).
  rewrite Z.ltb_irrefl, Z.eqb_refl. cbn [orb].
  unfold bind at 1. rewrite CHECK_WRITE_full by apply Hwr.
  replace ((base + 4 * (1024 * 1024) <? mem (base - 4)) || (mem (base - 4) <? base))
    with true by (symmetry; apply orb_true_iff; rewrite !Z.ltb_lt; tauto).
  unfold ret.
  unfold bind. rewrite !CHECK_WRITE_full by apply Hwr.
  rewrite arm_stack_run by done.
  eexists _, _, _, _, _. split; [done|]. cbn [events].
  rewrite <- !app_assoc. done.
Qed.

Lemma arm_dump_when_the_walk_ends_at_once_witness :
  let regs := mkArmRegs 0 0 0 0 0 0 0 0 0 0 0 0 0 4096 32768 16384 0 in
  let c := mkCrash 4242 4242 0 (Arm regs 8192 (λ _, 0)) None None None 0 0 false in
  ∃ t' r1 r2 r3 r4,
    backtrace_section SIGSEGV c (λ _, true) (S (S 0)) (mkTrace 0 []) = (Next tt, t') ∧
    events t' = events (mkTrace 0 []) ++
      [EvWrite (Printf "BACKTRACE\n" []) true;
       EvWrite (Printf "%s at %08x\n" [AStr "PC"; AInt (arm_pc regs)]) true;
       EvWrite (Printf "%s at %08x\n"
                  [AStr (if arm_lr regs =? arm_pc regs then "PC" else "LR");
                   AInt (arm_lr regs)]) true;
       EvWrite r1 true; EvWrite r2 true; EvWrite r3 true; EvWrite r4 true] ++
      ((λ i, stack_line (λ _, 0) (arm_sp regs + 32 * Z.of_nat i)) <$> seq 0 32).
Proof.
  intros regs c.
  apply (arm_dump_when_the_walk_ends_at_once SIGSEGV c (λ _, true) 0 regs 8192 (λ _, 0)).
  - reflexivity.
  - reflexivity.
  - left. simpl. lia.
Defined.

(** ** The name of the monitor *)

(** X21.  The name given to the event loop.  In a state reached by
    SetEventHandler calls, the context of a thread is registered with
    the event loop for its descriptor and for POLLIN, and the name of
    the registration, read as a C string, is "Sig" whatever the thread
    is called: the thread name is copied behind the terminating NUL of
    the prefix. *)
Theorem monitor_name_is_the_prefix_alone self calls st0 st m :
  SigMonKey st0 !! self = None →
  SetEventHandlers self calls st0 = (Returned, st) →
  context st self = Some m →
  ∃ r fm, monitorRef m = Some r ∧ fdMonitors st !! r = Some fm ∧
          fm_fd fm = fd m ∧ fm_events fm = POLLIN ∧
          fm_name fm = SIG_STR +:+ String Ascii.zero (threadName st self) ∧
          c_str (fm_name fm) = "Sig".
Proof.
  intros Hnone Hrun Hm.
  destruct (SetEventHandlers_inv self calls st0 st (or_introl Hnone) Hrun) as [Hinv _].
  destruct Hinv as [Hnone' | (p & m' & hs & Hctx)].
  { destruct (no_key_view _ _ Hnone') as (Hc & _). congruence. }
  destruct (ctx_ok_view _ _ _ _ _ Hctx) as (Hc & _).
  assert (m' = m) as -> by congruence.
  destruct (wi_ref _ _ _ _ (ok_wired _ _ _ _ _ Hctx)) as (r & Hr & Hfm).
  exists r, (mkFdMonitor (monitorName st self) (fd m) POLLIN).
  split_and!; done.
Qed.

Lemma monitor_name_is_the_prefix_alone_witness :
  ∃ r fm, monitorRef (mkMonitorObj (Some 1%positive) 3 [1%positive]) = Some r ∧
          fdMonitors (snd (SetEventHandlers 100 [(SIGTERM, Some (UserFunc 1))] boot)) !! r
          = Some fm ∧
          fm_fd fm = fd (mkMonitorObj (Some 1%positive) 3 [1%positive]) ∧
          fm_events fm = POLLIN ∧
          fm_name fm
          = SIG_STR +:+ String Ascii.zero
              (threadName (snd (SetEventHandlers 100 [(SIGTERM, Some (UserFunc 1))] boot)) 100) ∧
          c_str (fm_name fm) = "Sig".
Proof.
  apply (monitor_name_is_the_prefix_alone 100 [(SIGTERM, Some (UserFunc 1))] boot
           (snd (SetEventHandlers 100 [(SIGTERM, Some (UserFunc 1))] boot))).
  - reflexivity.
  - vm_compute. reflexivity.
  - vm_compute. reflexivity.
Defined.

(** * Several threads *)

(** ** What a call touches *)

Lemma update_fd_footprint self p m st st' :
  update_fd self p m st = (Returned, st') →
  (∀ p', p' ≠ p → MonitorObjPool st' !! p' = MonitorObjPool st !! p') ∧
  (∀ fd', is_Some (fdtable st !! fd') → fd' ≠ fd m → fdtable st' !! fd' = fdtable st !! fd') ∧
  (∀ r, is_Some (fdMonitors st !! r) → fdMonitors st' !! r = fdMonitors st !! r) ∧
  ∃ m', MonitorObjPool st' !! p = Some m' ∧ handlerObjList m' = handlerObjList m ∧
        (fd m' = fd m ∨ fdtable st !! fd m' = None) ∧
        (monitorRef m' = monitorRef m ∨
         ∃ r, monitorRef m' = Some r ∧ fdMonitors st !! r = None).
Proof.
  unfold update_fd.
  destruct (recreate_mask _ _ _) as [set | |]; [|done..].
  destruct (signalfd (fd m) set st) as [newFd st1] eqn:Hfd.
  assert (Hst1 : MonitorObjPool st1 = MonitorObjPool st ∧ fdMonitors st1 = fdMonitors st ∧
                 (∀ fd', is_Some (fdtable st !! fd') → fd' ≠ fd m →
                         fdtable st1 !! fd' = fdtable st !! fd') ∧
                 (newFd = -1 ∨ newFd = fd m ∨ fdtable st !! newFd = None)).
  { unfold signalfd in Hfd. destruct (fd m =? -1) eqn:E.
    - destruct (lowest_free_spec (dom (fdtable st))) as (_ & Hfree & _).
      destruct (_ <? _); simplify_eq; simpl; [|by eauto].
      split_and!; [done | done | | right; right; by apply not_elem_of_dom].
      intros fd' Hin _. apply lookup_insert_ne. intros <-.
      by apply elem_of_dom in Hin.
    - destruct (fdtable st !! fd m) as [[mask|]|]; simplify_eq; simpl; [|by eauto..].
      split_and!; [done | done | | by eauto].
      intros fd' _ Hne. by apply lookup_insert_ne. }
  destruct Hst1 as (Hpool & Hmon & Htab & Hnew).
  destruct (newFd =? -1) eqn:Eq; [done|]. apply Z.eqb_neq in Eq.
  destruct Hnew as [? | Hnew]; [done|].
  destruct (monitorRef m) as [r0|] eqn:Href; cbn [monitorRef].
  - intros [= <-]. simpl. rewrite Hpool, Hmon. split_and!; [|done|done|].
    + intros p' Hne. by apply lookup_insert_ne.
    + eexists. rewrite lookup_insert_eq. split; [done|]. simpl. by split_and!; [|tauto|left].
  - intros [= <-]. simpl. rewrite Hpool, Hmon. split_and!; [|done| |].
    + intros p' Hne. by rewrite !lookup_insert_ne.
    + intros r Hin. apply lookup_insert_ne. intros <-.
      apply elem_of_dom in Hin. by apply is_fresh in Hin.
    + eexists. rewrite lookup_insert_eq. split; [done|]. simpl.
      split_and!; [done | tauto |]. right. eexists. split; [done|].
      apply not_elem_of_dom, is_fresh.
Qed.

Lemma Find_Found_in sig pool l q : FindHandlerObj sig pool l = Found q → q ∈ l.
Proof.
  induction l as [|x l IH]; simpl; [done|].
  destruct (pool !! x) as [h|]; [|done].
  destruct (sigNum h =? sig); [intros [= ->]; left | intros H; right; by apply IH].
Qed.

Lemma set_in_monitor_footprint self sig h p m st st' :
  MonitorObjPool st !! p = Some m →
  set_in_monitor self sig h p st = (Returned, st') →
  SigMonKey st' = SigMonKey st ∧
  others_kept st st' p (handlerObjList m) (fd m) ∧
  ∃ m', MonitorObjPool st' !! p = Some m' ∧
        grown_from st (handlerObjList m) (fd m) (monitorRef m) m'.
Proof.
  intros Hm. unfold set_in_monitor. rewrite Hm.
  destruct (FindHandlerObj _ _ _) as [q | |] eqn:Hfind; [| |done].
  - apply Find_Found_in in Hfind. destruct h as [f|].
    + intros Hup. destruct (update_fd_frame _ _ _ _ _ _ Hup) as (_ & Hn & Hk & Hh & _).
      destruct (update_fd_footprint _ _ _ _ _ Hup) as (Hp & Ht & Hr & m' & Hm' & Hl & Hf & Hmr).
      simpl in *. split; [done|]. split.
      * split_and!; [done | done | | done | done].
        intros q' _ Hq'. rewrite Hh. apply lookup_alter_ne. by intros ->.
      * exists m'. split; [done|]. split_and!; [|done|done].
        intros q'. rewrite Hl. by left.
    + intros Hup. destruct (update_fd_frame _ _ _ _ _ _ Hup) as (_ & Hn & Hk & Hh & _).
      destruct (update_fd_footprint _ _ _ _ _ Hup) as (Hp & Ht & Hr & m' & Hm' & Hl & Hf & Hmr).
      simpl in *. split; [done|]. split.
      * split_and!; [done | | by intros; rewrite Hh | done | done].
        intros p' Hne. rewrite Hp by done. by apply lookup_insert_ne.
      * exists m'. split; [done|]. split_and!; [|done|done].
        intros q'. rewrite Hl. intros Hin%list_elem_of_filter. left. tauto.
  - destruct h as [f|]; [|intros [= <-]].
    + intros Hup. destruct (update_fd_frame _ _ _ _ _ _ Hup) as (_ & Hn & Hk & Hh & _).
      destruct (update_fd_footprint _ _ _ _ _ Hup) as (Hp & Ht & Hr & m' & Hm' & Hl & Hf & Hmr).
      simpl in *. split; [done|]. split.
      * split_and!; [done | | | done | done].
        -- intros p' Hne. rewrite Hp by done. by apply lookup_insert_ne.
        -- intros q' Hin _. rewrite Hh. apply lookup_insert_ne. intros <-.
           apply elem_of_dom in Hin. by apply is_fresh in Hin.
      * exists m'. split; [done|]. split_and!; [|done|done].
        intros q'. rewrite Hl. intros [Hin | ->%list_elem_of_singleton]%elem_of_app;
          [by left | right; apply not_elem_of_dom, is_fresh].
    + split; [done|]. split; [by split_and!|].
      exists m. split; [done|]. split_and!; [by left | by left | by left].
Qed.

Lemma SetEventHandler_footprint A sig h st st' :
  sig_inv st A → le_sig_SetEventHandler A sig h st = (Returned, st') →
  st' = st ∨
  ∃ p l fd0 r0,
    match SigMonKey st !! A with
    | Some pA => pA = p ∧ ∃ m, MonitorObjPool st !! p = Some m ∧
                               l = handlerObjList m ∧ fd0 = fd m ∧ r0 = monitorRef m
    | None => MonitorObjPool st !! p = None ∧ l = [] ∧ fd0 = -1 ∧ r0 = None
    end ∧
    SigMonKey st' = <[A := p]> (SigMonKey st) ∧
    others_kept st st' p l fd0 ∧
    ∃ m', MonitorObjPool st' !! p = Some m' ∧ grown_from st l fd0 r0 m'.
Proof.
  intros Hinv. unfold le_sig_SetEventHandler.
  destruct (not_allowed sig); [done|].
  destruct (SigMonKey st !! A) as [pA|] eqn:Hkey.
  - destruct Hinv as [? | (p & m & hs & Hctx)]; [congruence|].
    pose proof (ok_key _ _ _ _ _ Hctx) as Hk. pose proof (ok_obj _ _ _ _ _ Hctx) as Hm.
    assert (p = pA) as -> by congruence.
    intros Hset.
    destruct (set_in_monitor_footprint _ _ _ _ _ _ _ Hm Hset) as (Hk' & Hkept & m' & Hm' & Hg).
    right. exists pA, (handlerObjList m), (fd m), (monitorRef m).
    split; [by eauto 10|]. split; [|split; [done | by eauto]].
    rewrite Hk'. symmetry. by apply insert_id.
  - destruct h as [f|]; [|intros [= <-]; by left].
    set (p := le_mem_ForceAlloc (MonitorObjPool st)).
    set (m0 := mkMonitorObj None (-1) []).
    set (st1 := set_SigMonKey _ _). intros Hset.
    assert (Hm0 : MonitorObjPool st1 !! p = Some m0) by (simpl; by rewrite lookup_insert_eq).
    destruct (set_in_monitor_footprint _ _ _ _ _ _ _ Hm0 Hset)
      as (Hk' & (Hn & Hp & Hh & Ht & Hr) & m' & Hm' & Hg).
    right. exists p, [], (-1), None.
    split; [split; [by apply not_elem_of_dom, is_fresh | done]|].
    split; [done|]. split; [|by eauto].
    split; [done|]. split; [|done].
    intros p' Hne. rewrite Hp by done. simpl. by apply lookup_insert_ne.
Qed.

Lemma linked_same pool pool' l hs :
  linked pool l hs → (∀ q, q ∈ l → pool' !! q = pool !! q) → linked pool' l hs.
Proof.
  induction 1 as [|q h l hs Hq _ IH]; intros Hsame; constructor.
  - rewrite Hsame; [done | left].
  - apply IH. intros q' Hin. apply Hsame. by right.
Qed.

Lemma ctx_ok_kept st st' B pB mB hsB p l fd0 :
  ctx_ok st B pB mB hsB → SigMonKey st' !! B = Some pB → others_kept st st' p l fd0 →
  pB ≠ p → (∀ q, q ∈ handlerObjList mB → q ∉ l) → fd mB ≠ fd0 →
  ctx_ok st' B pB mB hsB.
Proof.
  intros [Hkey Hobj [Hlinked Hnodup Hents] Hsigs [Hfd Hopen (r & Hr & Hmon)]]
         Hkey' (Hn & Hp & Hh & Ht & Hrs) Hne Hl Hfd0.
  split; [done | by rewrite Hp | split; [|done|done] | done | split; [done | |]].
  - apply (linked_same (HandlerObjPool st)); [done|].
    intros q Hin. apply Hh; [|by apply Hl].
    destruct (linked_lookup _ _ _ _ Hlinked Hin) as (h & -> & _). by eexists.
  - rewrite Ht; [done | by eexists | done].
  - exists r. split; [done|]. rewrite Hrs by (by eexists).
    unfold monitorName in *. by rewrite Hn.
Qed.

Lemma apart_sym m1 m2 : apart m1 m2 → apart m2 m1.
Proof.
  intros (Hl & Hf & Hr). split_and!; [|done|done].
  intros q H2 H1. by apply (Hl q).
Qed.

(** A returning call keeps the registry of every thread well formed and
    the contexts apart, and leaves the entries of the other threads as
    they are. *)
Lemma SetEventHandler_threads A sig h st st' :
  threads_ok st → le_sig_SetEventHandler A sig h st = (Returned, st') →
  threads_ok st' ∧ ∀ B, B ≠ A → entries st' B = entries st B.
Proof.
  intros [Hinv Hsep] Hcall.
  destruct (SetEventHandler_footprint _ _ _ _ _ (Hinv A) Hcall)
    as [-> | (p & l & fd0 & r0 & Hbefore & Hkey' & Hkept & m' & Hm' & Hl' & Hfd' & Hr')];
    [by split|].
  assert (HkA : SigMonKey st' !! A = Some p) by (rewrite Hkey'; apply lookup_insert_eq).
  assert (HB : ∀ B, B ≠ A →
            (SigMonKey st !! B = None ∧ SigMonKey st' !! B = None) ∨
            ∃ pB mB hsB, ctx_ok st B pB mB hsB ∧ ctx_ok st' B pB mB hsB ∧
                         pB ≠ p ∧ apart m' mB).
  { intros B Hne.
    assert (HkB : SigMonKey st' !! B = SigMonKey st !! B)
      by (rewrite Hkey'; by apply lookup_insert_ne).
    destruct (Hinv B) as [HnB | (pB & mB & hsB & HctxB)]; [left; by rewrite HkB|].
    right. exists pB, mB, hsB.
    pose proof HctxB as [HkeyB HobjB [HlinkedB _ _] _ [HfdB HopenB (rB & HrB & HmonB)]].
    assert (Hfacts : pB ≠ p ∧ (∀ q, q ∈ handlerObjList mB → q ∉ l) ∧ fd mB ≠ fd0 ∧
                     monitorRef mB ≠ r0).
    { destruct (SigMonKey st !! A) as [pA|] eqn:HkeyA.
      - destruct Hbefore as (-> & m & Hm & -> & -> & ->).
        destruct (Hsep A B p pB m mB) as (Hp & Hlist & Hf & Hr); try done.
        split_and!; [done | | done | done].
        intros q HqB HqA. by apply (Hlist q).
      - destruct Hbefore as (Hp & -> & -> & ->).
        split_and!; [congruence | | done | congruence].
        intros q _. apply not_elem_of_nil. }
    destruct Hfacts as (Hp & Hlist & Hf & Hr).
    split_and!; [done | | done |].
    - apply (ctx_ok_kept st st' B pB mB hsB p l fd0); try done. by rewrite HkB.
    - split_and!.
      + intros q Hq HqB. destruct (Hl' q Hq) as [Hin | Hnone].
        * by apply (Hlist q).
        * destruct (linked_lookup _ _ _ _ HlinkedB HqB) as (h' & Hh' & _). congruence.
      + destruct Hfd' as [-> | Hnone]; [done | congruence].
      + destruct Hr' as [-> | (r & -> & Hnone)]; [done|]. rewrite HrB. intros [= ->]. congruence. }
  split; [split|].
  - intros t. destruct (decide (t = A)) as [-> | Hne].
    + by destruct (SetEventHandler_inv _ _ _ _ _ (Hinv A) Hcall).
    + destruct (HB t Hne) as [[_ ?] | (pB & mB & hsB & _ & ? & _)]; [by left | right; eauto].
  - intros t1 t2 p1 p2 m1 m2 Hne K1 K2 M1 M2.
    destruct (decide (t1 = A)) as [-> | Hne1]; [|destruct (decide (t2 = A)) as [-> | Hne2]].
    + assert (p1 = p) as -> by congruence. assert (m1 = m') as -> by congruence.
      destruct (HB t2 (not_eq_sym Hne)) as [[_ ?] | (pB & mB & hsB & _ & Hctx' & Hp & Hap)];
        [congruence|].
      pose proof (ok_key _ _ _ _ _ Hctx'). pose proof (ok_obj _ _ _ _ _ Hctx').
      assert (p2 = pB) as -> by congruence. assert (m2 = mB) as -> by congruence.
      split; [done | done].
    + assert (p2 = p) as -> by congruence. assert (m2 = m') as -> by congruence.
      destruct (HB t1 Hne) as [[_ ?] | (pB & mB & hsB & _ & Hctx' & Hp & Hap)];
        [congruence|].
      pose proof (ok_key _ _ _ _ _ Hctx'). pose proof (ok_obj _ _ _ _ _ Hctx').
      assert (p1 = pB) as -> by congruence. assert (m1 = mB) as -> by congruence.
      split; [done | by apply apart_sym].
    + destruct (HB t1 Hne1) as [[_ ?] | (q1 & n1 & hs1 & Hc1 & Hc1' & _)]; [congruence|].
      destruct (HB t2 Hne2) as [[_ ?] | (q2 & n2 & hs2 & Hc2 & Hc2' & _)]; [congruence|].
      pose proof (ok_key _ _ _ _ _ Hc1'). pose proof (ok_obj _ _ _ _ _ Hc1').
      pose proof (ok_key _ _ _ _ _ Hc2'). pose proof (ok_obj _ _ _ _ _ Hc2').
      assert (p1 = q1) as -> by congruence. assert (m1 = n1) as -> by congruence.
      assert (p2 = q2) as -> by congruence. assert (m2 = n2) as -> by congruence.
      apply (Hsep t1 t2); [done | apply Hc1 | apply Hc2 | apply Hc1 | apply Hc2].
  - intros B Hne. destruct (HB B Hne) as [[Hn Hn'] | (pB & mB & hsB & Hc & Hc' & _)].
    + destruct (no_key_view _ _ Hn) as (_ & -> & _).
      by destruct (no_key_view _ _ Hn') as (_ & -> & _).
    + destruct (ctx_ok_view _ _ _ _ _ Hc) as (_ & -> & _).
      by destruct (ctx_ok_view _ _ _ _ _ Hc') as (_ & -> & _).
Qed.

Lemma calls_of_cons t A sig h calls :
  calls_of t ((A, sig, h) :: calls)
  = if decide (A = t) then (sig, h) :: calls_of t calls else calls_of t calls.
Proof. unfold calls_of. simpl. by destruct (decide (A = t)). Qed.

Lemma SetEventHandlers_by_threads calls : ∀ st st',
  threads_ok st → SetEventHandlers_by calls st = (Returned, st') →
  threads_ok st' ∧ ∀ t, entries st' t = spec_SetHandlers (calls_of t calls) (entries st t).
Proof.
  induction calls as [|[[A sig] h] calls IH]; intros st st' Hok; cbn [SetEventHandlers_by].
  - intros [= <-]. by split.
  - destruct (le_sig_SetEventHandler A sig h st) as [o st1] eqn:Hcall.
    destruct o; try done. intros Hrun.
    destruct (SetEventHandler_threads _ _ _ _ _ Hok Hcall) as [Hok1 Hothers].
    destruct (IH st1 st' Hok1 Hrun) as [Hok' Hes]. split; [done|].
    intros t. rewrite Hes, calls_of_cons.
    destruct (decide (A = t)) as [-> | Hne].
    + destruct (SetEventHandler_entries _ _ _ _ _ (proj1 Hok t) Hcall) as [_ ->]. done.
    + by rewrite Hothers by done.
Qed.

(** X22.  Every thread has a registry of its own.  From a process in
    which no thread has a context, let any threads make
    le_sig_SetEventHandler calls in any interleaving, all of which
    return.  Then the entries of each thread are what its own calls make
    of an empty list, in the words of the specification, whatever the
    other threads did in between; and two threads that have a context
    have different descriptors and different monitors, and no handler
    object is linked in both. *)
Theorem every_thread_has_its_own_registry calls st0 st :
  SigMonKey st0 = ∅ →
  SetEventHandlers_by calls st0 = (Returned, st) →
  (∀ t, entries st t = spec_SetHandlers (calls_of t calls) []) ∧
  (∀ t1 t2 m1 m2, t1 ≠ t2 → context st t1 = Some m1 → context st t2 = Some m2 →
     fd m1 ≠ fd m2 ∧ monitorRef m1 ≠ monitorRef m2 ∧
     ∀ q, q ∈ handlerObjList m1 → q ∉ handlerObjList m2).
Proof.
  intros Hempty Hrun.
  assert (Hok : threads_ok st0).
  { split; [intros t; left; by rewrite Hempty|].
    intros t1 t2 p1 p2 m1 m2 _ K1. by rewrite Hempty in K1. }
  destruct (SetEventHandlers_by_threads calls st0 st Hok Hrun) as [[Hinv Hsep] Hes].
  split.
  - intros t. rewrite Hes.
    assert (Hn : SigMonKey st0 !! t = None) by (by rewrite Hempty).
    by destruct (no_key_view _ _ Hn) as (_ & -> & _).
  - intros t1 t2 m1 m2 Hne C1 C2. unfold context in C1, C2.
    destruct (SigMonKey st !! t1) as [p1|] eqn:K1; [|done].
    destruct (SigMonKey st !! t2) as [p2|] eqn:K2; [|done]. simpl in C1, C2.
    destruct (Hsep t1 t2 p1 p2 m1 m2 Hne K1 K2 C1 C2) as (_ & Hl & Hf & Hr). done.
Qed.

Lemma every_thread_has_its_own_registry_witness :
  let calls := [(100, SIGTERM, Some (UserFunc 1)); (200, SIGTERM, Some (UserFunc 2));
                (100, SIGUSR1, Some (UserFunc 3)); (200, SIGTERM, None)] in
  (∀ t, entries (snd (SetEventHandlers_by calls boot)) t
        = spec_SetHandlers (calls_of t calls) []) ∧
  (∀ t1 t2 m1 m2, t1 ≠ t2 →
     context (snd (SetEventHandlers_by calls boot)) t1 = Some m1 →
     context (snd (SetEventHandlers_by calls boot)) t2 = Some m2 →
     fd m1 ≠ fd m2 ∧ monitorRef m1 ≠ monitorRef m2 ∧
     ∀ q, q ∈ handlerObjList m1 → q ∉ handlerObjList m2).
Proof.
  intros calls.
  apply (every_thread_has_its_own_registry calls boot).
  - reflexivity.
  - vm_compute. reflexivity.
Defined.

(** * Blocking and handling *)

Lemma handled_no_context st self : context st self = None → handled st self = ∅.
Proof. intros H. unfold handled, entries. by rewrite H. Qed.

Lemma handled_spec_SetHandler sig h hs :
  (list_to_set (sigNum <$> filter (λ e, is_Some (handler e)) (spec_SetHandler sig h hs)) : gset Z)
  ⊆ list_to_set (sigNum <$> filter (λ e, is_Some (handler e)) hs)
    ∪ match h with Some _ => {[sig]} | None => ∅ end.
Proof.
  intros x. rewrite elem_of_union, !elem_of_list_to_set, !list_elem_of_fmap.
  intros (e & -> & [HP He]%list_elem_of_filter).
  destruct h as [f|]; simpl in He.
  - destruct (decide (sig ∈ sigNum <$> hs)) as [Hin | Hnotin].
    + apply list_elem_of_fmap in He as (y & -> & Hy).
      destruct (decide (sigNum y = sig)) as [E | E]; [right; set_solver|].
      left. exists y. split; [done|]. by apply list_elem_of_filter.
    + apply elem_of_app in He as [He | ->%list_elem_of_singleton]; [|right; set_solver].
      left. exists e. split; [done|]. by apply list_elem_of_filter.
  - apply list_elem_of_filter in He as [_ He].
    left. exists e. split; [done|]. by apply list_elem_of_filter.
Qed.

Lemma Block_registry self sig st st' :
  le_sig_Block self sig st = (Returned, st') →
  SigMonKey st' = SigMonKey st ∧ MonitorObjPool st' = MonitorObjPool st ∧
  HandlerObjPool st' = HandlerObjPool st ∧ fdtable st' = fdtable st ∧
  fdMonitors st' = fdMonitors st ∧ threadName st' = threadName st ∧
  (is_signal sig ∧ ∀ s, s ∈ blocked st self ∨ s ∈ kernel_mask {[sig]} → s ∈ blocked st' self).
Proof.
  unfold le_sig_Block. destruct (self =? -1); [done|].
  destruct (sigaddset ∅ sig) as [set|] eqn:Hset; [|done].
  apply sigaddset_Some in Hset as [Hsig ->].
  destruct (self =? pid st); intros [= <-]; simpl; split_and!; try done;
    intros s Hs; unfold blocked; simpl; rewrite lookup_insert_eq; simpl;
    unfold blocked in Hs; simpl in Hs; unfold kernel_mask in *; set_solver.
Qed.

Lemma sig_inv_same_registry st st' self :
  SigMonKey st' = SigMonKey st → MonitorObjPool st' = MonitorObjPool st →
  HandlerObjPool st' = HandlerObjPool st → fdtable st' = fdtable st →
  fdMonitors st' = fdMonitors st → threadName st' = threadName st →
  sig_inv st self → sig_inv st' self ∧ handled st' self = handled st self.
Proof.
  intros Hk Hm Hh Ht Hr Hn Hinv. split.
  - destruct Hinv as [Hnone | (p & m & hs & Hctx)]; [left; by rewrite Hk|].
    right. exists p, m, hs.
    destruct Hctx as [Hkey Hobj [Hlinked Hnodup Hents] Hsigs [Hfd Hopen (r & Href & Hmon)]].
    split; [by rewrite Hk | by rewrite Hm | split; [by rewrite Hh | done | done] | done |].
    split; [done | by rewrite Ht |]. exists r. split; [done|].
    unfold monitorName. by rewrite Hr, Hn.
  - unfold handled, entries, context. by rewrite Hk, Hm, Hh.
Qed.

Lemma dangling_same_registry st st' self :
  SigMonKey st' = SigMonKey st → MonitorObjPool st' = MonitorObjPool st →
  dangling st self → dangling st' self.
Proof. intros Hk Hm (p & ? & ?). exists p. by rewrite Hk, Hm. Qed.

Lemma dangling_handled st self : dangling st self → handled st self = ∅.
Proof.
  intros (p & Hk & Hp). apply handled_no_context. unfold context. by rewrite Hk.
Qed.

(** One call that returns: the thread keeps a well-formed registry or a
    dangling key, handles at most one signal more, and has at least the
    signal of a le_sig_Block call blocked in addition. *)
Lemma do_call_protocol self c st st' :
  sig_inv st self ∨ dangling st self →
  do_call self c st = (Returned, st') →
  (sig_inv st' self ∨ dangling st' self) ∧
  handled st' self ⊆ handled st self ∪ list_to_set (register_calls [c]) ∧
  (∀ s, s ∈ blocked st self ∨ s ∈ kernel_mask (list_to_set (block_calls [c])) →
        s ∈ blocked st' self).
Proof.
  intros HJ. destruct c as [sig | sig h | intr]; simpl.
  - intros Hb. destruct (Block_registry _ _ _ _ Hb) as (Hk & Hm & Hh & Ht & Hr & Hn & _ & Hbl).
    split_and!.
    + destruct HJ as [Hinv | Hd].
      * left. by apply (sig_inv_same_registry st).
      * right. by apply (dangling_same_registry st).
    + assert (handled st' self = handled st self) as ->; [|set_solver].
      unfold handled, entries, context. by rewrite Hk, Hm, Hh.
    + intros s Hs. apply Hbl. unfold kernel_mask in *. set_solver.
  - intros Hset. destruct HJ as [Hinv | (p & Hk & Hp)].
    + destruct (SetEventHandler_entries _ _ _ _ _ Hinv Hset) as [Hinv' Hes].
      destruct (SetEventHandler_frame _ _ _ _ _ _ Hset) as [Hmask _].
      split_and!; [by left | |].
      * unfold handled. rewrite Hes.
        etrans; [apply handled_spec_SetHandler|]. destruct h; set_solver.
      * intros s Hs. unfold blocked in *. rewrite Hmask. unfold kernel_mask in Hs. set_solver.
    + unfold le_sig_SetEventHandler, set_in_monitor in Hset.
      rewrite Hk, Hp in Hset. by destruct (not_allowed sig).
  - intros Hdel. destruct (DeleteAll_frame _ _ _ _ _ Hdel) as [Hkey Hmask].
    assert (Hbl : ∀ s, s ∈ blocked st self ∨ s ∈ kernel_mask (list_to_set []) →
                       s ∈ blocked st' self).
    { intros s Hs. unfold blocked in *. rewrite Hmask. unfold kernel_mask in Hs. set_solver. }
    destruct HJ as [[Hnone | (p & m & hs & Hctx)] | (p & Hk & Hp)].
    + rewrite (DeleteAll_no_context _ _ _ Hnone) in Hdel. injection Hdel as <-.
      split_and!; [left; by left | set_solver | done].
    + destruct (DeleteAll_twice self intr [] st p m hs st' Hctx Hdel) as (Hk' & Hp' & _).
      assert (Hd : dangling st' self) by (by exists p).
      split_and!; [by right | | done].
      rewrite (dangling_handled _ _ Hd). set_solver.
    + unfold le_sig_DeleteAll in Hdel. by rewrite Hk, Hp in Hdel.
Qed.

Lemma do_calls_protocol self cs : ∀ st st',
  sig_inv st self ∨ dangling st self →
  do_calls self cs st = (Returned, st') →
  (sig_inv st' self ∨ dangling st' self) ∧
  handled st' self ⊆ handled st self ∪ list_to_set (register_calls cs) ∧
  (∀ s, s ∈ blocked st self ∨ s ∈ kernel_mask (list_to_set (block_calls cs)) →
        s ∈ blocked st' self).
Proof.
  induction cs as [|c cs IH]; intros st st' HJ; cbn [do_calls].
  - intros [= <-]. split_and!; [done | set_solver |].
    intros s [? | Hs]; [done|]. unfold kernel_mask in Hs. set_solver.
  - destruct (do_call self c st) as [o st1] eqn:Hc. destruct o; try done. intros Hrun.
    destruct (do_call_protocol _ _ _ _ HJ Hc) as (HJ1 & Hh1 & Hb1).
    destruct (IH st1 st' HJ1 Hrun) as (HJ' & Hh' & Hb').
    assert (Hr : register_calls (c :: cs) = register_calls [c] ++ register_calls cs).
    { unfold register_calls. simpl. destruct c as [| ? [?|] |]; done. }
    assert (Hbc : block_calls (c :: cs) = block_calls [c] ++ block_calls cs).
    { unfold block_calls. simpl. by destruct c. }
    rewrite Hr, Hbc, !list_to_set_app_L.
    split_and!; [done | set_solver |].
    intros s Hs. apply Hb'. unfold kernel_mask in *.
    destruct Hs as [Hs | Hs]; [left; apply Hb1; by left|].
    apply elem_of_difference in Hs as [[Hs | Hs]%elem_of_union Hks].
    + left. apply Hb1. right. by apply elem_of_difference.
    + right. by apply elem_of_difference.
Qed.

(** X23.  Blocking before handling.  Let a thread without context make
    any sequence of le_sig_Block, le_sig_SetEventHandler and
    le_sig_DeleteAll calls, all of which return, in which it also calls
    le_sig_Block for every signal it registers a handler for, in
    whatever order.  Then every signal the thread handles in the end is
    blocked in it, so that it reaches the thread through the descriptor
    only. *)
Theorem handled_signals_are_blocked_when_blocked_by_caller self cs st st' :
  SigMonKey st !! self = None →
  do_calls self cs st = (Returned, st') →
  (∀ sig f, CallSetEventHandler sig (Some f) ∈ cs → CallBlock sig ∈ cs) →
  handled st' self ⊆ blocked st' self.
Proof.
  intros Hnone Hrun Hproto.
  destruct (do_calls_protocol self cs st st' (or_introl (or_introl Hnone)) Hrun)
    as (HJ & Hh & Hb).
  destruct (no_key_view _ _ Hnone) as (_ & _ & Hh0). rewrite Hh0 in Hh.
  intros s Hs. apply Hb. right.
  assert (Hallowed : not_allowed s = false).
  { destruct HJ as [[Hn | (p & m & hs & Hctx)] | Hd].
    - destruct (no_key_view _ _ Hn) as (_ & _ & Hh'). rewrite Hh' in Hs. set_solver.
    - destruct (ctx_ok_view _ _ _ _ _ Hctx) as (_ & _ & Hh'). rewrite Hh' in Hs.
      apply elem_of_list_to_set in Hs.
      pose proof (list_ok_allowed _ _ _ (ok_list _ _ _ _ _ Hctx)) as Hall.
      rewrite Forall_forall in Hall. by apply Hall.
    - rewrite (dangling_handled _ _ Hd) in Hs. set_solver. }
  destruct (not_allowed_kill_stop _ Hallowed) as [Hk Hst].
  assert (Hreg : s ∈ register_calls cs).
  { apply Hh in Hs. apply elem_of_union in Hs as [Hs | Hs]; [set_solver|].
    by apply elem_of_list_to_set in Hs. }
  unfold register_calls in Hreg. apply list_elem_of_omap in Hreg as (c & Hc & Hsome).
  destruct c as [| sig [f|] |]; try done. injection Hsome as ->.
  specialize (Hproto _ _ Hc).
  unfold kernel_mask. apply elem_of_difference. split; [|set_solver].
  apply elem_of_list_to_set. unfold block_calls. apply list_elem_of_omap.
  by exists (CallBlock s).
Qed.

Lemma handled_signals_are_blocked_when_blocked_by_caller_witness :
  handled (snd (do_calls 100 [CallBlock SIGTERM; CallSetEventHandler SIGTERM (Some (UserFunc 1));
                              CallSetEventHandler SIGUSR1 (Some (UserFunc 2));
                              CallBlock SIGUSR1] boot)) 100
  ⊆ blocked (snd (do_calls 100 [CallBlock SIGTERM;
                                CallSetEventHandler SIGTERM (Some (UserFunc 1));
                                CallSetEventHandler SIGUSR1 (Some (UserFunc 2));
                                CallBlock SIGUSR1] boot)) 100.
Proof.
  apply (handled_signals_are_blocked_when_blocked_by_caller 100
           [CallBlock SIGTERM; CallSetEventHandler SIGTERM (Some (UserFunc 1));
            CallSetEventHandler SIGUSR1 (Some (UserFunc 2)); CallBlock SIGUSR1] boot).
  - reflexivity.
  - vm_compute. reflexivity.
  - intros sig f H.
    repeat (apply elem_of_cons in H as [H | H]; [try discriminate H|]);
      try (by apply elem_of_nil in H).
    + injection H as -> _. set_solver.
    + injection H as -> _. set_solver.
Defined.

(** * A failed write truncates the dump *)

Lemma truncated_same {A} (m : Handler A) :
  (∀ t, ∃ more, events (snd (m t)) = events t ++ more ∧ clean more) → truncated m m.
Proof. intros H t. left. split; [done | apply H]. Qed.

Lemma truncated_ret {A} (a : A) : truncated (ret a) (ret a).
Proof.
  apply truncated_same. intros t. exists []. simpl. rewrite app_nil_r. split; [done | constructor].
Qed.

Lemma truncated_spin {A} : truncated (@spin A) (@spin A).
Proof.
  apply truncated_same. intros t. exists []. simpl. rewrite app_nil_r. split; [done | constructor].
Qed.

Lemma truncated_emit e : (∀ b, e ≠ EvWrite b false) → truncated (emit e) (emit e).
Proof.
  intros He. apply truncated_same. intros t. exists [e]. split; [done|]. by repeat constructor.
Qed.

Lemma extends_sound {A} sig (m : Handler A) : sound sig m → extends m.
Proof. intros Hm t. by apply (sound_extends sig). Qed.

Lemma truncated_bind {A B} (m m_ok : Handler A) (k k_ok : A → Handler B) :
  truncated m m_ok → (∀ a, truncated (k a) (k_ok a)) → (∀ a, extends (k_ok a)) →
  truncated (bind m k) (bind m_ok k_ok).
Proof.
  intros Hm Hk Hext t. unfold bind.
  destruct (Hm t) as [[Heq (more & Hev & Hc)] | (Hret & more & b & tail & rest & Hev & Hok & Hc & Ht)].
  - rewrite <- Heq. destruct (m t) as [[a| |] t1]; simpl in *.
    + destruct (Hk a t1)
        as [[Heq' (more' & Hev' & Hc')] | (Hret' & more' & b' & tail' & rest' & Hev' & Hok' & Hc' & Ht')].
      * left. split; [done|]. exists (more ++ more').
        rewrite Hev', Hev, app_assoc. split; [done | by apply clean_app].
      * right. split; [done|]. exists (more ++ more'), b', tail', rest'.
        rewrite Hev', Hok', Hev, <- !app_assoc. split_and!; [done | done | by apply clean_app | done].
    + left. split; [done|]. by exists more.
    + left. split; [done|]. by exists more.
  - destruct (m t) as [[a| |] t1]; simpl in *; [done| |done].
    right. split; [done|]. destruct (m_ok t) as [[a| |] t2]; simpl in *.
    + destruct (Hext a t2) as (more' & Hev'). exists more, b, tail, (rest ++ more').
      rewrite Hev', Hok, <- !app_assoc. by split_and!.
    + by exists more, b, tail, rest.
    + by exists more, b, tail, rest.
Qed.

Section Truncation.

Variables (sig : Z) (c : Crash) (wr : nat → bool).

Lemma truncated_CHECK_WRITE b : truncated (CHECK_WRITE sig wr b) (CHECK_WRITE sig all_ok b).
Proof.
  intros t. unfold CHECK_WRITE, bind, write, emit, leave, ret, all_ok.
  destruct (wr (nwrites t)); simpl.
  - left. split; [done|]. exists [EvWrite b true]. split; [done|]. by repeat constructor.
  - right. split; [done|]. exists [], b, [EvRaise sig], []. simpl.
    rewrite <- app_assoc. split_and!; [done | done | constructor | by repeat constructor].
Qed.

Lemma truncated_write_or_close b f (k k_ok : Handler unit) :
  truncated k k_ok → extends k_ok →
  truncated
    (bind (write wr b)
       (λ full, if full then k
                else bind (emit (EvClose f)) (λ _, bind (emit (EvRaise sig)) (λ _, leave))))
    (bind (write all_ok b)
       (λ full, if full then k_ok
                else bind (emit (EvClose f)) (λ _, bind (emit (EvRaise sig)) (λ _, leave)))).
Proof.
  intros Hk Hext t.
  set (t1 := mkTrace (S (nwrites t)) (events t ++ [EvWrite b true])).
  assert (Eok : bind (write all_ok b)
                  (λ full, if full then k_ok
                           else bind (emit (EvClose f))
                                  (λ _, bind (emit (EvRaise sig)) (λ _, leave))) t
                = k_ok t1) by done.
  assert (E : bind (write wr b)
                (λ full, if full then k
                         else bind (emit (EvClose f))
                                (λ _, bind (emit (EvRaise sig)) (λ _, leave))) t
              = if wr (nwrites t) then k t1
                else (Return, mkTrace (S (nwrites t))
                                (events t ++ [EvWrite b false; EvClose f; EvRaise sig]))).
  { unfold bind, write, emit, leave. destruct (wr (nwrites t)); simpl; [done|].
    by rewrite <- !app_assoc. }
  rewrite E, Eok. destruct (wr (nwrites t)).
  - destruct (Hk t1)
      as [[Heq (more & Hev & Hc)] | (Hret & more & b' & tail & rest & Hev & Hok & Hc & Ht)];
      simpl in Hev.
    + left. split; [done|]. exists (EvWrite b true :: more).
      rewrite Hev, <- app_assoc. split; [done|]. by constructor.
    + right. split; [done|]. exists (EvWrite b true :: more), b', tail, rest.
      rewrite Hev, Hok. simpl. rewrite <- !app_assoc.
      split_and!; [done | done | by constructor | done].
  - right. split; [done|]. destruct (Hext t1) as (more' & Hev'). simpl in Hev'.
    exists [], b, [EvClose f; EvRaise sig], more'. simpl.
    rewrite Hev', <- app_assoc. split_and!; [done | done | constructor | by repeat constructor].
Qed.

Lemma truncated_cmdline_loop reads :
  truncated (cmdline_loop sig wr reads) (cmdline_loop sig all_ok reads).
Proof.
  induction reads as [|r reads IH]; cbn [cmdline_loop]; [apply truncated_ret|].
  destruct (0 <? rc_of r); [|apply truncated_ret].
  apply truncated_write_or_close; [done|]. apply (extends_sound sig), sound_cmdline_loop.
Qed.

Lemma truncated_maps_loop content : ∀ line len,
  truncated (maps_loop sig wr content line len) (maps_loop sig all_ok content line len).
Proof.
  induction content as [|ch content IH]; intros line len; cbn [maps_loop];
    [apply truncated_ret|].
  destruct (Ascii.eqb newline ch).
  - apply truncated_write_or_close; [done|]. apply (extends_sound sig), sound_maps_loop.
  - destruct (len + 1 <? 256); apply IH.
Qed.

Lemma truncated_arm_frames fuel regs base mem : ∀ addr frame,
  truncated (arm_frames sig wr fuel regs base mem addr frame)
            (arm_frames sig all_ok fuel regs base mem addr frame).
Proof.
  induction fuel as [|fuel IH]; intros addr frame; cbn [arm_frames]; [apply truncated_spin|].
  apply truncated_bind; [apply truncated_CHECK_WRITE | intros _ | intros _].
  - destruct (_ || _); [apply truncated_ret|].
    destruct (addr =? arm_pc regs); [apply IH|].
    destruct (frame <=? mem (frame - 4)); [apply truncated_ret | apply IH].
  - apply (extends_sound sig).
    destruct (_ || _); [apply sound_ret|].
    destruct (addr =? arm_pc regs); [apply sound_arm_frames|].
    destruct (frame <=? mem (frame - 4)); [apply sound_ret | apply sound_arm_frames].
Qed.

Lemma truncated_arm_stack lines mem : ∀ frame,
  truncated (arm_stack sig wr lines mem frame) (arm_stack sig all_ok lines mem frame).
Proof.
  induction lines as [|lines IH]; intros frame; cbn [arm_stack]; [apply truncated_ret|].
  apply truncated_bind; [apply truncated_CHECK_WRITE | intros _; apply IH | intros _].
  apply (extends_sound sig), sound_arm_stack.
Qed.

Lemma truncated_backtrace_loop addrs : ∀ n,
  truncated (backtrace_loop sig wr n addrs) (backtrace_loop sig all_ok n addrs).
Proof.
  induction addrs as [|a addrs IH]; intros n; cbn [backtrace_loop]; [apply truncated_ret|].
  apply truncated_bind; [apply truncated_CHECK_WRITE | intros _; apply IH | intros _].
  apply (extends_sound sig), sound_backtrace_loop.
Qed.

Lemma truncated_intro_section :
  truncated (intro_section sig c wr) (intro_section sig c all_ok).
Proof.
  unfold intro_section.
  apply truncated_bind; [apply truncated_CHECK_WRITE | intros _ | intros _].
  - apply truncated_bind; [apply truncated_CHECK_WRITE | intros _ | intros _].
    + apply truncated_CHECK_WRITE.
    + apply (extends_sound sig), sound_CHECK_WRITE.
  - apply (extends_sound sig). apply sound_bind; [apply sound_CHECK_WRITE | intros _].
    apply sound_CHECK_WRITE.
Qed.

Lemma truncated_version_section :
  truncated (version_section sig c wr) (version_section sig c all_ok).
Proof.
  assert (Hs : ∀ w, sound sig (match version_file c with
                    | None => ret tt
                    | Some r =>
                        bind (emit (EvClose VersionFile))
                          (λ _, if 0 <? rc_of r
                                then bind (CHECK_WRITE sig w (Raw (bytes_of r)))
                                       (λ _, CHECK_WRITE sig w (Lit "\n"))
                                else CHECK_WRITE sig w (Printf "Cannot read legato version\n" []))
                    end)).
  { intros w. destruct (version_file c) as [r|]; [|apply sound_ret].
    apply sound_bind; [by apply sound_emit | intros _].
    destruct (0 <? rc_of r); [|apply sound_CHECK_WRITE].
    apply sound_bind; [apply sound_CHECK_WRITE | intros _; apply sound_CHECK_WRITE]. }
  unfold version_section.
  apply truncated_bind; [apply truncated_CHECK_WRITE | intros _ | intros _].
  - destruct (version_file c) as [r|]; [|apply truncated_ret].
    apply truncated_bind; [by apply truncated_emit | intros _ | intros _].
    + destruct (0 <? rc_of r); [|apply truncated_CHECK_WRITE].
      apply truncated_bind; [apply truncated_CHECK_WRITE | intros _ | intros _].
      * apply truncated_CHECK_WRITE.
      * apply (extends_sound sig), sound_CHECK_WRITE.
    + apply (extends_sound sig). destruct (0 <? rc_of r); [|apply sound_CHECK_WRITE].
      apply sound_bind; [apply sound_CHECK_WRITE | intros _; apply sound_CHECK_WRITE].
  - apply (extends_sound sig), Hs.
Qed.

Lemma truncated_cmdline_section :
  truncated (cmdline_section sig c wr) (cmdline_section sig c all_ok).
Proof.
  unfold cmdline_section.
  apply truncated_bind; [apply truncated_CHECK_WRITE | intros _ | intros _].
  - destruct (cmdline_file c) as [reads|]; [|apply truncated_ret].
    apply truncated_bind; [apply truncated_cmdline_loop | intros _ | intros _].
    + apply truncated_bind; [by apply truncated_emit | intros _ | intros _].
      * apply truncated_CHECK_WRITE.
      * apply (extends_sound sig), sound_CHECK_WRITE.
    + apply (extends_sound sig). apply sound_bind; [by apply sound_emit | intros _].
      apply sound_CHECK_WRITE.
  - apply (extends_sound sig). destruct (cmdline_file c) as [reads|]; [|apply sound_ret].
    apply sound_bind; [apply sound_cmdline_loop | intros _].
    apply sound_bind; [by apply sound_emit | intros _]. apply sound_CHECK_WRITE.
Qed.

Lemma truncated_maps_section :
  truncated (maps_section sig c wr) (maps_section sig c all_ok).
Proof.
  unfold maps_section.
  apply truncated_bind; [apply truncated_CHECK_WRITE | intros _ | intros _].
  - destruct (maps_file c) as [content|]; [|apply truncated_ret].
    apply truncated_bind; [apply truncated_maps_loop | intros _ | intros _].
    + by apply truncated_emit.
    + apply (extends_sound sig). by apply sound_emit.
  - apply (extends_sound sig). destruct (maps_file c) as [content|]; [|apply sound_ret].
    apply sound_bind; [apply sound_maps_loop | intros _]. by apply sound_emit.
Qed.

Lemma truncated_backtrace_section fuel :
  truncated (backtrace_section sig c wr fuel) (backtrace_section sig c all_ok fuel).
Proof.
  pose proof (sound_backtrace_section sig c all_ok fuel) as Hs.
  unfold backtrace_section in *.
  apply truncated_bind; [apply truncated_CHECK_WRITE | intros _ | intros _].
  - destruct (machine c) as [regs base mem | pc callers]; [|apply truncated_backtrace_loop].
    apply truncated_bind; [apply truncated_arm_frames | intros _ | intros _].
    + apply truncated_bind; [apply truncated_CHECK_WRITE | intros _ | intros _].
      * apply truncated_bind; [apply truncated_CHECK_WRITE | intros _ | intros _].
        -- apply truncated_bind; [apply truncated_CHECK_WRITE | intros _ | intros _].
           ++ apply truncated_bind; [apply truncated_CHECK_WRITE | intros _ | intros _].
              ** apply truncated_arm_stack.
              ** apply (extends_sound sig), sound_arm_stack.
           ++ apply (extends_sound sig).
              apply sound_bind; [apply sound_CHECK_WRITE | intros _; apply sound_arm_stack].
        -- apply (extends_sound sig).
           apply sound_bind; [apply sound_CHECK_WRITE | intros _].
           apply sound_bind; [apply sound_CHECK_WRITE | intros _; apply sound_arm_stack].
      * apply (extends_sound sig).
        apply sound_bind; [apply sound_CHECK_WRITE | intros _].
        apply sound_bind; [apply sound_CHECK_WRITE | intros _].
        apply sound_bind; [apply sound_CHECK_WRITE | intros _; apply sound_arm_stack].
    + apply (extends_sound sig).
      apply sound_bind; [apply sound_CHECK_WRITE | intros _].
      apply sound_bind; [apply sound_CHECK_WRITE | intros _].
      apply sound_bind; [apply sound_CHECK_WRITE | intros _].
      apply sound_bind; [apply sound_CHECK_WRITE | intros _; apply sound_arm_stack].
  - apply (extends_sound sig).
    destruct (machine c) as [regs base mem | pc callers]; [|apply sound_backtrace_loop].
    apply sound_bind; [apply sound_arm_frames | intros _].
    apply sound_bind; [apply sound_CHECK_WRITE | intros _].
    apply sound_bind; [apply sound_CHECK_WRITE | intros _].
    apply sound_bind; [apply sound_CHECK_WRITE | intros _].
    apply sound_bind; [apply sound_CHECK_WRITE | intros _; apply sound_arm_stack].
Qed.

Lemma clean_gdb_section t :
  ∃ more, events (snd (gdb_section c t)) = events t ++ more ∧ clean more.
Proof.
  destruct (sound_gdb_section sig c t) as [H | (_ & more & b & tail & Hev & _ & _)]; [done|].
  exfalso. revert Hev. unfold gdb_section, bind, emit, ret, leave.
  destruct (gdbServerPort c =? 0); simpl.
  - intros H. apply (f_equal length) in H. rewrite !length_app in H. simpl in H. lia.
  - destruct (fork_ret c =? 0); [destruct (exec_fails c)|]; simpl; rewrite <- ?app_assoc;
      intros H; apply app_inv_head in H;
      destruct more as [|? [|? [|? [|? ?]]]]; simpl in H; discriminate H.
Qed.

Lemma truncated_ShowStackSignalHandler fuel :
  truncated (ShowStackSignalHandler sig c wr fuel) (ShowStackSignalHandler sig c all_ok fuel).
Proof.
  pose proof (sound_after_version sig c all_ok fuel) as Hs.
  unfold ShowStackSignalHandler.
  apply truncated_bind; [apply truncated_intro_section | intros _ | intros _].
  - apply truncated_bind; [apply truncated_version_section | intros _ | intros _].
    + unfold after_version in *.
      apply truncated_bind; [apply truncated_cmdline_section | intros _ | intros _].
      * apply truncated_bind; [apply truncated_maps_section | intros _ | intros _].
        -- apply truncated_bind; [apply truncated_backtrace_section | intros _ | intros _].
           ++ apply truncated_bind; [apply truncated_CHECK_WRITE | intros _ | intros _].
              ** apply truncated_bind; [| intros _ | intros _].
                 --- apply truncated_same, clean_gdb_section.
                 --- by apply truncated_emit.
                 --- apply (extends_sound sig). by apply sound_emit.
              ** apply (extends_sound sig).
                 apply sound_bind; [apply sound_gdb_section | intros _]. by apply sound_emit.
           ++ apply (extends_sound sig).
              apply sound_bind; [apply sound_CHECK_WRITE | intros _].
              apply sound_bind; [apply sound_gdb_section | intros _]. by apply sound_emit.
        -- apply (extends_sound sig).
           apply sound_bind; [apply sound_backtrace_section | intros _].
           apply sound_bind; [apply sound_CHECK_WRITE | intros _].
           apply sound_bind; [apply sound_gdb_section | intros _]. by apply sound_emit.
      * apply (extends_sound sig).
        apply sound_bind; [apply sound_maps_section | intros _].
        apply sound_bind; [apply sound_backtrace_section | intros _].
        apply sound_bind; [apply sound_CHECK_WRITE | intros _].
        apply sound_bind; [apply sound_gdb_section | intros _]. by apply sound_emit.
    + apply (extends_sound sig), sound_after_version.
  - apply (extends_sound sig).
    apply sound_bind; [apply sound_version_section | intros _]. apply sound_after_version.
Qed.

End Truncation.

Lemma first_failed_write_unique more b tail pre b' post :
  clean more → clean tail →
  more ++ EvWrite b false :: tail = pre ++ EvWrite b' false :: post →
  pre = more ∧ b' = b.
Proof.
  intros Hc Ht. revert pre. induction more as [|e more IH]; intros pre Heq; simpl in *.
  - destruct pre as [|e' pre]; simpl in *; [by simplify_eq|].
    injection Heq as _ Htail. exfalso.
    assert (EvWrite b' false ∈ tail) as Hin by (rewrite Htail; set_solver).
    unfold clean in Ht. rewrite Forall_forall in Ht. by apply (Ht _ Hin b').
  - apply Forall_cons in Hc as [He Hc].
    destruct pre as [|e' pre]; simpl in *.
    + injection Heq as Hhead _. by destruct (He b').
    + injection Heq as -> Heq. destruct (IH Hc pre Heq) as [-> ->]. done.
Qed.

(** X24.  A failed write truncates and does not garble.  Compare any
    run of the handler with the run in the same circumstances in which
    every write succeeds.  If no write of the run fails, the two runs
    are the same.  If a write fails, then up to that write the run has
    done exactly what the other run does: the same writes of the same
    buffers, in the same order, with the same closes in between, and the
    buffer whose write failed is the one the other run writes next. *)
Theorem failed_write_truncates_the_dump sig c wr fuel :
  (clean (events (snd (crash_run sig c wr fuel))) →
   crash_run sig c wr fuel = crash_run sig c all_ok fuel) ∧
  (∀ pre b post,
     events (snd (crash_run sig c wr fuel)) = pre ++ EvWrite b false :: post →
     ∃ rest, events (snd (crash_run sig c all_ok fuel)) = pre ++ EvWrite b true :: rest).
Proof.
  unfold crash_run.
  destruct (truncated_ShowStackSignalHandler sig c wr fuel (mkTrace 0 []))
    as [[Heq (more & Hev & Hc)] | (Hret & more & b & tail & rest & Hev & Hok & Hc & Ht)];
    simpl in Hev.
  - split; [done|]. intros pre b post Hpre. rewrite Hpre in Hev. subst more.
    apply Forall_app in Hc as [_ Hc]. apply Forall_cons in Hc as [Hb _]. by destruct (Hb b).
  - simpl in Hok. split.
    + rewrite Hev. intros Hclean. apply Forall_app in Hclean as [_ Hclean].
      apply Forall_cons in Hclean as [Hb _]. by destruct (Hb b).
    + intros pre b' post Hpre. rewrite Hpre in Hev. symmetry in Hev.
      destruct (first_failed_write_unique _ _ _ _ _ _ Hc Ht Hev) as [-> ->].
      exists rest. done.
Qed.

(** ** One thread gives up its context *)

(** X25.  DeleteAll and the other threads.  In a process whose threads
    have registered their handlers in any interleaving, le_sig_DeleteAll
    of one thread leaves every other thread with the context and the
    entries it had, its descriptor open as before and its monitor
    registered as before. *)
Theorem DeleteAll_leaves_other_threads_alone calls st0 st A B intr st' :
  SigMonKey st0 = ∅ →
  SetEventHandlers_by calls st0 = (Returned, st) →
  A ≠ B →
  le_sig_DeleteAll A intr st = (Returned, st') →
  context st' B = context st B ∧ entries st' B = entries st B ∧
  ∀ m, context st B = Some m →
       fdtable st' !! fd m = fdtable st !! fd m ∧
       ∀ r, monitorRef m = Some r → fdMonitors st' !! r = fdMonitors st !! r.
Proof.
  intros Hempty Hrun Hne Hdel.
  assert (Hok : threads_ok st0).
  { split; [intros t; left; by rewrite Hempty|].
    intros t1 t2 p1 p2 m1 m2 _ K1. by rewrite Hempty in K1. }
  destruct (SetEventHandlers_by_threads calls st0 st Hok Hrun) as [[Hinv Hsep] _].
  destruct (Hinv A) as [HnA | (pA & mA & hsA & HctxA)].
  { rewrite (DeleteAll_no_context _ _ _ HnA) in Hdel. injection Hdel as <-. by split_and!. }
  rewrite (DeleteAll_ctx _ _ _ _ _ _ HctxA) in Hdel. injection Hdel as <-.
  destruct (Hinv B) as [HnB | (pB & mB & hsB & HctxB)].
  { assert (Hc : context st B = None) by (unfold context; by rewrite HnB).
    assert (Hc' : ∀ st1, SigMonKey st1 = SigMonKey st → context st1 B = None)
      by (intros st1 E; unfold context; by rewrite E, HnB).
    unfold entries. rewrite Hc, Hc' by (by destruct (monitorRef mA)).
    split_and!; [done | done | done]. }
  pose proof HctxA as [HkA HoA _ _ _].
  pose proof HctxB as [HkB HoB [HlB _ _] _ [_ _ (rB & HrB & _)]].
  destruct (Hsep A B pA pB mA mB Hne HkA HkB HoA HoB) as (Hp & Hl & Hf & Hr).
  destruct (ctx_ok_view _ _ _ _ _ HctxB) as (Hc & Hes & _).
  assert (Hc' : context
            (set_MonitorObjPool (delete pA)
               (release_handlers (handlerObjList mA)
                  (set_fdtable (delete (fd mA)) (le_fdMonitor_Delete (monitorRef mA) st)))) B
          = Some mB).
  { unfold context. destruct (monitorRef mA); simpl; rewrite HkB; simpl;
      by rewrite lookup_delete_ne. }
  split_and!.
  - by rewrite Hc, Hc'.
  - rewrite Hes. unfold entries. rewrite Hc'. apply linked_omap.
    apply (linked_same (HandlerObjPool st)); [done|].
    intros q Hq. destruct (monitorRef mA); simpl; rewrite release_handlers_lookup;
      (rewrite decide_False; [done|]); intros HqA; by apply (Hl q).
  - intros m Hm. assert (m = mB) as -> by congruence. split.
    + destruct (monitorRef mA); simpl; by rewrite lookup_delete_ne.
    + intros r Hr'. destruct (monitorRef mA) as [rA|] eqn:HrA; simpl; [|done].
      apply lookup_delete_ne. congruence.
Qed.

Lemma DeleteAll_leaves_other_threads_alone_witness :
  let calls := [(100, SIGTERM, Some (UserFunc 1)); (200, SIGTERM, Some (UserFunc 2))] in
  let st := snd (SetEventHandlers_by calls boot) in
  let st' := snd (le_sig_DeleteAll 100 [] st) in
  context st' 200 = context st 200 ∧ entries st' 200 = entries st 200 ∧
  ∀ m, context st 200 = Some m →
       fdtable st' !! fd m = fdtable st !! fd m ∧
       ∀ r, monitorRef m = Some r → fdMonitors st' !! r = fdMonitors st !! r.
Proof.
  intros calls st st'.
  apply (DeleteAll_leaves_other_threads_alone calls boot st 100 200 []).
  - reflexivity.
  - vm_compute. reflexivity.
  - lia.
  - vm_compute. reflexivity.
Defined.

(** * The crash handler runs once *)

(** X26.  One shot.  After the installer has run without being
    disabled, the delivery of any of the five signals runs the crash
    handler with the signal's disposition already back to the default,
    the other dispositions being untouched: when the handler raises the
    signal at its end, no handler runs again and the default action
    takes place. *)
Theorem crash_handler_is_one_shot getenv scan_u cfg sig :
  show_info_disabled getenv = false → sig ∈ crash_signals →
  deliver sig (actions (fst (le_sig_InstallShowStackHandler getenv scan_u cfg)))
  = (Some ShowStackSignalHandlerFn,
     delete sig (actions (fst (le_sig_InstallShowStackHandler getenv scan_u cfg)))) ∧
  deliver sig (delete sig (actions (fst (le_sig_InstallShowStackHandler getenv scan_u cfg))))
  = (None, delete sig (actions (fst (le_sig_InstallShowStackHandler getenv scan_u cfg)))) ∧
  ∀ sig', sig' ∈ crash_signals → sig' ≠ sig →
    deliver sig' (delete sig (actions (fst (le_sig_InstallShowStackHandler getenv scan_u cfg))))
    = (Some ShowStackSignalHandlerFn,
       delete sig' (delete sig
         (actions (fst (le_sig_InstallShowStackHandler getenv scan_u cfg))))).
Proof.
  intros Hd Hsig.
  destruct (InstallShowStackHandler_result getenv scan_u cfg) as (l & -> & _).
  rewrite Hd. cbn [fst actions].
  set (acts := <[SIGABRT:=one_shot]> _).
  assert (Hin : ∀ s, s ∈ crash_signals → acts !! s = Some one_shot).
  { intros s H. unfold crash_signals in H. unfold acts.
    repeat (apply elem_of_cons in H as [-> | H]); try by apply elem_of_nil in H.
    all: repeat (rewrite lookup_insert_ne
                   by (unfold SIGSEGV, SIGBUS, SIGILL, SIGFPE, SIGABRT; lia)).
    all: by rewrite lookup_insert_eq. }
  split_and!.
  - unfold deliver. by rewrite (Hin _ Hsig).
  - unfold deliver. by rewrite lookup_delete_eq.
  - intros sig' Hsig' Hne. unfold deliver.
    rewrite lookup_delete_ne by done. by rewrite (Hin _ Hsig').
Qed.

Lemma crash_handler_is_one_shot_witness :
  deliver SIGSEGV (actions (fst (le_sig_InstallShowStackHandler no_env no_scan cfg0)))
  = (Some ShowStackSignalHandlerFn,
     delete SIGSEGV (actions (fst (le_sig_InstallShowStackHandler no_env no_scan cfg0)))) ∧
  deliver SIGSEGV
    (delete SIGSEGV (actions (fst (le_sig_InstallShowStackHandler no_env no_scan cfg0))))
  = (None, delete SIGSEGV (actions (fst (le_sig_InstallShowStackHandler no_env no_scan cfg0)))) ∧
  ∀ sig', sig' ∈ crash_signals → sig' ≠ SIGSEGV →
    deliver sig'
      (delete SIGSEGV (actions (fst (le_sig_InstallShowStackHandler no_env no_scan cfg0))))
    = (Some ShowStackSignalHandlerFn,
       delete sig' (delete SIGSEGV
         (actions (fst (le_sig_InstallShowStackHandler no_env no_scan cfg0))))).
Proof.
  apply (crash_handler_is_one_shot no_env no_scan cfg0 SIGSEGV).
  - reflexivity.
  - unfold crash_signals. left.
Defined.
